(** * json-formatter: the data-transformation core, embedded and verified

    The development follows the repository's modules:
    - [Js]: the ECMAScript built-ins the source relies on (string methods,
      [Map], [Set]);
    - [SchemaInference]: [src/utils/schemaInference.ts];
    - [JsonUtils]: [searchJson] of [src/utils/jsonUtils.ts];
    - [JsonFormatter]: the search hook of [src/components/JsonFormatter.tsx];
    - [ErrorParser]: [src/utils/errorParser.ts];
    - [JsObject]: plain objects used as dictionaries, and [JSON.stringify];
    - [ExportFormats]: [src/utils/exportFormats.ts] (YAML, XML, CSV);
    - [JsOrdered]: own properties in the order an object lists them, and the
      stable sort of arrays;
    - [KeySorter]: [sortObjectKeys] of [src/utils/jsonUtils.ts].
    The definitions come first, the theorems after them.

    Strings are Rocq strings, one [ascii] per UTF-16 code unit: the alphabet
    is the code units 0..255.  Numbers are kept abstract: a JSON number is a
    value of a type [number] with the two operations the source applies to it
    ([String(n)] and the finiteness test of [JSON.stringify]). *)

From Stdlib Require Import String Ascii List ZArith NArith Lia Bool DecimalString DecimalNat.
From stdpp Require Import base list strings gmap sorting.


(** ** ECMAScript built-ins used by the source *)

Module Js.

Definition LF : ascii := "010"%char.
Definition DQUOTE : ascii := "034"%char.

(** [str c]: the one-character string. *)
Definition str (c : ascii) : string := String c "".

(** [s.includes(sub)]: [sub] occurs in [s] at some offset (the empty string
    occurs in every string, at offset 0). *)
Fixpoint includes (s sub : string) : bool :=
  String.prefix sub s ||
  match s with
  | EmptyString => false
  | String _ s' => includes s' sub
  end.

(** [s.includes(c)] for a one-character needle. *)
Fixpoint includes_char (s : string) (c : ascii) : bool :=
  match s with
  | EmptyString => false
  | String a s' => bool_decide (a = c) || includes_char s' c
  end.

Definition in_range (lo hi : N) (c : ascii) : bool :=
  let n := N_of_ascii c in ((lo <=? n) && (n <=? hi))%N.

Definition is_upper (c : ascii) : bool := in_range 65 90 c.
Definition is_lower (c : ascii) : bool := in_range 97 122 c.
Definition is_letter (c : ascii) : bool := is_upper c || is_lower c.
(** [\d] *)
Definition is_digit (c : ascii) : bool := in_range 48 57 c.
(** [\w] *)
Definition is_word (c : ascii) : bool :=
  is_letter c || is_digit c || bool_decide (c = "_"%char).
(** [\s], and the characters [trimStart] strips: TAB, LF, VT, FF, CR, SP and
    NBSP are the ones below code unit 256. *)
Definition is_space (c : ascii) : bool :=
  let n := N_of_ascii c in
  (in_range 9 13 c || (n =? 32) || (n =? 160))%N.

(** [toLowerCase] on one code unit: A-Z and the Latin-1 capitals
    U+00C0..U+00DE (but not the multiplication sign U+00D7) move up by 32. *)
Definition toLowerCase_char (c : ascii) : ascii :=
  let n := N_of_ascii c in
  if (is_upper c || (in_range 192 222 c && negb (n =? 215)))%N
  then ascii_of_N (n + 32) else c.

(** [s.toLowerCase()] on the strings of this development, whose code units
    are below 256: there the method acts on each code unit by itself.  On
    text with other code units it depends on the context (a final sigma) and
    can change the length, so no statement below rests on a law of
    [toLowerCase] (that it commutes with concatenation, or keeps the
    length): they use the tests the source makes with it, as it makes them. *)
Fixpoint toLowerCase (s : string) : string :=
  match s with
  | EmptyString => EmptyString
  | String c s' => String (toLowerCase_char c) (toLowerCase s')
  end.

(** [s.repeat(n)] *)
Fixpoint repeat (s : string) (n : nat) : string :=
  match n with
  | O => ""
  | S n' => s +:+ repeat s n'
  end.

(** [arr.join(sep)] *)
Definition join (sep : string) (l : list string) : string := String.concat sep l.

(** [s.trimStart()] *)
Fixpoint trimStart (s : string) : string :=
  match s with
  | EmptyString => EmptyString
  | String c s' => if is_space c then trimStart s' else s
  end.

Definition startsWith_char (s : string) (c : ascii) : bool :=
  match s with
  | String a _ => bool_decide (a = c)
  | EmptyString => false
  end.

Fixpoint endsWith_char (s : string) (c : ascii) : bool :=
  match s with
  | EmptyString => false
  | String a EmptyString => bool_decide (a = c)
  | String _ s' => endsWith_char s' c
  end.

(** [s.substring(0, n)]: the first [n] code units, all of [s] when it is
    shorter. *)
Fixpoint substring0 (n : nat) (s : string) : string :=
  match n, s with
  | O, _ => ""
  | _, EmptyString => ""
  | S n', String c s' => String c (substring0 n' s')
  end.

(** [s.split(sep)] for a one-character separator, by accumulating the current
    piece; the result always has at least one element. *)
Fixpoint split_go (sep : ascii) (cur : string) (s : string) : list string :=
  match s with
  | EmptyString => [cur]
  | String c s' =>
      if bool_decide (c = sep) then cur :: split_go sep "" s'
      else split_go sep (cur +:+ str c) s'
  end.

Definition split (sep : ascii) (s : string) : list string := split_go sep "" s.

(** Every character satisfies [p]. *)
Fixpoint all_chars (p : ascii -> bool) (s : string) : bool :=
  match s with
  | EmptyString => true
  | String c s' => p c && all_chars p s'
  end.

(** [x] is empty or starts outside the class [P]. *)
Definition starts_outside (P : ascii -> bool) (x : string) : Prop :=
  match x with
  | EmptyString => True
  | String c _ => P c = false
  end.

(** [s.replace(/[class]/g, r)] where the class is the complement of [keep]:
    every character outside [keep] becomes [r]. *)
Fixpoint replace_all_not (keep : ascii -> bool) (r : ascii) (s : string) : string :=
  match s with
  | EmptyString => EmptyString
  | String c s' => String (if keep c then c else r) (replace_all_not keep r s')
  end.

(** [s.replace(/^[class]/, r)], the class again the complement of [keep]: one
    match at most, at offset 0, and the matched character is replaced. *)
Definition replace_first_not (keep : ascii -> bool) (r : ascii) (s : string) : string :=
  match s with
  | EmptyString => EmptyString
  | String c s' => String (if keep c then c else r) s'
  end.

(** [s.replace(/c/g, r)]: every occurrence of the character [c] becomes the
    string [r]. *)
Fixpoint replace_char (c : ascii) (r : string) (s : string) : string :=
  match s with
  | EmptyString => EmptyString
  | String a s' => (if bool_decide (a = c) then r else str a) +:+ replace_char c r s'
  end.

(** [String(i)] for an array index or a count: decimal digits. *)
Definition nat_to_string (n : nat) : string :=
  NilEmpty.string_of_uint (Nat.to_uint n).

(** *** [Map<string, V>]: entries in insertion order *)

Fixpoint Map_get {V} (m : list (string * V)) (key : string) : option V :=
  match m with
  | [] => None
  | (k, v) :: m' => if decide (k = key) then Some v else Map_get m' key
  end.

Definition Map_has {V} (m : list (string * V)) (key : string) : bool :=
  match Map_get m key with Some _ => true | None => false end.

(** [m.set(key, v)]: an existing key keeps its place, a new one goes last. *)
Fixpoint Map_set {V} (m : list (string * V)) (key : string) (v : V) : list (string * V) :=
  match m with
  | [] => [(key, v)]
  | (k, v') :: m' =>
      if decide (k = key) then (k, v) :: m' else (k, v') :: Map_set m' key v
  end.

(** *** [Set<T>]: elements in insertion order, each once *)

Definition Set_add `{EqDecision T} (s : list T) (t : T) : list T :=
  if decide (t ∈ s) then s else s ++ [t].

End Js.

(** ** The value type *)

#[local] Unset Elimination Schemes.

(** A parsed JSON document.  An object is the list of its own properties as
    [Object.entries] yields them. *)
Inductive json (number : Type) : Type :=
| JNull
| JBool (b : bool)
| JNumber (n : number)
| JString (s : string)
| JArray (vs : list (json number))
| JObject (es : list (string * json number)).

#[local] Set Elimination Schemes.

Arguments JNull {number}.
Arguments JBool {number} b.
Arguments JNumber {number} n.
Arguments JString {number} s.
Arguments JArray {number} vs.
Arguments JObject {number} es.

(** What the source asks of a number: [String(n)], and whether it is finite
    ([JSON.stringify] writes [null] for the others). *)
Class NumberOps (number : Type) := {
  numberToString : number -> string;
  isFinite : number -> bool
}.

(** Integers, printed in decimal: the instance the examples run on. *)
Definition Z_to_string (z : Z) : string :=
  match z with
  | Z0 => "0"
  | Zpos p => Js.nat_to_string (Pos.to_nat p)
  | Zneg p => "-" +:+ Js.nat_to_string (Pos.to_nat p)
  end.

#[export] Instance Z_NumberOps : NumberOps Z := {
  numberToString := Z_to_string;
  isFinite := fun _ => true
}.

Section JsonInduction.
Context {number : Type}.
Variable P : json number -> Prop.
Hypothesis Hnull : P JNull.
Hypothesis Hbool : forall b, P (JBool b).
Hypothesis Hnumber : forall n, P (JNumber n).
Hypothesis Hstring : forall s, P (JString s).
Hypothesis Harray : forall vs, Forall P vs -> P (JArray vs).
Hypothesis Hobject : forall es, Forall (fun e => P (snd e)) es -> P (JObject es).

Fixpoint json_ind (v : json number) : P v :=
  match v with
  | JNull => Hnull
  | JBool b => Hbool b
  | JNumber n => Hnumber n
  | JString s => Hstring s
  | JArray vs =>
      Harray vs
        ((fix go (l : list (json number)) : Forall P l :=
            match l with
            | [] => @List.Forall_nil _ P
            | x :: l' => @List.Forall_cons _ P x l' (json_ind x) (go l')
            end) vs)
  | JObject es =>
      Hobject es
        ((fix go (l : list (string * json number)) : Forall (fun e => P (snd e)) l :=
            match l with
            | [] => @List.Forall_nil _ (fun e => P (snd e))
            | e :: l' => @List.Forall_cons _ (fun e => P (snd e)) e l' (json_ind (snd e)) (go l')
            end) es)
  end.
End JsonInduction.

(** Keys of an object, in order. *)
Definition keys {V} (es : list (string * V)) : list string := map fst es.

(** The documents a parser can produce: no object has the same key twice. *)
Fixpoint unique_keys {number} (v : json number) : bool :=
  match v with
  | JArray vs => forallb unique_keys vs
  | JObject es =>
      bool_decide (NoDup (keys es)) && forallb (fun e => unique_keys (snd e)) es
  | _ => true
  end.

(** ** Schema inference: [src/utils/schemaInference.ts] *)

Module SchemaInference.
Import Js.

Inductive JsonType := TString | TNumber | TBoolean | TNull | TObject | TArray.

#[export] Instance JsonType_eq_dec : EqDecision JsonType.
Proof. solve_decision. Defined.

#[local] Unset Elimination Schemes.

Inductive SchemaNode := mkSchemaNode {
  types : list JsonType;
  children : option (list (string * SchemaNode));
  items : option SchemaNode;
  occurrences : nat;
  hasInconsistentTypes : bool
}.

#[local] Set Elimination Schemes.

Section SchemaNodeInduction.
Variable P : SchemaNode -> Prop.
Hypothesis Hnode : forall ts cs it occ inc,
  (match cs with Some l => Forall (fun e => P (snd e)) l | None => True end) ->
  (match it with Some n => P n | None => True end) ->
  P (mkSchemaNode ts cs it occ inc).

Fixpoint SchemaNode_ind (n : SchemaNode) : P n :=
  match n with
  | mkSchemaNode ts cs it occ inc =>
      Hnode ts cs it occ inc
        (match cs with
         | Some l =>
             (fix go (l : list (string * SchemaNode)) : Forall (fun e => P (snd e)) l :=
                match l with
                | [] => @List.Forall_nil _ (fun e => P (snd e))
                | e :: l' =>
                    @List.Forall_cons _ (fun e => P (snd e)) e l' (SchemaNode_ind (snd e)) (go l')
                end) l
         | None => I
         end)
        (match it with Some n' => SchemaNode_ind n' | None => I end)
  end.
End SchemaNodeInduction.

Record SchemaInfo := mkSchemaInfo {
  root : SchemaNode;
  inconsistentPaths : list string
}.

Definition getJsonType {number} (value : json number) : JsonType :=
  match value with
  | JNull => TNull
  | JArray _ => TArray
  | JBool _ => TBoolean
  | JNumber _ => TNumber
  | JString _ => TString
  | JObject _ => TObject
  end.

Definition createEmptyNode : SchemaNode :=
  mkSchemaNode [] None None 0 false.

(** [mergeSchemaNodes(target, source)] returns the target as the call leaves
    it.  The recursion goes down the source; a child or an item schema the
    target lacks is taken over from the source as it is. *)
Fixpoint mergeSchemaNodes (target source : SchemaNode) {struct source} : SchemaNode :=
  let types' := fold_left Set_add (types source) (types target) in
  let occurrences' := occurrences target + occurrences source in
  let nonNullTypes := filter (fun t => t <> TNull) types' in
  let hasInconsistentTypes' := bool_decide (1 < length nonNullTypes) in
  let children' :=
    match children source with
    | Some sc =>
        let tc := match children target with Some tc => tc | None => [] end in
        Some ((fix forEach (sc : list (string * SchemaNode))
                           (tc : list (string * SchemaNode)) :=
                 match sc with
                 | [] => tc
                 | (key, childNode) :: sc' =>
                     forEach sc'
                       (match Map_get tc key with
                        | Some t => Map_set tc key (mergeSchemaNodes t childNode)
                        | None => Map_set tc key childNode
                        end)
                 end) sc tc)
    | None => children target
    end in
  let items' :=
    match items source with
    | Some si =>
        match items target with
        | None => Some si
        | Some ti => Some (mergeSchemaNodes ti si)
        end
    | None => items target
    end in
  mkSchemaNode types' children' items' occurrences' hasInconsistentTypes'.

Fixpoint inferSchemaFromValue {number} (value : json number) : SchemaNode :=
  let type := getJsonType value in
  let types1 := Set_add (types createEmptyNode) type in
  match value with
  | JObject obj =>
      let children1 :=
        fold_left (fun m kv => Map_set m (fst kv) (snd kv))
          (map (fun kv => (fst kv, inferSchemaFromValue (snd kv))) obj) [] in
      mkSchemaNode types1 (Some children1) None 1 false
  | JArray arr =>
      match arr with
      | [] => mkSchemaNode types1 None None 1 false
      | _ :: _ =>
          let items1 :=
            fold_left mergeSchemaNodes (map inferSchemaFromValue arr) createEmptyNode in
          mkSchemaNode types1 None (Some items1) 1 false
      end
  | _ => mkSchemaNode types1 None None 1 false
  end.

(** [currentPath || "(root)"]: the empty string is falsy. *)
Definition path_or_root (currentPath : string) : string :=
  match currentPath with EmptyString => "(root)" | _ => currentPath end.

Definition childPathOf (currentPath key : string) : string :=
  match currentPath with
  | EmptyString => key
  | _ => currentPath +:+ "." +:+ key
  end.

Definition itemPathOf (currentPath : string) : string :=
  match currentPath with
  | EmptyString => "[]"
  | _ => currentPath +:+ "[]"
  end.

(** [paths] is the array the calls push onto; the result is that array
    afterwards. *)
Fixpoint collectInconsistentPaths (node : SchemaNode) (currentPath : string)
    (paths : list string) : list string :=
  let paths1 :=
    if hasInconsistentTypes node then paths ++ [path_or_root currentPath] else paths in
  let paths2 :=
    match children node with
    | Some cs =>
        (fix forEach (cs : list (string * SchemaNode)) (paths : list string) :=
           match cs with
           | [] => paths
           | (key, child) :: cs' =>
               forEach cs'
                 (collectInconsistentPaths child (childPathOf currentPath key) paths)
           end) cs paths1
    | None => paths1
    end in
  match items node with
  | Some it => collectInconsistentPaths it (itemPathOf currentPath) paths2
  | None => paths2
  end.

Definition inferSchema {number} (data : json number) : SchemaInfo :=
  let root := inferSchemaFromValue data in
  mkSchemaInfo root (collectInconsistentPaths root "" []).

(** A path that went through an item schema. *)
Definition has_bracket (p : string) : Prop := includes_char p "[" = true.

(** No node on the spine (reached from the root through object keys only) is
    flagged. *)
Fixpoint spine_consistent (n : SchemaNode) : Prop :=
  hasInconsistentTypes n = false /\
  match children n with
  | Some cs =>
      (fix all (l : list (string * SchemaNode)) : Prop :=
         match l with
         | [] => True
         | (_, c) :: l' => spine_consistent c /\ all l'
         end) cs
  | None => True
  end.

End SchemaInference.

(** ** Search: [searchJson] of [src/utils/jsonUtils.ts] *)

Module JsonUtils.
Import Js.

Inductive MatchType := Key | Value.

#[export] Instance MatchType_eq_dec : EqDecision MatchType.
Proof. solve_decision. Defined.

Record SearchMatch := mkSearchMatch {
  path : string;
  type : MatchType;
  text : string
}.

(** The place of a match: its path and its kind. *)
Definition site (m : SearchMatch) : string * MatchType := (path m, type m).

(** The characters of a key that are not the start of a step of a path. *)
Definition simple_char (c : ascii) : bool :=
  negb (bool_decide (c = "."%char)) && negb (bool_decide (c = "["%char)).

Section Search.
Context {number : Type} `{NumberOps number}.

(** The closure [search] of [searchJson]: [searchQuery] and [caseSensitive]
    are the variables it captures, [matches] is the array it pushes onto. *)
Section Closure.
Variable searchQuery : string.
Variable caseSensitive : bool.

Definition keyPathOf (path key : string) : string :=
  match path with
  | EmptyString => key
  | _ => path +:+ "." +:+ key
  end.

Definition indexPathOf (path : string) (index : nat) : string :=
  path +:+ "[" +:+ nat_to_string index +:+ "]".

Definition push_if (b : bool) (m : SearchMatch) (matches : list SearchMatch) :=
  if b then matches ++ [m] else matches.

Fixpoint search (value : json number) (path : string)
    (matches : list SearchMatch) : list SearchMatch :=
  match value with
  | JNull =>
      let text := "null" in
      push_if (includes text searchQuery) (mkSearchMatch path Value text) matches
  | JString value =>
      let compareText := if caseSensitive then value else toLowerCase value in
      push_if (includes compareText searchQuery) (mkSearchMatch path Value value) matches
  | JNumber n =>
      let text := numberToString n in
      let compareText := if caseSensitive then text else toLowerCase text in
      push_if (includes compareText searchQuery) (mkSearchMatch path Value text) matches
  | JBool b =>
      let text := if b then "true" else "false" in
      let compareText := if caseSensitive then text else toLowerCase text in
      push_if (includes compareText searchQuery) (mkSearchMatch path Value text) matches
  | JArray value =>
      (fix forEach (l : list (json number)) (index : nat) (matches : list SearchMatch) :=
         match l with
         | [] => matches
         | item :: l' =>
             forEach l' (S index) (search item (indexPathOf path index) matches)
         end) value 0 matches
  | JObject entries =>
      (fix loop (l : list (string * json number)) (matches : list SearchMatch) :=
         match l with
         | [] => matches
         | (key, val) :: l' =>
             let keyPath := keyPathOf path key in
             let compareKey := if caseSensitive then key else toLowerCase key in
             let matches1 :=
               push_if (includes compareKey searchQuery)
                 (mkSearchMatch keyPath Key key) matches in
             loop l' (search val keyPath matches1)
         end) entries matches
  end.
(** The two loops of [search] on their own. *)
Section Loops.
Variable path : string.

Fixpoint search_items (l : list (json number)) (index : nat)
    (matches : list SearchMatch) : list SearchMatch :=
  match l with
  | [] => matches
  | item :: l' =>
      search_items l' (S index) (search item (indexPathOf path index) matches)
  end.

Fixpoint search_entries (l : list (string * json number))
    (matches : list SearchMatch) : list SearchMatch :=
  match l with
  | [] => matches
  | (key, val) :: l' =>
      let keyPath := keyPathOf path key in
      let compareKey := if caseSensitive then key else toLowerCase key in
      let matches1 :=
        push_if (includes compareKey searchQuery)
          (mkSearchMatch keyPath Key key) matches in
      search_entries l' (search val keyPath matches1)
  end.
End Loops.

(** The matches a call pushes do not depend on the ones already there. *)
Definition acc_indep (v : json number) : Prop :=
  forall p acc, search v p acc = acc ++ search v p [].

(** [m] lies at [p] or below: its path continues [p] with nothing, or with
    a key step or an index step; only a value can lie at [p] itself. *)
Definition under (p : string) (m : SearchMatch) : Prop :=
  exists t, path m = p +:+ t /\ starts_outside simple_char t /\
            (t = "" -> type m = Value).

(** A list of matches found at [p] or below, no two at the same place. *)
Definition good (p : string) (l : list SearchMatch) : Prop :=
  NoDup (site <$> l) /\ Forall (under p) l.

Definition good_everywhere (v : json number) : Prop :=
  forall p, p <> "" -> good p (search v p []).
End Closure.

Definition searchJson (data : json number) (query : string)
    (caseSensitive : bool) : list SearchMatch :=
  let searchQuery := if caseSensitive then query else toLowerCase query in
  search searchQuery caseSensitive data "" [].

(** How many matches of one kind a list has at one path. *)
Definition matches_at (p : string) (kind : MatchType) (l : list SearchMatch) : nat :=
  length (filter (fun m => site m = (p, kind)) l).

(** How many places the traversal visits: every leaf and every key. *)
Fixpoint visited (v : json number) : nat :=
  match v with
  | JArray vs => list_sum (map visited vs)
  | JObject es => list_sum (map (fun e => S (visited (snd e))) es)
  | _ => 1
  end.

(** The places of a document below the path [path], in document order: for
    every leaf a Value match with the path of the leaf and its text, and for
    every key of every object a Key match with the path of the property and
    the key as its text, followed by the places of the property's value. *)
Fixpoint places (v : json number) (path : string) : list SearchMatch :=
  match v with
  | JNull => [mkSearchMatch path Value "null"]
  | JBool b => [mkSearchMatch path Value (if b then "true" else "false")]
  | JNumber n => [mkSearchMatch path Value (numberToString n)]
  | JString s => [mkSearchMatch path Value s]
  | JArray vs =>
      (fix of_items (l : list (json number)) (index : nat) : list SearchMatch :=
         match l with
         | [] => []
         | item :: l' =>
             places item (path +:+ "[" +:+ nat_to_string index +:+ "]") ++
             of_items l' (S index)
         end) vs 0
  | JObject es =>
      (fix of_entries (l : list (string * json number)) : list SearchMatch :=
         match l with
         | [] => []
         | (key, val) :: l' =>
             let keyPath :=
               match path with EmptyString => key | _ => path +:+ "." +:+ key end in
             mkSearchMatch keyPath Key key :: places val keyPath ++ of_entries l'
         end) es
  end.

(** Keys that cannot be confused with a step of a path: not empty, and
    without the characters [.] and [[]. *)
Definition simple_key (k : string) : bool :=
  negb (bool_decide (k = "")) && all_chars simple_char k.

Fixpoint simple_keys (v : json number) : bool :=
  match v with
  | JArray vs => forallb simple_keys vs
  | JObject es => forallb (fun e => simple_key (fst e) && simple_keys (snd e)) es
  | _ => true
  end.

End Search.
End JsonUtils.

(** ** The search hook of [components/JsonFormatter.tsx] *)

Module JsonFormatter.
Import Js JsonUtils.

(** [s.trim()] *)
Fixpoint trimEnd (s : string) : string :=
  match s with
  | EmptyString => EmptyString
  | String c s' =>
      match trimEnd s' with
      | EmptyString => if is_space c then EmptyString else String c EmptyString
      | t => String c t
      end
  end.

Definition trim (s : string) : string := trimEnd (trimStart s).

(** The [useMemo] that computes [searchMatches]: [result] is [Some data]
    when parsing succeeded. *)
Definition searchMatches {number} `{NumberOps number}
    (result : option (json number)) (searchQuery : string) : list SearchMatch :=
  match result with
  | None => []
  | Some data =>
      match trim searchQuery with
      | EmptyString => []
      | q => searchJson data q false
      end
  end.

End JsonFormatter.

(** ** Parse-error location: [src/utils/errorParser.ts] *)

Module ErrorParser.
Import Js.

Record ParsedError := mkParsedError {
  message : string;
  hint : string;
  position : option nat;
  line : option nat;
  column : option nat
}.

(** The longest prefix of [s] whose characters satisfy [p], and what follows:
    how a greedy [\s+] or [\d+] consumes its input. *)
Fixpoint span (p : ascii -> bool) (s : string) : string * string :=
  match s with
  | EmptyString => ("", "")
  | String c s' =>
      if p c then let (a, r) := span p s' in (String c a, r) else ("", s)
  end.

(** The literal [lit] (given in lower case) at the start of [s], letters
    compared without case as the flag [i] asks; the result is what follows. *)
Fixpoint strip_literal_ci (lit s : string) : option string :=
  match lit, s with
  | EmptyString, _ => Some s
  | String _ _, EmptyString => None
  | String a lit', String c s' =>
      if bool_decide (toLowerCase_char c = a) then strip_literal_ci lit' s' else None
  end.

(** [/position\s+(\d+)/i] tried at the start of [s]: the digits captured. *)
Definition match_position_here (s : string) : option string :=
  match strip_literal_ci "position" s with
  | Some r =>
      let (ws, r1) := span is_space r in
      match ws with
      | EmptyString => None
      | _ =>
          let (ds, _) := span is_digit r1 in
          match ds with
          | EmptyString => None
          | _ => Some ds
          end
      end
  | None => None
  end.

(** [s.match(/position\s+(\d+)/i)]: the leftmost offset where it matches. *)
Fixpoint match_position (s : string) : option string :=
  match match_position_here s with
  | Some ds => Some ds
  | None =>
      match s with
      | EmptyString => None
      | String _ s' => match_position s'
      end
  end.

Definition digit_value (c : ascii) : nat := N.to_nat (N_of_ascii c - 48).

(** [parseInt(ds, 10)] on a string of digits.  The value is exact here; the
    JavaScript number is the nearest double, the same up to 2^53. *)
Definition parseInt (ds : string) : nat :=
  fold_left (fun acc c => 10 * acc + digit_value c) (list_ascii_of_string ds) 0.

Definition extractPosition (input errorMessage : string) : option nat :=
  match match_position errorMessage with
  | Some ds => Some (parseInt ds)
  | None => None
  end.

Definition calculateLineAndColumn (input : string) (position : nat) : nat * nat :=
  let lines := split LF (substring0 position input) in
  (length lines, String.length (List.last lines "") + 1).

Section Classification.
(** The message and the hint: the table [errorPatterns], the three checks on
    the context of the position, and the fallback.  Nothing proved below
    depends on what they say, so they are a parameter: from the input, the
    diagnostic and the position to the pair that is returned. *)
Variable describe : string -> string -> option nat -> string * string.

Definition parseJsonError (input errorMessage : string) : ParsedError :=
  let position := extractPosition input errorMessage in
  let loc :=
    match position with
    | Some p => Some (calculateLineAndColumn input p)
    | None => None
    end in
  let line := fst <$> loc in
  let column := snd <$> loc in
  let (message, hint) := describe input errorMessage position in
  mkParsedError message hint position line column.
End Classification.

(** The two quantities of the specification. *)
Fixpoint count_char (c : ascii) (s : string) : nat :=
  match s with
  | EmptyString => 0
  | String a s' => (if bool_decide (a = c) then 1 else 0) + count_char c s'
  end.

(** [s.lastIndexOf(c)], scanning from index [i] with [acc] the last index
    found so far; -1 when there is none. *)
Fixpoint lastIndexOf_from (c : ascii) (s : string) (i acc : Z) : Z :=
  match s with
  | EmptyString => acc
  | String a s' => lastIndexOf_from c s' (i + 1) (if bool_decide (a = c) then i else acc)
  end.

Definition lastIndexOf (c : ascii) (s : string) : Z := lastIndexOf_from c s 0 (-1).

End ErrorParser.

(** ** Plain objects and [JSON.stringify] *)

Module JsObject.
Import Js.

(** The property names every plain object inherits from [Object.prototype]. *)
Definition Object_prototype_names : list string :=
  ["constructor"; "__defineGetter__"; "__defineSetter__"; "hasOwnProperty";
   "__lookupGetter__"; "__lookupSetter__"; "isPrototypeOf";
   "propertyIsEnumerable"; "toString"; "valueOf"; "__proto__";
   "toLocaleString"].

(** What [obj[key]] finds: an own property, a member of the prototype, or
    nothing ([undefined]). *)
Inductive property (V : Type) :=
| Own (v : V)
| Inherited
| Absent.
Arguments Own {V} v.
Arguments Inherited {V}.
Arguments Absent {V}.

(** A plain object used as a dictionary of strings: its own properties. *)
Definition dict := gmap string string.

(** [obj[key] = v] for a string [v]: the key [__proto__] is the accessor of
    [Object.prototype], whose setter ignores a value that is not an object,
    so no own property appears. *)
Definition dict_assign (obj : dict) (key v : string) : dict :=
  if bool_decide (key = "__proto__") then obj else <[key := v]> obj.

(** [obj[key]] *)
Definition dict_read (obj : dict) (key : string) : property string :=
  match obj !! key with
  | Some v => Own v
  | None =>
      if bool_decide (key ∈ Object_prototype_names) then Inherited else Absent
  end.

(** A call that returns or throws a [TypeError]. *)
Inductive outcome (A : Type) :=
| Returns (a : A)
| ThrowsTypeError.
Arguments Returns {A} a.
Arguments ThrowsTypeError {A}.

(** All the outcomes are returns: the list of what was returned. *)
Fixpoint all_return {A} (l : list (outcome A)) : outcome (list A) :=
  match l with
  | [] => Returns []
  | Returns a :: l' =>
      match all_return l' with
      | Returns r => Returns (a :: r)
      | ThrowsTypeError => ThrowsTypeError
      end
  | ThrowsTypeError :: _ => ThrowsTypeError
  end.

Definition hex_digit (n : N) : ascii :=
  if (n <? 10)%N then ascii_of_N (48 + n) else ascii_of_N (87 + n).

(** One code unit inside [JSON.stringify] of a string. *)
Definition quote_char (c : ascii) : string :=
  let n := N_of_ascii c in
  if (n =? 8)%N then "\b"
  else if (n =? 9)%N then "\t"
  else if (n =? 10)%N then "\n"
  else if (n =? 12)%N then "\f"
  else if (n =? 13)%N then "\r"
  else if (n =? 34)%N then "\" +:+ str DQUOTE
  else if (n =? 92)%N then "\\"
  else if (n <? 32)%N then "\u00" +:+ str (hex_digit (n / 16)) +:+ str (hex_digit (n mod 16))
  else str c.

Fixpoint quote_chars (s : string) : string :=
  match s with
  | EmptyString => EmptyString
  | String c s' => quote_char c +:+ quote_chars s'
  end.

(** [JSON.stringify(s)] for a string [s]. *)
Definition JSON_stringify_string (s : string) : string :=
  str DQUOTE +:+ quote_chars s +:+ str DQUOTE.

(** [String(b)] *)
Definition bool_to_string (b : bool) : string := if b then "true" else "false".

(** [JSON.stringify(value)], without indentation. *)
Fixpoint JSON_stringify {number} `{NumberOps number} (value : json number) : string :=
  match value with
  | JNull => "null"
  | JBool b => bool_to_string b
  | JNumber n => if isFinite n then numberToString n else "null"
  | JString s => JSON_stringify_string s
  | JArray vs => "[" +:+ join "," (map JSON_stringify vs) +:+ "]"
  | JObject es =>
      "{" +:+ join ","
        (map (fun e => JSON_stringify_string (fst e) +:+ ":" +:+ JSON_stringify (snd e)) es)
      +:+ "}"
  end.

(** [Object.entries(value)] for an object or an array. *)
Definition entries_of_array {number} (vs : list (json number)) : list (string * json number) :=
  imap (fun i v => (nat_to_string i, v)) vs.

End JsObject.

(** ** Converters: [src/utils/exportFormats.ts] *)

Module ExportFormats.
Import Js JsObject.

Section Converters.
Context {number : Type} `{NumberOps number}.

(** [typeof v === "object" && v !== null] *)
Definition is_object_or_array (v : json number) : bool :=
  match v with
  | JArray _ | JObject _ => true
  | _ => false
  end.

(** *** YAML *)

Definition yaml_keywords : list string :=
  ["true"; "false"; "null"; "yes"; "no"; "on"; "off"].

(** [/^[\d.]+$/] *)
Definition numeric_looking (s : string) : bool :=
  negb (bool_decide (s = "")) &&
  all_chars (fun c => is_digit c || bool_decide (c = "."%char)) s.

Definition needs_quoting (data : string) : bool :=
  bool_decide (data = "") ||
  includes_char data LF ||
  includes_char data ":" ||
  includes_char data "#" ||
  startsWith_char data " " ||
  endsWith_char data " " ||
  numeric_looking data ||
  bool_decide (toLowerCase data ∈ yaml_keywords).

(** [/^[\w-]+$/] *)
Definition bare_key (key : string) : bool :=
  negb (bool_decide (key = "")) &&
  all_chars (fun c => is_word c || bool_decide (c = "-"%char)) key.

(** An array or an object with at least one element or key. *)
Definition non_empty_container (v : json number) : bool :=
  match v with
  | JArray (_ :: _) | JObject (_ :: _) => true
  | _ => false
  end.

Fixpoint jsonToYaml (data : json number) (indent : nat) : string :=
  let spaces := repeat "  " indent in
  match data with
  | JNull => "null"
  | JBool b => if b then "true" else "false"
  | JNumber n => numberToString n
  | JString data => if needs_quoting data then JSON_stringify_string data else data
  | JArray [] => "[]"
  | JArray data =>
      let items :=
        map (fun item =>
               let value := jsonToYaml item (indent + 1) in
               if is_object_or_array item
               then spaces +:+ "- " +:+ trimStart value
               else spaces +:+ "- " +:+ value) data in
      str LF +:+ join (str LF) items
  | JObject [] => "{}"
  | JObject entries =>
      let lines :=
        map (fun e =>
               let key := fst e in
               let value := snd e in
               let yamlValue := jsonToYaml value (indent + 1) in
               let safeKey := if bare_key key then key else JSON_stringify_string key in
               if non_empty_container value
               then spaces +:+ safeKey +:+ ":" +:+ yamlValue
               else spaces +:+ safeKey +:+ ": " +:+ yamlValue) entries in
      (match indent with O => "" | _ => str LF end) +:+ join (str LF) lines
  end.

(** *** XML *)

Definition escapeXml (s : string) : string :=
  replace_char "'" "&apos;"
    (replace_char DQUOTE "&quot;"
       (replace_char ">" "&gt;"
          (replace_char "<" "&lt;"
             (replace_char "&" "&amp;" s)))).

(** [[a-zA-Z0-9_-]] *)
Definition tag_char (c : ascii) : bool :=
  is_letter c || is_digit c || bool_decide (c = "_"%char) || bool_decide (c = "-"%char).

(** [[a-zA-Z_]] *)
Definition tag_start_char (c : ascii) : bool :=
  is_letter c || bool_decide (c = "_"%char).

(** [safeTag] of [toXmlElement] *)
Definition safeTagOf (tagName : string) : string :=
  replace_first_not tag_start_char "_" (replace_all_not tag_char "_" tagName).


Fixpoint toXmlElement (value : json number) (tagName : string) (depth : nat) : string :=
  let ind := repeat "  " depth in
  let safeTag := safeTagOf tagName in
  match value with
  | JNull => ind +:+ "<" +:+ safeTag +:+ " xsi:nil=" +:+ str DQUOTE +:+ "true" +:+ str DQUOTE +:+ "/>"
  | JBool b =>
      ind +:+ "<" +:+ safeTag +:+ ">" +:+ bool_to_string b +:+ "</" +:+ safeTag +:+ ">"
  | JNumber n =>
      ind +:+ "<" +:+ safeTag +:+ ">" +:+ numberToString n +:+ "</" +:+ safeTag +:+ ">"
  | JString s =>
      ind +:+ "<" +:+ safeTag +:+ ">" +:+ escapeXml s +:+ "</" +:+ safeTag +:+ ">"
  | JArray [] => ind +:+ "<" +:+ safeTag +:+ "/>"
  | JArray value =>
      let items := map (fun item => toXmlElement item "item" (depth + 1)) value in
      ind +:+ "<" +:+ safeTag +:+ ">" +:+ str LF +:+ join (str LF) items +:+ str LF +:+
      ind +:+ "</" +:+ safeTag +:+ ">"
  | JObject [] => ind +:+ "<" +:+ safeTag +:+ "/>"
  | JObject entries =>
      let children := map (fun e => toXmlElement (snd e) (fst e) (depth + 1)) entries in
      ind +:+ "<" +:+ safeTag +:+ ">" +:+ str LF +:+ join (str LF) children +:+ str LF +:+
      ind +:+ "</" +:+ safeTag +:+ ">"
  end.

Definition xml_declaration : string :=
  "<?xml version=" +:+ str DQUOTE +:+ "1.0" +:+ str DQUOTE +:+
  " encoding=" +:+ str DQUOTE +:+ "UTF-8" +:+ str DQUOTE +:+ "?>".

Definition jsonToXml (data : json number) (rootName : string) : string :=
  let xmlContent := toXmlElement data rootName 0 in
  xml_declaration +:+ str LF +:+ xmlContent.

(** *** CSV *)

Record CsvResult := mkCsvResult {
  success : bool;
  csv : option string;
  error : option string
}.

(** [String(item)] *)
Definition String_of (v : json number) : string :=
  match v with
  | JNull => "null"
  | JBool b => bool_to_string b
  | JNumber n => numberToString n
  | JString s => s
  | _ => JSON_stringify v
  end.

Definition fullKeyOf (prefix key : string) : string :=
  match prefix with
  | EmptyString => key
  | _ => prefix +:+ "." +:+ key
  end.

(** The row being filled and the set of column names. *)
Definition flat_state : Type := dict * gset string.

Definition record_cell (fullKey v : string) (st : flat_state) : flat_state :=
  (dict_assign (fst st) fullKey v, snd st ∪ {[fullKey]}).

(** One turn of the loop of [flattenObject], for the property [value] whose
    column name is [fullKey]; a nested object runs the loop on its entries. *)
Fixpoint flattenProperty (value : json number) (fullKey : string)
    (st : flat_state) : flat_state :=
  match value with
  | JNull => record_cell fullKey "null" st
  | JObject entries =>
      (fix loop (l : list (string * json number)) (st : flat_state) :=
         match l with
         | [] => st
         | (key, v) :: l' => loop l' (flattenProperty v (fullKeyOf fullKey key) st)
         end) entries st
  | JArray _ => record_cell fullKey (JSON_stringify value) st
  | _ => record_cell fullKey (String_of value) st
  end.

(** [flattenObject(obj, prefix, result, keys)], [obj] given by its entries. *)
Fixpoint flattenObject (obj : list (string * json number)) (prefix : string)
    (st : flat_state) : flat_state :=
  match obj with
  | [] => st
  | (key, value) :: obj' =>
      flattenObject obj' prefix (flattenProperty value (fullKeyOf prefix key) st)
  end.

Definition escapeCsvValue (val : string) : string :=
  if includes_char val "," || includes_char val DQUOTE || includes_char val LF
  then str DQUOTE +:+ replace_char DQUOTE (str DQUOTE +:+ str DQUOTE) val +:+ str DQUOTE
  else val.

(** [escapeCsvValue(row[h] ?? "")]: a member of the prototype is not nullish
    and has no method [includes]. *)
Definition cell (row : dict) (h : string) : outcome string :=
  match dict_read row h with
  | Own v => Returns (escapeCsvValue v)
  | Absent => Returns (escapeCsvValue "")
  | Inherited => ThrowsTypeError
  end.

(** The loop over the items: the rows, and the column names seen. *)
Fixpoint flatten_items (arr : list (json number)) (flatRows : list dict)
    (allKeys : gset string) : list dict * gset string :=
  match arr with
  | [] => (flatRows, allKeys)
  | item :: arr' =>
      match item with
      | JObject entries =>
          let (flatRow, allKeys') := flattenObject entries "" (∅, allKeys) in
          flatten_items arr' (flatRows ++ [flatRow]) allKeys'
      | JArray vs =>
          let (flatRow, allKeys') := flattenObject (entries_of_array vs) "" (∅, allKeys) in
          flatten_items arr' (flatRows ++ [flatRow]) allKeys'
      | _ =>
          flatten_items arr' (flatRows ++ [{[ "value" := String_of item ]}])
            (allKeys ∪ {[ "value" ]})
      end
  end.

Definition jsonToCsv (data : json number) : outcome CsvResult :=
  let arr :=
    match data with
    | JArray arr => Some arr
    | JObject _ => Some [data]
    | _ => None
    end in
  match arr with
  | None =>
      Returns (mkCsvResult false None
                 (Some "CSV export requires an array of objects or a single object"))
  | Some [] => Returns (mkCsvResult true (Some "") None)
  | Some arr =>
      let (flatRows, allKeys) := flatten_items arr [] ∅ in
      let headers := merge_sort String.le (elements allKeys) in
      let headerRow := join "," (map escapeCsvValue headers) in
      match all_return
              (map (fun row =>
                      match all_return (map (cell row) headers) with
                      | Returns cells => Returns (join "," cells)
                      | ThrowsTypeError => ThrowsTypeError
                      end) flatRows) with
      | Returns dataRows =>
          Returns (mkCsvResult true (Some (join (str LF) (headerRow :: dataRows))) None)
      | ThrowsTypeError => ThrowsTypeError
      end
  end.

End Converters.
End ExportFormats.

(** ** Own properties in order, and [sortObjectKeys] of [src/utils/jsonUtils.ts] *)

Module JsOrdered.
Import Js.

Definition N_to_string (n : N) : string := NilEmpty.string_of_uint (N.to_uint n).

(** An array index: a key that is the decimal writing of an integer below
    2^32 - 1.  These are the keys an object lists first, in ascending order. *)
Definition array_index (key : string) : option N :=
  match NilEmpty.uint_of_string key with
  | Some d =>
      let n := N.of_uint d in
      if bool_decide (N_to_string n = key) && (n <? 2 ^ 32 - 1)%N then Some n else None
  | None => None
  end.

(** A new array index [i] takes its place among the array indices, which come
    first. *)
Fixpoint insert_index {V} (i : N) (key : string) (v : V)
    (obj : list (string * V)) : list (string * V) :=
  match obj with
  | [] => [(key, v)]
  | (k, w) :: obj' =>
      match array_index k with
      | Some j => if (i <? j)%N then (key, v) :: obj else (k, w) :: insert_index i key v obj'
      | None => (key, v) :: obj
      end
  end.

(** [obj[key] = v] on a plain object given by its own properties in the order
    [Object.keys] lists them.  The key [__proto__] is the accessor inherited
    from [Object.prototype]: assigning to it sets or leaves the prototype and
    creates no own property.  A key the object has keeps its place; a new
    array index is placed by [insert_index]; any other new key goes last. *)
Definition Object_assign {V} (obj : list (string * V)) (key : string) (v : V)
    : list (string * V) :=
  if bool_decide (key = "__proto__") then obj
  else if Map_has obj key then Map_set obj key v
  else match array_index key with
       | Some i => insert_index i key v obj
       | None => obj ++ [(key, v)]
       end.

(** The loop [for (const [k, v] of entries) obj[k] = v]. *)
Definition build {V} (entries : list (string * V)) (obj : list (string * V))
    : list (string * V) :=
  fold_left (fun o e => Object_assign o (fst e) (snd e)) entries obj.

Definition is_index (key : string) : bool :=
  match array_index key with Some _ => true | None => false end.

(** A key that is listed after the array indices, in the order of creation. *)
Definition is_named (key : string) : bool :=
  negb (is_index key) && negb (bool_decide (key = "__proto__")).

(** [e1] has a smaller array index than [e2]. *)
Definition index_lt {V} (e1 e2 : string * V) : Prop :=
  exists i j, array_index (fst e1) = Some i /\ array_index (fst e2) = Some j /\ (i < j)%N.

(** The array indices [entries] creates, as an object lists them. *)
Definition index_part {V} (entries : list (string * V)) : list (string * V) :=
  build (filter (fun e => is_index (fst e) = true) entries) [].

(** The other properties [entries] creates, as an object lists them. *)
Definition named_part {V} (entries : list (string * V)) : list (string * V) :=
  filter (fun e => is_named (fst e) = true) entries.

(** The entries that create a property. *)
Definition creating {V} (entries : list (string * V)) : list (string * V) :=
  filter (fun e => fst e <> "__proto__") entries.

Section Sort.
Context {A : Type}.
(** The comparator: [Lt] for a negative result, [Eq] for zero, [Gt] for a
    positive one. *)
Variable compareFn : A -> A -> comparison.

Fixpoint sort_insert (x : A) (l : list A) : list A :=
  match l with
  | [] => [x]
  | y :: l' =>
      match compareFn x y with
      | Gt => y :: sort_insert x l'
      | _ => x :: l
      end
  end.

(** [x] is not placed after [y]. *)
Definition compare_le (x y : A) : Prop := compareFn x y <> Gt.

(** [arr.sort(compareFn)]: the sort is stable, and for a comparator that is a
    total preorder there is one stable sorted arrangement, which insertion
    from the right computes. *)
Definition Array_sort (l : list A) : list A := foldr sort_insert [] l.
End Sort.

(** Properties compared by their keys. *)
Definition compare_entries {V} (compareFn : string -> string -> comparison)
    (e1 e2 : string * V) : comparison :=
  compareFn (fst e1) (fst e2).

(** The object the loop of [sortObjectKeys] builds from the properties
    [values]: they are assigned in the sorted order of their keys. *)
Definition rebuild {V} (compareFn : string -> string -> comparison)
    (values : list (string * V)) : list (string * V) :=
  build (Array_sort (compare_entries compareFn) values) [].

End JsOrdered.

Module KeySorter.
Import Js JsOrdered.

Section SortObjectKeys.
Context {number : Type}.
(** [a.localeCompare(b, undefined, { sensitivity: "base" })] *)
Variable localeCompare : string -> string -> comparison.

(** The loop [for (const key of keys) sorted[key] = ...], [values] holding
    for each key of the object the sorted value of its property. *)
Definition assign_sorted (values : list (string * json number))
    (sorted : list (string * json number)) (key : string) : list (string * json number) :=
  match Map_get values key with
  | Some v => Object_assign sorted key v
  | None => sorted
  end.

(** The properties [values[key]] for the keys of [keys]. *)
Definition entries_for (values : list (string * json number)) (keys : list string)
    : list (string * json number) :=
  omap (fun key => (fun v => (key, v)) <$> Map_get values key) keys.

Fixpoint sortObjectKeys (value : json number) : json number :=
  match value with
  | JArray vs => JArray (map sortObjectKeys vs)
  | JObject es =>
      let keys := Array_sort localeCompare (keys es) in
      let values := map (fun e => (fst e, sortObjectKeys (snd e))) es in
      JObject (fold_left (assign_sorted values) keys [])
  | _ => value
  end.
End SortObjectKeys.

(** A stand-in for the collator on unaccented text: code units compared after
    lowering the case. *)
Definition caseless_compare (a b : string) : comparison :=
  String.compare (toLowerCase a) (toLowerCase b).

#[local] Unset Elimination Schemes.

(** [w] is [v] up to the order of the keys of its objects: the same leaves,
    the same array elements in the same order, the same properties. *)
Inductive same_up_to_key_order {number : Type} : json number -> json number -> Prop :=
| same_null : same_up_to_key_order JNull JNull
| same_bool b : same_up_to_key_order (JBool b) (JBool b)
| same_number n : same_up_to_key_order (JNumber n) (JNumber n)
| same_string s : same_up_to_key_order (JString s) (JString s)
| same_array vs ws :
    Forall2 same_up_to_key_order vs ws ->
    same_up_to_key_order (JArray vs) (JArray ws)
| same_object es es' fs :
    Forall2 (fun e e' => fst e = fst e' /\ same_up_to_key_order (snd e) (snd e')) es es' ->
    es' ≡ₚ fs ->
    same_up_to_key_order (JObject es) (JObject fs).

#[local] Set Elimination Schemes.

(** No object has the key [__proto__]. *)
Fixpoint no_proto_key {number} (v : json number) : bool :=
  match v with
  | JArray vs => forallb no_proto_key vs
  | JObject es =>
      forallb (fun e => negb (bool_decide (fst e = "__proto__")) && no_proto_key (snd e)) es
  | _ => true
  end.

End KeySorter.

(** ** Schema display and invariants: the rest of [src/utils/schemaInference.ts] *)

Module SchemaFormat.
Import Js SchemaInference.

(** The tags are the strings of the type [JsonType]. *)
Definition typeName (t : JsonType) : string :=
  match t with
  | TString => "string"
  | TNumber => "number"
  | TBoolean => "boolean"
  | TNull => "null"
  | TObject => "object"
  | TArray => "array"
  end.

(** [formatTypes(types)]: [Array.from(types).sort().join(" | ")]; the default
    sort orders strings by their code units. *)
Definition formatTypes (types : list JsonType) : string :=
  join " | " (merge_sort String.le (map typeName types)).

(** The loop over [source.children] of [mergeSchemaNodes], on its own. *)
Fixpoint mergeChildren (sc tc : list (string * SchemaNode)) : list (string * SchemaNode) :=
  match sc with
  | [] => tc
  | (key, childNode) :: sc' =>
      mergeChildren sc'
        (match Map_get tc key with
         | Some t => Map_set tc key (mergeSchemaNodes t childNode)
         | None => Map_set tc key childNode
         end)
  end.

(** The loop over the children of [collectInconsistentPaths], on its own. *)
Section CollectChildren.
Variable currentPath : string.

Fixpoint collectChildren (cs : list (string * SchemaNode))
    (paths : list string) : list string :=
  match cs with
  | [] => paths
  | (key, child) :: cs' =>
      collectChildren cs'
        (collectInconsistentPaths child (childPathOf currentPath key) paths)
  end.
End CollectChildren.

(** [P] holds of a node and of every node below it. *)
Fixpoint every_node (P : SchemaNode -> Prop) (n : SchemaNode) : Prop :=
  P n /\
  match children n with
  | Some cs =>
      (fix all (l : list (string * SchemaNode)) : Prop :=
         match l with
         | [] => True
         | (_, c) :: l' => every_node P c /\ all l'
         end) cs
  | None => True
  end /\
  match items n with
  | Some it => every_node P it
  | None => True
  end.

(** The flag of a node is derived from its tags: more than one that is not
    [null]. *)
Definition flag_derived (n : SchemaNode) : Prop :=
  hasInconsistentTypes n =
  bool_decide (1 < length (filter (fun t => t <> TNull) (types n))).

(** A node has children exactly when it saw an object, and an item schema
    only when it saw an array; no tag is listed twice. *)
Definition shape_ok (n : SchemaNode) : Prop :=
  NoDup (types n) /\
  (is_Some (children n) <-> TObject ∈ types n) /\
  (is_Some (items n) -> TArray ∈ types n).

Definition unflagged (n : SchemaNode) : Prop := hasInconsistentTypes n = false.

(** [node_at n p m q]: [m] is a node of the tree of [n], and [q] is the path
    the traversal gives it when [n] has the path [p]: [n] itself, or a node
    of a child under the child's path, or a node of the item schema under the
    item path. *)
Inductive node_at : SchemaNode -> string -> SchemaNode -> string -> Prop :=
| node_here n p : node_at n p n p
| node_child n p cs key child m q :
    children n = Some cs -> (key, child) ∈ cs ->
    node_at child (childPathOf p key) m q -> node_at n p m q
| node_item n p it m q :
    items n = Some it -> node_at it (itemPathOf p) m q -> node_at n p m q.

(** The paths a call reports do not depend on the ones already collected. *)
Definition acc_free (n : SchemaNode) : Prop :=
  forall p paths,
    collectInconsistentPaths n p paths = paths ++ collectInconsistentPaths n p [].

End SchemaFormat.

(** ** Match lookup and highlighting: [isPathMatched] of
    [src/utils/jsonUtils.ts] and [src/components/JsonOutput.tsx] *)

Module SearchView.
Import Js JsonUtils.

(** [isPathMatched(path, matches)]: the pair [(isKeyMatch, isValueMatch)]. *)
Definition isPathMatched (path : string) (matches : list SearchMatch) : bool * bool :=
  fold_left
    (fun (flags : bool * bool) (m : SearchMatch) =>
       if bool_decide (JsonUtils.path m = path)
       then (if bool_decide (type m = Key) then true else fst flags,
             if bool_decide (type m = Value) then true else snd flags)
       else flags)
    matches (false, false).

(** The [matchSet] of [JsonOutput]: for each path of a match, the pair
    [(isKey, isValue)]. *)
Definition matchSet (searchMatches : list SearchMatch) : list (string * (bool * bool)) :=
  fold_left
    (fun (set : list (string * (bool * bool))) (m : SearchMatch) =>
       let existing :=
         match Map_get set (JsonUtils.path m) with
         | Some e => e
         | None => (false, false)
         end in
       let existing1 :=
         (if bool_decide (type m = Key) then true else fst existing,
          if bool_decide (type m = Value) then true else snd existing) in
       Map_set set (JsonUtils.path m) existing1)
    searchMatches [].

(** What [JsonNode] reads for its path: [match?.isKey || false] and
    [match?.isValue || false]. *)
Definition nodeMatch (set : list (string * (bool * bool))) (path : string) : bool * bool :=
  match Map_get set path with
  | Some e => e
  | None => (false, false)
  end.

(** [s.slice(n)] for an index within the string: without its first [n] code
    units. *)
Fixpoint drop_chars (n : nat) (s : string) : string :=
  match n, s with
  | O, _ => s
  | S n', String _ s' => drop_chars n' s'
  | S _, EmptyString => EmptyString
  end.

(** [s.indexOf(sub)]: the first offset at which [sub] occurs, [None] for -1. *)
Fixpoint indexOf (s sub : string) : option nat :=
  if String.prefix sub s then Some 0
  else match s with
       | EmptyString => None
       | String _ s' => S <$> indexOf s' sub
       end.

(** What [highlightText] returns: the text as it is, or the text in three
    parts with the middle one marked. *)
Inductive segment := Plain (s : string) | Mark (s : string).

Definition segment_text (g : segment) : string :=
  match g with Plain s => s | Mark s => s end.

Definition highlightText (text query : string) (shouldHighlight : bool) : list segment :=
  if negb shouldHighlight || bool_decide (query = "") then [Plain text]
  else
    let lowerText := toLowerCase text in
    let lowerQuery := toLowerCase query in
    match indexOf lowerText lowerQuery with
    | None => [Plain text]
    | Some index =>
        let before := substring0 index text in
        let match_ := substring0 (String.length query) (drop_chars index text) in
        let after := drop_chars (index + String.length query) text in
        [Plain before; Mark match_; Plain after]
    end.

(** [escapeString] of [JsonOutput]: the five replacements, in order. *)
Definition escapeString (s : string) : string :=
  replace_char "009" "\t"
    (replace_char "013" "\r"
       (replace_char LF "\n"
          (replace_char DQUOTE ("\" +:+ str DQUOTE)
             (replace_char "\" "\\" s)))).

(** The query test of [searchJson] on a text: [fold] is the lowering of the
    case when the search is not case sensitive. *)
Definition fold_case (caseSensitive : bool) (s : string) : string :=
  if caseSensitive then s else toLowerCase s.

Definition text_matches (query : string) (caseSensitive : bool) (m : SearchMatch) : Prop :=
  includes (fold_case caseSensitive (text m)) (fold_case caseSensitive query) = true.

#[export] Instance text_matches_dec query caseSensitive m :
  Decision (text_matches query caseSensitive m).
Proof. unfold text_matches. apply _. Defined.

(** The text a list of segments shows. *)
Definition segments_text (l : list segment) : string :=
  fold_right (fun g acc => segment_text g +:+ acc) "" l.

End SearchView.

(** ** Replacements seen one character at a time *)

Module Escapes.
Import Js.

(** Every character [a] replaced by the string [f a]. *)
Fixpoint map_chars (f : ascii -> string) (s : string) : string :=
  match s with
  | EmptyString => EmptyString
  | String a s' => f a +:+ map_chars f s'
  end.

(** What [escapeString] makes of one character. *)
Definition escapeString_char (a : ascii) : string :=
  if bool_decide (a = "\"%char) then "\\"
  else if bool_decide (a = DQUOTE) then "\" +:+ str DQUOTE
  else if bool_decide (a = LF) then "\n"
  else if bool_decide (a = "013"%char) then "\r"
  else if bool_decide (a = "009"%char) then "\t"
  else str a.

(** What [escapeXml] makes of one character. *)
Definition escapeXml_char (a : ascii) : string :=
  if bool_decide (a = "&"%char) then "&amp;"
  else if bool_decide (a = "<"%char) then "&lt;"
  else if bool_decide (a = ">"%char) then "&gt;"
  else if bool_decide (a = DQUOTE) then "&quot;"
  else if bool_decide (a = "'"%char) then "&apos;"
  else str a.

(** What the doubling of quotes in [escapeCsvValue] makes of one character. *)
Definition doubled_quote_char (a : ascii) : string :=
  if bool_decide (a = DQUOTE) then str DQUOTE +:+ str DQUOTE else str a.

End Escapes.

(** ** The context of an error position: [analyzeContext] of
    [src/utils/errorParser.ts] *)

Module ErrorContext.
Import Js SearchView.

(** [s.substring(a, b)]: the two indices are put in order and clamped to the
    length. *)
Definition substring (s : string) (a b : nat) : string :=
  substring0 (Nat.max a b - Nat.min a b) (drop_chars (Nat.min a b) s).

Record Context := mkContext {
  before : string;
  after : string;
  char : string
}.

(** [Math.max(0, position - 30)] is the truncated subtraction; [input[position]
    || ""] is the code unit at [position], or the empty string. *)
Definition analyzeContext (input : string) (position : nat) : Context :=
  let start := Nat.max 0 (position - 30) in
  let end_ := Nat.min (String.length input) (position + 30) in
  mkContext (substring input start position)
            (substring input position end_)
            (substring0 1 (drop_chars position input)).

(** [/lit/i] matches somewhere in [s], for a literal [lit] given in lower
    case. *)
Fixpoint occurs_ci (lit s : string) : bool :=
  match ErrorParser.strip_literal_ci lit s with
  | Some _ => true
  | None =>
      match s with
      | EmptyString => false
      | String _ s' => occurs_ci lit s'
      end
  end.

End ErrorContext.

(** ** The order of keys in a sorted copy *)

Module KeyOrder.
Import Js JsOrdered KeySorter.

Section Ordered.
Context {number : Type}.
Variable localeCompare : string -> string -> comparison.

(** The properties of an object as [Object.keys] lists them after the loop of
    [sortObjectKeys]: the array indices first, ascending, then the other keys,
    none placed after a key the comparator puts behind it. *)
Definition ordered_object (es : list (string * json number)) : Prop :=
  exists ip np,
    es = ip ++ np /\
    Forall (fun e => is_index (fst e) = true) ip /\
    StronglySorted index_lt ip /\
    Forall (fun e => is_named (fst e) = true) np /\
    StronglySorted (fun e1 e2 => compare_le localeCompare (fst e1) (fst e2)) np.

(** [P] holds of the properties of every object of the document. *)
Fixpoint every_object (P : list (string * json number) -> Prop) (v : json number) : Prop :=
  match v with
  | JArray vs =>
      (fix all (l : list (json number)) : Prop :=
         match l with
         | [] => True
         | x :: l' => every_object P x /\ all l'
         end) vs
  | JObject es =>
      P es /\
      (fix all (l : list (string * json number)) : Prop :=
         match l with
         | [] => True
         | (_, x) :: l' => every_object P x /\ all l'
         end) es
  | _ => True
  end.
End Ordered.

End KeyOrder.

(** ** Documents whose keys are not names of [Object.prototype] *)

Module PlainKeys.
Import Js JsObject.

Definition plain_name (key : string) : bool :=
  negb (bool_decide (key ∈ Object_prototype_names)).

(** Every key of every object of the document satisfies [P]. *)
Fixpoint all_keys {number} (P : string -> bool) (v : json number) : bool :=
  match v with
  | JArray vs => forallb (all_keys P) vs
  | JObject es => forallb (fun e => P (fst e) && all_keys P (snd e)) es
  | _ => true
  end.

End PlainKeys.

(** ** The theme: [src/hooks/useTheme.ts] *)

Module Theme.

Inductive Theme := light | dark.

Definition theme_name (t : Theme) : string :=
  match t with light => "light" | dark => "dark" end.

Definition STORAGE_KEY : string := "theme".

(** [localStorage]: strings by key. *)
Definition Storage := gmap string string.

(** [getStoredTheme()] in the browser: anything but the text [dark] is
    light. *)
Definition getStoredTheme (localStorage : Storage) : Theme :=
  match localStorage !! STORAGE_KEY with
  | Some stored => if bool_decide (stored = "dark") then dark else light
  | None => light
  end.

(** [setTheme(newTheme)]: the effect on the storage. *)
Definition setTheme (newTheme : Theme) (localStorage : Storage) : Storage :=
  <[STORAGE_KEY := theme_name newTheme]> localStorage.

Definition toggleTheme (localStorage : Storage) : Storage :=
  let current := getStoredTheme localStorage in
  let newTheme := match current with light => dark | dark => light end in
  setTheme newTheme localStorage.

End Theme.

(** ** Schema inference *)

Section SchemaFacts.
Import Js SchemaInference.

(** *** [Set] insertion *)

Lemma elem_of_Set_add `{EqDecision T} (s : list T) (t x : T) :
  x ∈ Set_add s t <-> x ∈ s \/ x = t.
Proof.
  unfold Set_add. destruct (decide (t ∈ s)) as [Hin|Hin].
  - split; [auto|]. intros [?| ->]; auto.
  - rewrite elem_of_app, list_elem_of_singleton. tauto.
Qed.

Lemma NoDup_Set_add `{EqDecision T} (s : list T) (t : T) :
  NoDup s -> NoDup (Set_add s t).
Proof.
  intros Hs. unfold Set_add. destruct (decide (t ∈ s)) as [Hin|Hin]; [done|].
  apply NoDup_app. split_and!; [done| |apply NoDup_singleton].
  intros x Hx ->%list_elem_of_singleton. contradiction.
Qed.

Lemma elem_of_fold_Set_add `{EqDecision T} (l s : list T) (x : T) :
  x ∈ fold_left Set_add l s <-> x ∈ s \/ x ∈ l.
Proof.
  revert s. induction l as [|t l IH]; intros s; simpl.
  - rewrite elem_of_nil. tauto.
  - rewrite IH, elem_of_Set_add, elem_of_cons. tauto.
Qed.

Lemma NoDup_fold_Set_add `{EqDecision T} (l s : list T) :
  NoDup s -> NoDup (fold_left Set_add l s).
Proof.
  revert s. induction l as [|t l IH]; intros s Hs; simpl; [done|].
  apply IH, NoDup_Set_add, Hs.
Qed.

(** *** What a merge leaves at the top of the target *)

Lemma mergeSchemaNodes_types target source :
  types (mergeSchemaNodes target source) =
  fold_left Set_add (types source) (types target).
Proof. destruct source; reflexivity. Qed.

Lemma mergeSchemaNodes_occurrences target source :
  occurrences (mergeSchemaNodes target source) =
  occurrences target + occurrences source.
Proof. destruct source; reflexivity. Qed.

Lemma mergeSchemaNodes_hasInconsistentTypes target source :
  hasInconsistentTypes (mergeSchemaNodes target source) =
  bool_decide (1 < length (filter (fun t => t <> TNull)
                             (types (mergeSchemaNodes target source)))).
Proof. destruct source; reflexivity. Qed.

(** Merging two nodes whose type sets hold each tag once gives the same set of
    tags whichever is the target. *)
Lemma mergeSchemaNodes_types_comm n1 n2 :
  NoDup (types n1) -> NoDup (types n2) ->
  types (mergeSchemaNodes n1 n2) ≡ₚ types (mergeSchemaNodes n2 n1).
Proof.
  intros H1 H2. rewrite !mergeSchemaNodes_types.
  apply NoDup_Permutation; try (apply NoDup_fold_Set_add; assumption).
  intros x. rewrite !elem_of_fold_Set_add. tauto.
Qed.

Lemma mergeSchemaNodes_verdict_comm n1 n2 :
  NoDup (types n1) -> NoDup (types n2) ->
  hasInconsistentTypes (mergeSchemaNodes n1 n2) =
  hasInconsistentTypes (mergeSchemaNodes n2 n1).
Proof.
  intros H1 H2. rewrite !mergeSchemaNodes_hasInconsistentTypes.
  pose proof (mergeSchemaNodes_types_comm n1 n2 H1 H2) as Hp.
  apply (filter_Permutation (fun t => t <> TNull)) in Hp.
  apply Permutation_length in Hp. rewrite Hp. reflexivity.
Qed.

(** *** The node of a value *)

Lemma inferSchemaFromValue_types {number} (v : json number) :
  types (inferSchemaFromValue v) = [getJsonType v].
Proof. destruct v as [| | | |[|]|]; reflexivity. Qed.

Lemma inferSchemaFromValue_consistent {number} (v : json number) :
  hasInconsistentTypes (inferSchemaFromValue v) = false.
Proof. destruct v as [| | | |[|]|]; reflexivity. Qed.

Lemma inferSchemaFromValue_children {number} (v : json number) :
  children (inferSchemaFromValue v) =
  match v with
  | JObject obj =>
      Some (fold_left (fun m kv => Map_set m (fst kv) (snd kv))
              (map (fun kv => (fst kv, inferSchemaFromValue (snd kv))) obj) [])
  | _ => None
  end.
Proof. destruct v as [| | | |[|]|]; reflexivity. Qed.

(** *** Paths *)

Lemma includes_char_app s1 s2 c :
  includes_char (s1 +:+ s2) c = includes_char s1 c || includes_char s2 c.
Proof.
  induction s1 as [|a s1 IH]; simpl; [reflexivity|].
  rewrite IH, orb_assoc. reflexivity.
Qed.

Lemma has_bracket_nonempty p : has_bracket p -> p <> "".
Proof. intros H ->. discriminate H. Qed.

Lemma has_bracket_itemPathOf p : has_bracket (itemPathOf p).
Proof.
  unfold has_bracket. destruct p as [|a p]; [reflexivity|].
  unfold itemPathOf. rewrite includes_char_app. apply orb_true_r.
Qed.

Lemma has_bracket_childPathOf p key :
  has_bracket p -> has_bracket (childPathOf p key).
Proof.
  intros H. unfold has_bracket in *. destruct p as [|a p]; [discriminate|].
  unfold childPathOf. rewrite includes_char_app, H. reflexivity.
Qed.

Lemma has_bracket_path_or_root p : has_bracket p -> has_bracket (path_or_root p).
Proof. destruct p; [discriminate|done]. Qed.

(** Below a path that went through an item schema, every reported path went
    through it as well. *)
Lemma collectInconsistentPaths_below_item node :
  forall p paths,
    has_bracket p -> Forall has_bracket paths ->
    Forall has_bracket (collectInconsistentPaths node p paths).
Proof.
  induction node as [ts cs it occ inc IHcs IHit] using SchemaNode_ind.
  intros p paths Hp Hpaths. simpl.
  set (paths1 := if inc then paths ++ [path_or_root p] else paths).
  assert (H1 : Forall has_bracket paths1).
  { subst paths1. destruct inc; [|done].
    apply Forall_app. split; [done|].
    apply Forall_singleton, has_bracket_path_or_root, Hp. }
  clearbody paths1.
  match goal with |- Forall _ (match it with Some _ => _ | None => ?q end) =>
    assert (H2 : Forall has_bracket q) end.
  { destruct cs as [cs|]; [|done].
    revert paths1 H1. induction cs as [|[key child] cs IH]; intros paths1 H1; [done|].
    apply Forall_cons in IHcs as [Hc Hcs]. apply IH; [done|].
    apply Hc; [apply has_bracket_childPathOf, Hp|done]. }
  destruct it as [it|]; [|done].
  apply IHit; [apply has_bracket_itemPathOf|done].
Qed.

Lemma spine_consistent_unfold n :
  spine_consistent n <->
  hasInconsistentTypes n = false /\
  match children n with
  | Some cs => Forall (fun e => spine_consistent (snd e)) cs
  | None => True
  end.
Proof.
  destruct n as [ts cs it occ inc]. simpl.
  destruct cs as [cs|]; [|tauto].
  induction cs as [|[k c] cs IH]; simpl.
  - rewrite Forall_nil. tauto.
  - rewrite Forall_cons. simpl. tauto.
Qed.

Lemma Forall_Map_set {V} (Q : V -> Prop) (m : list (string * V)) key v :
  Forall (fun e => Q (snd e)) m -> Q v ->
  Forall (fun e => Q (snd e)) (Map_set m key v).
Proof.
  intros Hm Hv. induction m as [|[k v'] m IH]; simpl.
  - apply Forall_singleton. exact Hv.
  - apply Forall_cons in Hm as [Hk Hm].
    destruct (decide (k = key)); apply Forall_cons; auto.
Qed.

Lemma inferSchemaFromValue_spine {number} (v : json number) :
  spine_consistent (inferSchemaFromValue v).
Proof.
  induction v as [| | | |vs _|es IH] using json_ind;
    apply spine_consistent_unfold;
    rewrite inferSchemaFromValue_consistent, inferSchemaFromValue_children;
    try (split; [reflexivity|exact I]).
  split; [reflexivity|].
  assert (Hgen : forall acc,
    Forall (fun e : string * SchemaNode => spine_consistent (snd e)) acc ->
    Forall (fun e : string * SchemaNode => spine_consistent (snd e))
      (fold_left (fun m kv => Map_set m (fst kv) (snd kv))
         (map (fun kv => (fst kv, inferSchemaFromValue (snd kv))) es) acc)).
  { induction es as [|[k x] es IHes]; intros acc Hacc; simpl; [done|].
    apply Forall_cons in IH as [Hx Hes].
    apply IHes; [done|]. apply Forall_Map_set; done. }
  apply Hgen. constructor.
Qed.

Lemma collectInconsistentPaths_spine node :
  spine_consistent node ->
  forall p paths,
    Forall has_bracket paths ->
    Forall has_bracket (collectInconsistentPaths node p paths).
Proof.
  induction node as [ts cs it occ inc IHcs IHit] using SchemaNode_ind.
  intros [Hinc Hspine]%spine_consistent_unfold p paths Hpaths.
  simpl in Hinc, Hspine. subst inc. simpl.
  match goal with |- Forall _ (match it with Some _ => _ | None => ?q end) =>
    assert (H2 : Forall has_bracket q) end.
  { destruct cs as [cs|]; [|done].
    revert paths Hpaths. induction cs as [|[key child] cs IH]; intros paths Hpaths; [done|].
    apply Forall_cons in IHcs as [Hc Hcs]. apply Forall_cons in Hspine as [Hs Hss].
    apply IH; [done|done|]. apply Hc; done. }
  destruct it as [it|]; [|done].
  apply collectInconsistentPaths_below_item; [apply has_bracket_itemPathOf|done].
Qed.

End SchemaFacts.

Import Js SchemaInference.

(** C1.  Inconsistency detection on the three documents of the specification:
    [[{"x":1},{"x":"s"}]] reports the path [[].x];
    [[{"x":1},{"x":2}]] reports nothing; [[{"x":1},{"x":null}]] reports
    nothing either: the merged node of [x] holds the tags number and null and
    is not flagged, null not counting as a second type. *)
Theorem inferSchema_inconsistency_examples :
  "[].x" ∈ inconsistentPaths (inferSchema
     (JArray [JObject [("x", JNumber 1%Z)]; JObject [("x", JString "s")]])) /\
  inconsistentPaths (inferSchema
     (JArray [JObject [("x", JNumber 1%Z)]; JObject [("x", JNumber 2%Z)]])) = [] /\
  inconsistentPaths (inferSchema
     (JArray [JObject [("x", JNumber 1%Z)]; JObject [("x", @JNull Z)]])) = [] /\
  match items (root (inferSchema
     (JArray [JObject [("x", JNumber 1%Z)]; JObject [("x", @JNull Z)]]))) with
  | Some item =>
      children item = Some [("x", mkSchemaNode [TNumber; TNull] None None 2 false)]
  | None => False
  end.
Proof.
  split_and!.
  - vm_compute. apply list_elem_of_here.
  - reflexivity.
  - reflexivity.
  - reflexivity.
Qed.

(** C2.  Merge commutativity at the merged node: for all values [a] and [b],
    merging the node inferred for [a] with the node inferred for [b] gives,
    in either order, the same set of type tags and the same
    [hasInconsistentTypes]. *)
Theorem mergeSchemaNodes_inferred_comm {number} (a b : json number) :
  types (mergeSchemaNodes (inferSchemaFromValue a) (inferSchemaFromValue b)) ≡ₚ
  types (mergeSchemaNodes (inferSchemaFromValue b) (inferSchemaFromValue a)) /\
  hasInconsistentTypes (mergeSchemaNodes (inferSchemaFromValue a) (inferSchemaFromValue b)) =
  hasInconsistentTypes (mergeSchemaNodes (inferSchemaFromValue b) (inferSchemaFromValue a)).
Proof.
  assert (Hnd : forall v : json number, NoDup (types (inferSchemaFromValue v))).
  { intros v. rewrite inferSchemaFromValue_types. apply NoDup_singleton. }
  split.
  - apply mergeSchemaNodes_types_comm; apply Hnd.
  - apply mergeSchemaNodes_verdict_comm; apply Hnd.
Qed.

(** C10.  The root node that [inferSchema] returns holds exactly one type tag
    and is not flagged, and the literal path [(root)] is never reported. *)
Theorem inferSchema_root_consistent {number} (data : json number) :
  length (types (root (inferSchema data))) = 1 /\
  hasInconsistentTypes (root (inferSchema data)) = false /\
  "(root)" ∉ inconsistentPaths (inferSchema data).
Proof.
  unfold inferSchema. simpl. split_and!.
  - rewrite inferSchemaFromValue_types. reflexivity.
  - apply inferSchemaFromValue_consistent.
  - intros Hin.
    pose proof (collectInconsistentPaths_spine _ (inferSchemaFromValue_spine data) "" []
                  (@List.Forall_nil _ _)) as Hall.
    rewrite Forall_forall in Hall. apply Hall in Hin. discriminate Hin.
Qed.

(** ** Strings *)

Section StringFacts.
Import Js.

Lemma app_nil_l_s (a : string) : "" +:+ a = a.
Proof. reflexivity. Qed.

Lemma app_cons_s (c : ascii) (a b : string) : String c a +:+ b = String c (a +:+ b).
Proof. reflexivity. Qed.

Lemma app_assoc_s (a b c : string) : (a +:+ b) +:+ c = a +:+ (b +:+ c).
Proof.
  induction a as [|x a IH]; [reflexivity|].
  rewrite !app_cons_s. f_equal. exact IH.
Qed.

Lemma app_nil_r_s (a : string) : a +:+ "" = a.
Proof.
  induction a as [|x a IH]; [reflexivity|].
  rewrite app_cons_s. f_equal. exact IH.
Qed.

Lemma app_eq_self (a t : string) : a +:+ t = a -> t = "".
Proof.
  intros Heq. apply (String.app_inj a). rewrite app_nil_r_s. exact Heq.
Qed.

Lemma app_nonempty_r (a b : string) : b <> "" -> a +:+ b <> "".
Proof. destruct a; [trivial|discriminate]. Qed.

(** A run of characters of a class, followed by something that starts outside
    the class, is split in one way only. *)
Lemma app_split_unique (P : ascii -> bool) (a b x y : string) :
  all_chars P a = true -> all_chars P b = true ->
  starts_outside P x -> starts_outside P y ->
  a +:+ x = b +:+ y -> a = b /\ x = y.
Proof.
  revert b. induction a as [|c a IH]; intros [|d b] Ha Hb Hx Hy Heq.
  - split; [reflexivity|exact Heq].
  - rewrite app_nil_l_s, app_cons_s in Heq. subst x. cbn in Hx, Hb.
    apply andb_true_iff in Hb as [Hd _]. congruence.
  - rewrite app_nil_l_s, app_cons_s in Heq. subst y. cbn in Hy, Ha.
    apply andb_true_iff in Ha as [Hc _]. congruence.
  - rewrite !app_cons_s in Heq. injection Heq as -> Heq.
    cbn in Ha, Hb. apply andb_true_iff in Ha as [_ Ha].
    apply andb_true_iff in Hb as [_ Hb].
    destruct (IH b Ha Hb Hx Hy Heq) as [-> ->]. split; reflexivity.
Qed.

Lemma string_of_uint_digits d : all_chars is_digit (NilEmpty.string_of_uint d) = true.
Proof. induction d; simpl; [reflexivity|assumption..]. Qed.

Lemma nat_to_string_digits n : all_chars is_digit (nat_to_string n) = true.
Proof. apply string_of_uint_digits. Qed.

Lemma nat_to_string_inj i j : nat_to_string i = nat_to_string j -> i = j.
Proof.
  unfold nat_to_string. intros Heq.
  apply (f_equal NilEmpty.uint_of_string) in Heq.
  rewrite !NilEmpty.usu in Heq. injection Heq as Heq.
  apply (f_equal Nat.of_uint) in Heq.
  rewrite !DecimalNat.Unsigned.of_to in Heq. exact Heq.
Qed.

Lemma includes_empty s : includes s "" = true.
Proof. destruct s; reflexivity. Qed.

End StringFacts.

(** ** Search *)

Section SearchFacts.
Import Js JsonUtils JsonFormatter.
Context {number : Type} `{NumberOps number}.
Variable searchQuery : string.
Variable caseSensitive : bool.

#[local] Abbreviation search := (JsonUtils.search searchQuery caseSensitive).
#[local] Abbreviation search_items := (JsonUtils.search_items searchQuery caseSensitive).
#[local] Abbreviation search_entries := (JsonUtils.search_entries searchQuery caseSensitive).
#[local] Abbreviation acc_indep := (JsonUtils.acc_indep searchQuery caseSensitive).
#[local] Abbreviation good_everywhere := (JsonUtils.good_everywhere searchQuery caseSensitive).

Lemma search_JArray vs p acc :
  search (JArray vs) p acc = search_items p vs 0 acc.
Proof. reflexivity. Qed.

Lemma search_JObject es p acc :
  search (JObject es) p acc = search_entries p es acc.
Proof. reflexivity. Qed.

Lemma push_if_acc b m acc : push_if b m acc = acc ++ push_if b m [].
Proof. destruct b; simpl; [reflexivity|]. rewrite app_nil_r. reflexivity. Qed.

Lemma search_items_acc p vs :
  Forall acc_indep vs ->
  forall idx acc, search_items p vs idx acc = acc ++ search_items p vs idx [].
Proof.
  induction 1 as [|x vs Hx _ IH]; intros idx acc; simpl.
  - rewrite app_nil_r. reflexivity.
  - rewrite IH, (IH _ (search x _ [])), (Hx _ acc), app_assoc. reflexivity.
Qed.

Lemma search_entries_acc p es :
  Forall (fun e => acc_indep (snd e)) es ->
  forall acc, search_entries p es acc = acc ++ search_entries p es [].
Proof.
  induction 1 as [|[k x] es Hx _ IH]; intros acc; simpl.
  - rewrite app_nil_r. reflexivity.
  - simpl in Hx. rewrite IH, (IH (search x _ _)), (Hx _ (push_if _ _ acc)), (Hx _ (push_if _ _ [])).
    rewrite (push_if_acc _ _ acc), !app_assoc. reflexivity.
Qed.

Lemma search_acc v : acc_indep v.
Proof.
  induction v as [|b|n|s|vs IH|es IH] using json_ind; intros p acc;
    try apply push_if_acc.
  - rewrite !search_JArray. apply search_items_acc, IH.
  - rewrite !search_JObject. apply search_entries_acc, IH.
Qed.

Lemma search_items_cons p x vs idx :
  search_items p (x :: vs) idx [] =
  search x (indexPathOf p idx) [] ++ search_items p vs (S idx) [].
Proof.
  simpl. apply search_items_acc. apply Forall_forall. intros ? _. apply search_acc.
Qed.

Lemma search_entries_cons p k x es :
  search_entries p ((k, x) :: es) [] =
  push_if (includes (if caseSensitive then k else toLowerCase k) searchQuery)
    (mkSearchMatch (keyPathOf p k) Key k) [] ++
  search x (keyPathOf p k) [] ++ search_entries p es [].
Proof.
  simpl. rewrite search_entries_acc by (apply Forall_forall; intros ? _; apply search_acc).
  rewrite search_acc, app_assoc. reflexivity.
Qed.

(** *** One match per place, for simple keys *)

Lemma under_here p text : under p (mkSearchMatch p Value text).
Proof. exists "". rewrite app_nil_r_s. simpl. auto. Qed.

Lemma good_push_if_Value b p text : good p (push_if b (mkSearchMatch p Value text) []).
Proof.
  destruct b; simpl; split.
  - apply NoDup_singleton.
  - apply Forall_singleton, under_here.
  - apply NoDup_nil_2.
  - apply List.Forall_nil.
Qed.

Lemma indexPathOf_app q i t :
  indexPathOf q i +:+ t = q +:+ "[" +:+ nat_to_string i +:+ "]" +:+ t.
Proof. unfold indexPathOf. rewrite !app_assoc_s. reflexivity. Qed.

Lemma index_paths_differ q i j t t' :
  i <> j ->
  q +:+ "[" +:+ nat_to_string i +:+ "]" +:+ t <>
  q +:+ "[" +:+ nat_to_string j +:+ "]" +:+ t'.
Proof.
  intros Hij Heq. apply (inj (String.app q)), (inj (String.app "[")) in Heq.
  apply (app_split_unique is_digit) in Heq as [Heq _];
    try apply nat_to_string_digits; try reflexivity.
  apply Hij, nat_to_string_inj, Heq.
Qed.

Lemma search_items_good q vs :
  Forall good_everywhere vs ->
  forall idx,
    NoDup (site <$> search_items q vs idx []) /\
    Forall (fun m => exists i t, idx <= i /\
              path m = q +:+ "[" +:+ nat_to_string i +:+ "]" +:+ t)
      (search_items q vs idx []).
Proof.
  induction 1 as [|x vs Hx _ IH]; intros idx.
  - split; [apply NoDup_nil_2|constructor].
  - rewrite search_items_cons.
    destruct (IH (S idx)) as [IHnd IHall].
    destruct (Hx (indexPathOf q idx)) as [Hnd Hunder].
    { apply app_nonempty_r. discriminate. }
    assert (Hhere : Forall (fun m => exists i t, idx <= i /\
              path m = q +:+ "[" +:+ nat_to_string i +:+ "]" +:+ t)
              (search x (indexPathOf q idx) [])).
    { eapply Forall_impl; [exact Hunder|]. intros m (t & Hp & _).
      exists idx, t. split; [lia|]. rewrite Hp. apply indexPathOf_app. }
    split.
    + rewrite fmap_app. apply NoDup_app. split_and!; [done| |done].
      intros s (m & -> & Hm)%list_elem_of_fmap (m' & Hs & Hm')%list_elem_of_fmap.
      rewrite Forall_forall in Hunder, IHall.
      destruct (Hunder m Hm) as (t & Hp & _).
      destruct (IHall m' Hm') as (i & t' & Hi & Hp').
      unfold site in Hs. injection Hs as Hpath _.
      rewrite Hp, Hp', indexPathOf_app in Hpath.
      eapply index_paths_differ; [|exact Hpath]. lia.
    + apply Forall_app. split; [exact Hhere|].
      eapply Forall_impl; [exact IHall|]. intros m (i & t & Hi & Hp).
      exists i, t. split; [lia|exact Hp].
Qed.

Lemma simple_key_nonempty k : simple_key k = true -> k <> "".
Proof.
  unfold simple_key. intros [Hk _]%andb_true_iff.
  apply negb_true_iff, bool_decide_eq_false in Hk. exact Hk.
Qed.

Lemma simple_key_chars k : simple_key k = true -> all_chars simple_char k = true.
Proof. unfold simple_key. intros [_ Hk]%andb_true_iff. exact Hk. Qed.

Lemma key_paths_differ q k k' t t' :
  simple_key k = true -> simple_key k' = true ->
  starts_outside simple_char t -> starts_outside simple_char t' ->
  k <> k' -> q +:+ k +:+ t <> q +:+ k' +:+ t'.
Proof.
  intros Hk Hk' Ht Ht' Hne Heq. apply (inj (String.app q)) in Heq.
  apply (app_split_unique simple_char) in Heq as [Heq _];
    auto using simple_key_chars.
Qed.

Lemma search_entries_good p q es :
  (forall k, keyPathOf p k = q +:+ k) ->
  NoDup (keys es) ->
  Forall (fun e => simple_key (fst e) = true) es ->
  Forall (fun e => good_everywhere (snd e)) es ->
  NoDup (site <$> search_entries p es []) /\
  Forall (fun m => exists k t, k ∈ keys es /\ path m = q +:+ k +:+ t /\
                     starts_outside simple_char t)
    (search_entries p es []).
Proof.
  intros Hq Hnd Hsimple Hgood.
  induction es as [|[k x] es IH].
  - split; [apply NoDup_nil_2|constructor].
  - rewrite search_entries_cons.
    apply NoDup_cons in Hnd as [Hk Hnd].
    apply Forall_cons in Hsimple as [Hks Hsimple].
    apply Forall_cons in Hgood as [Hx Hgood].
    simpl in Hks, Hx.
    destruct (IH Hnd Hsimple Hgood) as [IHnd IHall]. clear IH.
    rewrite Hq.
    destruct (Hx (q +:+ k)) as [Hxnd Hxunder].
    { apply app_nonempty_r, simple_key_nonempty, Hks. }
    set (A := push_if _ _ []).
    assert (HA : forall m, m ∈ A -> path m = q +:+ k /\ type m = Key).
    { subst A. intros m. destruct (includes _ _); simpl.
      - intros ->%list_elem_of_singleton. split; reflexivity.
      - intros ?%elem_of_nil. done. }
    assert (HAnd : NoDup (site <$> A)).
    { subst A. destruct (includes _ _); simpl;
        [apply NoDup_singleton|apply NoDup_nil_2]. }
    assert (Hhere : Forall (fun m => exists t,
               path m = q +:+ k +:+ t /\ starts_outside simple_char t)
               (A ++ search x (q +:+ k) [])).
    { apply Forall_app. split.
      - apply Forall_forall. intros m [Hp _]%HA. exists "".
        split; [|exact I]. rewrite app_nil_r_s. exact Hp.
      - eapply Forall_impl; [exact Hxunder|]. intros m (t & Hp & Ht & _).
        exists t. split; [|exact Ht]. rewrite Hp. apply app_assoc_s. }
    rewrite app_assoc. split.
    + rewrite fmap_app. apply NoDup_app. split_and!; [| |done].
      * rewrite fmap_app. apply NoDup_app. split_and!; [done| |done].
        intros s (m & -> & Hm)%list_elem_of_fmap (m' & Hs & Hm')%list_elem_of_fmap.
        destruct (HA m Hm) as [Hp Hty].
        rewrite Forall_forall in Hxunder.
        destruct (Hxunder m' Hm') as (t & Hp' & _ & Hval).
        unfold site in Hs. injection Hs as Hpath Htype.
        rewrite Hp, Hp' in Hpath. symmetry in Hpath.
        apply app_eq_self in Hpath. rewrite Hval in Htype by exact Hpath.
        congruence.
      * intros s (m & -> & Hm)%list_elem_of_fmap (m' & Hs & Hm')%list_elem_of_fmap.
        rewrite Forall_forall in Hhere, IHall.
        destruct (Hhere m Hm) as (t & Hp & Ht).
        destruct (IHall m' Hm') as (k' & t' & Hk' & Hp' & Ht').
        unfold site in Hs. injection Hs as Hpath _.
        rewrite Hp, Hp' in Hpath.
        eapply key_paths_differ; [exact Hks| |exact Ht|exact Ht'| |exact Hpath].
        -- rewrite Forall_forall in Hsimple.
           apply list_elem_of_fmap in Hk' as (e & -> & He). apply Hsimple, He.
        -- intros ->. apply Hk, Hk'.
    + apply Forall_app. split.
      * eapply Forall_impl; [exact Hhere|]. intros m (t & Hp & Ht).
        exists k, t. split_and!; [apply list_elem_of_here|exact Hp|exact Ht].
      * eapply Forall_impl; [exact IHall|]. intros m (k' & t & Hk' & Hp & Ht).
        exists k', t. split_and!; [apply list_elem_of_further, Hk'|exact Hp|exact Ht].
Qed.

Lemma forallb_Forall_true {A} (f : A -> bool) (l : list A) :
  forallb f l = true <-> Forall (fun x => f x = true) l.
Proof.
  induction l as [|x l IH]; simpl.
  - split; [constructor|reflexivity].
  - rewrite andb_true_iff, Forall_cons, IH. reflexivity.
Qed.

Lemma keyPathOf_nonempty p k : p <> "" -> keyPathOf p k = (p +:+ ".") +:+ k.
Proof. destruct p; [done|]. intros _. simpl. rewrite app_assoc_s. reflexivity. Qed.

Lemma search_good v :
  simple_keys v = true -> unique_keys v = true -> good_everywhere v.
Proof.
  induction v as [|b|n|s|vs IH|es IH] using json_ind; intros Hs Hu p Hp;
    try apply good_push_if_Value.
  - rewrite search_JArray. simpl in Hs, Hu.
    apply forallb_Forall_true in Hs, Hu.
    assert (Hall : Forall good_everywhere vs).
    { rewrite Forall_forall in IH, Hs, Hu. apply Forall_forall. auto. }
    destruct (search_items_good p vs Hall 0) as [Hnd Hpaths].
    split; [exact Hnd|].
    eapply Forall_impl; [exact Hpaths|]. intros m (i & t & _ & Hm).
    exists ("[" +:+ nat_to_string i +:+ "]" +:+ t).
    split_and!; [exact Hm|reflexivity|discriminate].
  - rewrite search_JObject. simpl in Hs, Hu.
    apply andb_true_iff in Hu as [Hnd Hu].
    apply bool_decide_eq_true in Hnd.
    apply forallb_Forall_true in Hs, Hu.
    assert (Hsimple : Forall (fun e : string * json number => simple_key (fst e) = true) es).
    { eapply Forall_impl; [exact Hs|]. intros e [? _]%andb_true_iff. done. }
    assert (Hall : Forall (fun e : string * json number => good_everywhere (snd e)) es).
    { rewrite Forall_forall in IH, Hs, Hu. apply Forall_forall. intros e He.
      apply IH; [exact He| |auto]. specialize (Hs e He).
      apply andb_true_iff in Hs as [_ ?]. done. }
    destruct (search_entries_good p (p +:+ ".") es
                (fun k => keyPathOf_nonempty p k Hp) Hnd Hsimple Hall) as [Hnd' Hpaths].
    split; [exact Hnd'|].
    eapply Forall_impl; [exact Hpaths|]. intros m (k & t & _ & Hm & Ht).
    exists ("." +:+ k +:+ t).
    split_and!; [|reflexivity|discriminate].
    rewrite Hm, !app_assoc_s. reflexivity.
Qed.

(** From the root: the same, the first key step being written without the
    dot. *)
Lemma search_root_sites v :
  simple_keys v = true -> unique_keys v = true ->
  NoDup (site <$> search v "" []).
Proof.
  intros Hs Hu. destruct v as [|b|n|s|vs|es];
    try (apply (good_push_if_Value _ "")).
  - rewrite search_JArray. simpl in Hs, Hu.
    apply forallb_Forall_true in Hs, Hu.
    apply (search_items_good "" vs).
    rewrite Forall_forall in Hs, Hu. apply Forall_forall.
    intros x Hx. apply search_good; auto.
  - rewrite search_JObject. simpl in Hs, Hu.
    apply andb_true_iff in Hu as [Hnd Hu].
    apply bool_decide_eq_true in Hnd.
    apply forallb_Forall_true in Hs, Hu.
    apply (search_entries_good "" "" es); [reflexivity|exact Hnd| |].
    + eapply Forall_impl; [exact Hs|]. intros e [? _]%andb_true_iff. done.
    + rewrite Forall_forall in Hs, Hu. apply Forall_forall. intros e He.
      specialize (Hs e He). apply andb_true_iff in Hs as [_ ?].
      apply search_good; auto.
Qed.

End SearchFacts.

Section EmptyQuery.
Import Js JsonUtils JsonFormatter.
Context {number : Type} `{NumberOps number}.
Variable caseSensitive : bool.

Lemma search_empty_query_length (v : json number) :
  forall p, length (search "" caseSensitive v p []) = visited v.
Proof.
  induction v as [|b|n|s|vs IH|es IH] using json_ind; intros p;
    try (simpl; rewrite ?includes_empty; reflexivity).
  - rewrite search_JArray. simpl. generalize 0.
    induction IH as [|x vs Hx _ IHvs]; intros idx; [reflexivity|].
    rewrite search_items_cons, length_app, Hx, IHvs. reflexivity.
  - rewrite search_JObject. simpl.
    induction IH as [|[k x] es Hx _ IHes]; [reflexivity|].
    rewrite search_entries_cons, includes_empty, !length_app, Hx, IHes. reflexivity.
Qed.

Lemma search_empty_query_places (v : json number) :
  forall p, search "" caseSensitive v p [] = places v p.
Proof.
  induction v as [|b|n|s|vs IH|es IH] using json_ind; intros p;
    try (cbn [search places]; rewrite includes_empty; reflexivity).
  - rewrite search_JArray. cbn [places]. generalize 0.
    induction IH as [|x vs Hx _ IHvs]; intros idx; [reflexivity|].
    rewrite search_items_cons, Hx, IHvs. reflexivity.
  - rewrite search_JObject. cbn [places].
    induction IH as [|[k x] es Hx _ IHes]; [reflexivity|].
    rewrite search_entries_cons, includes_empty. simpl in Hx.
    rewrite Hx, IHes. reflexivity.
Qed.

End EmptyQuery.

Lemma filter_fmap_absent {A B} `{EqDecision B} (f : A -> B) (l : list A) (b : B) :
  b ∉ f <$> l -> filter (fun x => f x = b) l = [].
Proof.
  induction l as [|y l IH]; intros Hb; [reflexivity|].
  rewrite fmap_cons, not_elem_of_cons in Hb. destruct Hb as [Hy Hb].
  rewrite filter_cons. destruct (decide (f y = b)); [congruence|]. apply IH, Hb.
Qed.

Lemma NoDup_fmap_count {A B} `{EqDecision B} (f : A -> B) (l : list A) (b : B) :
  NoDup (f <$> l) -> length (filter (fun x => f x = b) l) <= 1.
Proof.
  induction l as [|x l IH]; intros Hnd; simpl; [lia|].
  rewrite fmap_cons in Hnd. apply NoDup_cons in Hnd as [Hx Hnd].
  rewrite filter_cons. destruct (decide (f x = b)) as [Hfx|Hfx]; [|auto].
  subst b. rewrite filter_fmap_absent by exact Hx. simpl. lia.
Qed.

Import Js JsonUtils JsonFormatter.

(** C3 (as the code has it).  With the empty query [searchJson] reports every
    place it visits: the result is the list of the places of the document,
    a Value match for each leaf, with its path and its text, and a Key match
    for each key of each object, with its path and the key, in document
    order, so one match for each leaf and one for each key.  The empty result
    for an empty query is the caller's: the search hook returns no match,
    without calling [searchJson], when the query is empty. *)
Theorem empty_query_search {number} `{NumberOps number} :
  (forall (v : json number) caseSensitive,
     searchJson v "" caseSensitive = places v "" /\
     length (searchJson v "" caseSensitive) = visited v) /\
  (forall result : option (json number), searchMatches result "" = []).
Proof.
  split.
  - intros v cs. unfold searchJson.
    replace (if cs then "" else toLowerCase "") with "" by (destruct cs; reflexivity).
    split; [apply search_empty_query_places|apply search_empty_query_length].
  - intros [v|]; reflexivity.
Qed.

(** C3, the claim as stated, fails: on the document [null] the empty query
    yields one match, the value at the root. *)
Lemma searchJson_empty_query_null :
  searchJson (@JNull Z) "" false = [mkSearchMatch "" Value "null"] /\
  ~ (forall (v : json Z) caseSensitive, searchJson v "" caseSensitive = []).
Proof.
  split; [reflexivity|]. intros Hall. specialize (Hall JNull false). discriminate Hall.
Qed.

(** C7 (as the code has it).  When no object of the document has a key twice
    and every key is non-empty and free of [.] and [[], the result of
    [searchJson] has at most one Key match and at most one Value match at any
    path. *)
Theorem searchJson_one_match_per_site {number} `{NumberOps number}
    (data : json number) (query : string) (caseSensitive : bool) :
  simple_keys data = true -> unique_keys data = true ->
  forall p, matches_at p Key (searchJson data query caseSensitive) <= 1 /\
            matches_at p Value (searchJson data query caseSensitive) <= 1.
Proof.
  intros Hs Hu p. unfold matches_at, searchJson.
  split; apply NoDup_fmap_count, search_root_sites; assumption.
Qed.

(** C7 at the document [{"Name":"Bob","tags":["a","b"]}] and the query [b]:
    its keys are simple and unique, and the path [tags[1]] has at most one
    match of each kind. *)
Lemma searchJson_one_match_per_site_witness :
  let data : json Z :=
    JObject [("Name", JString "Bob"); ("tags", JArray [JString "a"; JString "b"])] in
  simple_keys data = true /\ unique_keys data = true /\
  matches_at "tags[1]" Key (searchJson data "b" false) <= 1 /\
  matches_at "tags[1]" Value (searchJson data "b" false) <= 1.
Proof.
  intros data. split; [reflexivity|]. split; [reflexivity|].
  apply (searchJson_one_match_per_site data "b" false); reflexivity.
Defined.

(** C7, the claim as stated, fails: the key [a.b] and the key [b] inside [a]
    have the same path, and so have their values. *)
Lemma searchJson_dotted_key_two_matches :
  let data : json Z :=
    JObject [("a.b", JString "x"); ("a", JObject [("b", JString "x")])] in
  unique_keys data = true /\
  matches_at "a.b" Value (searchJson data "x" false) = 2 /\
  ~ (matches_at "a.b" Value (searchJson data "x" false) <= 1).
Proof.
  intros data. split; [reflexivity|]. split; [reflexivity|].
  vm_compute. lia.
Qed.

(** ** Error location *)

Section LocationFacts.
Import Js ErrorParser.

Lemma length_substring0 n s :
  String.length (substring0 n s) = min n (String.length s).
Proof.
  revert s. induction n as [|n IH]; intros [|c s]; simpl; try reflexivity.
  rewrite IH. reflexivity.
Qed.

Lemma length_app_s (a b : string) :
  String.length (a +:+ b) = String.length a + String.length b.
Proof. induction a as [|c a IH]; simpl; [reflexivity|]. f_equal. exact IH. Qed.

Lemma length_split_go sep cur s :
  length (split_go sep cur s) = 1 + count_char sep s.
Proof.
  revert cur. induction s as [|c s IH]; intros cur; simpl; [reflexivity|].
  destruct (bool_decide (c = sep)); simpl; rewrite IH; reflexivity.
Qed.

Lemma split_go_nonempty sep cur s : split_go sep cur s <> [].
Proof.
  intros Heq. apply (f_equal length) in Heq.
  rewrite length_split_go in Heq. discriminate Heq.
Qed.

(** The last piece is as long as the distance from the last separator; [cur]
    holds the characters read since the separator at index [acc]. *)
Lemma last_split_go sep s : forall cur i acc,
  Z.of_nat (String.length cur) = (i - acc - 1)%Z ->
  Z.of_nat (String.length (List.last (split_go sep cur s) "")) =
  (i + Z.of_nat (String.length s) - lastIndexOf_from sep s i acc - 1)%Z.
Proof.
  induction s as [|c s IH]; intros cur i acc Hcur.
  - simpl. lia.
  - cbn [split_go lastIndexOf_from String.length].
    destruct (bool_decide (c = sep)).
    + change (List.last (cur :: split_go sep "" s) "")
        with (match split_go sep "" s with
              | [] => cur
              | _ :: _ => List.last (split_go sep "" s) ""
              end).
      pose proof (split_go_nonempty sep "" s) as Hne.
      destruct (split_go sep "" s) eqn:Hsplit; [done|].
      rewrite <- Hsplit. rewrite (IH "" (i + 1)%Z i) by (simpl; lia). lia.
    + rewrite (IH (cur +:+ str c) (i + 1)%Z acc).
      * lia.
      * rewrite length_app_s. simpl. lia.
Qed.

Lemma calculateLineAndColumn_spec input p :
  let before := substring0 p input in
  fst (calculateLineAndColumn input p) = 1 + count_char LF before /\
  Z.of_nat (snd (calculateLineAndColumn input p)) =
  (Z.of_nat (min p (String.length input)) - lastIndexOf LF before)%Z.
Proof.
  intros before. unfold calculateLineAndColumn. fold before. simpl. split.
  - apply length_split_go.
  - unfold split, lastIndexOf.
    rewrite Nat2Z.inj_add, (last_split_go LF before "" 0 (-1)) by reflexivity.
    subst before. rewrite length_substring0. lia.
Qed.

End LocationFacts.

Import Js ErrorParser.

(** C8 (as the code has it).  When the diagnostic holds a position [p], the
    error carries it, its line is 1 plus the number of line feeds in
    [input[0:p]], and its column is [min p (length input)] minus the index of
    the last line feed of [input[0:p]] (-1 when there is none): [p] minus
    that index whenever [p] is within the input.  When the diagnostic holds
    no position, position, line and column are unset. *)
Theorem parseJsonError_location describe input errorMessage :
  let e := parseJsonError describe input errorMessage in
  match extractPosition input errorMessage with
  | Some p =>
      let before := substring0 p input in
      position e = Some p /\
      line e = Some (1 + count_char LF before) /\
      exists col, column e = Some col /\
        Z.of_nat col =
        (Z.of_nat (min p (String.length input)) - lastIndexOf LF before)%Z
  | None => position e = None /\ line e = None /\ column e = None
  end.
Proof.
  unfold parseJsonError.
  destruct (describe input errorMessage (extractPosition input errorMessage)) as [msg hnt].
  destruct (extractPosition input errorMessage) as [p|]; simpl.
  - destruct (calculateLineAndColumn_spec input p) as [Hl Hc].
    split_and!; [reflexivity|f_equal; exact Hl|].
    eexists. split; [reflexivity|exact Hc].
  - split_and!; reflexivity.
Qed.

(** C8, the claim as stated, fails when the position read from the diagnostic
    lies beyond the input: for the input [position 999x] and the diagnostic
    that quotes it, the position is 999, the column is 14 and not
    [999 - (-1)]. *)
Lemma parseJsonError_position_beyond_input :
  let input := "position 999x" in
  let errorMessage :=
    "Unexpected token 'p', " +:+ str DQUOTE +:+ input +:+ str DQUOTE +:+
    " is not valid JSON" in
  let e := parseJsonError (fun _ _ _ => ("Invalid JSON syntax", "")) input errorMessage in
  position e = Some 999 /\
  column e = Some 14 /\
  lastIndexOf LF (substring0 999 input) = (-1)%Z /\
  Z.of_nat 14 <> (Z.of_nat 999 - lastIndexOf LF (substring0 999 input))%Z.
Proof. vm_compute. split_and!; try reflexivity. discriminate. Qed.

(** ** Converters *)

Section TagFacts.
Import Js JsObject ExportFormats.


Lemma tag_char_underscore : tag_char "_" = true /\ tag_start_char "_" = true.
Proof. split; reflexivity. Qed.








End TagFacts.

Import Js JsObject ExportFormats.




(** The error result is for the documents that are neither an array nor an
    object, and for them only: an array or an object gets a success, or the
    call does not return. *)
Lemma jsonToCsv_shape {number} `{NumberOps number} (data : json number) :
  if is_object_or_array data
  then jsonToCsv data = ThrowsTypeError \/
       exists text, jsonToCsv data = Returns (mkCsvResult true (Some text) None)
  else jsonToCsv data =
       Returns (mkCsvResult false None
                  (Some "CSV export requires an array of objects or a single object")).
Proof.
  unfold jsonToCsv.
  destruct data as [|b|n|s|[|v vs]|es]; cbn [is_object_or_array]; try reflexivity.
  - right. eexists. reflexivity.
  - destruct (flatten_items _ _ _) as [flatRows allKeys].
    match goal with |- context [all_return ?l] => destruct (all_return l) end;
      [right; eexists; reflexivity|left; reflexivity].
  - destruct (flatten_items _ _ _) as [flatRows allKeys].
    match goal with |- context [all_return ?l] => destruct (all_return l) end;
      [right; eexists; reflexivity|left; reflexivity].
Qed.

(** C6 at the document [[{"__proto__": 1, "a": 2}]], an array of one object
    as [JSON.parse] returns it: the column [__proto__] is recorded, the row
    has no such property of its own, so [row["__proto__"]] is the prototype
    object, which has no method [includes]: [escapeCsvValue] throws a
    [TypeError].  The call returns nothing, neither a success nor the error
    result.  The same happens when a row lacks a column named as a member of
    [Object.prototype], as the first row of [[{"a": 1}, {"constructor": 2}]]
    does. *)
Theorem jsonToCsv_throws_on_prototype_name :
  let data : json Z := JArray [JObject [("__proto__", JNumber 1%Z); ("a", JNumber 2%Z)]] in
  let data' : json Z :=
    JArray [JObject [("a", JNumber 1%Z)]; JObject [("constructor", JNumber 2%Z)]] in
  (unique_keys data = true /\ is_object_or_array data = true /\
   jsonToCsv data = ThrowsTypeError /\
   ~ exists r, jsonToCsv data = Returns r) /\
  (unique_keys data' = true /\ is_object_or_array data' = true /\
   jsonToCsv data' = ThrowsTypeError).
Proof.
  intros data data'.
  assert (Hthrows : jsonToCsv data = ThrowsTypeError) by (vm_compute; reflexivity).
  split; split_and!; try reflexivity; try exact Hthrows.
  intros [r Hr]. rewrite Hthrows in Hr. discriminate Hr.
Qed.

(** C9.  The CSV text of [[{"a":{"b":1}},{"a":{"b":2},"c":3}]]: the call
    succeeds, the header row is [a.b,c] and the data rows are [1,] and
    [2,3]. *)
Theorem jsonToCsv_flattening_example :
  exists text,
    jsonToCsv (JArray [JObject [("a", JObject [("b", JNumber 1%Z)])];
                       JObject [("a", JObject [("b", JNumber 2%Z)]); ("c", JNumber 3%Z)]])
    = Returns (mkCsvResult true (Some text) None) /\
    split LF text = ["a.b,c"; "1,"; "2,3"].
Proof. eexists. split; vm_compute; reflexivity. Qed.

(** ** Key sorter *)

(** *** The stable sort *)

Section SortFacts.
Import JsOrdered.
Context {A : Type} (cmp : A -> A -> comparison).

#[local] Abbreviation le := (compare_le cmp).

Lemma sort_insert_Permutation x l : sort_insert cmp x l ≡ₚ x :: l.
Proof.
  induction l as [|y l IH]; simpl; [reflexivity|].
  destruct (cmp x y); try reflexivity.
  rewrite IH. apply Permutation_swap.
Qed.

Lemma Array_sort_Permutation l : Array_sort cmp l ≡ₚ l.
Proof.
  induction l as [|x l IH]; simpl; [reflexivity|].
  rewrite sort_insert_Permutation, IH. reflexivity.
Qed.

Lemma sort_insert_head x l : Forall (le x) l -> sort_insert cmp x l = x :: l.
Proof.
  destruct l as [|y l]; [reflexivity|]. intros [Hxy _]%Forall_cons. simpl.
  unfold compare_le in Hxy. destruct (cmp x y); congruence.
Qed.

Lemma StronglySorted_filter (R : relation A) (P : A -> Prop)
    `{!forall x, Decision (P x)} l :
  StronglySorted R l -> StronglySorted R (filter P l).
Proof.
  induction 1 as [|x l Hl IH Hx]; [constructor|].
  rewrite filter_cons. destruct (decide (P x)); [|exact IH].
  constructor; [exact IH|]. rewrite Forall_forall in Hx. apply Forall_forall.
  intros y [_ Hy]%list_elem_of_filter. apply Hx, Hy.
Qed.

(** A consistent comparator: of two elements one is not placed after the
    other, and "not after" is transitive. *)
Hypothesis cmp_total : forall a b, cmp a b = Gt -> cmp b a <> Gt.
Hypothesis cmp_trans : forall a b c, le a b -> le b c -> le a c.

Lemma sort_insert_sorted x l :
  StronglySorted le l -> StronglySorted le (sort_insert cmp x l).
Proof.
  induction 1 as [|y l Hl IH Hy]; simpl; [repeat constructor|].
  destruct (cmp x y) eqn:Hxy.
  - constructor; [constructor; assumption|].
    assert (Hle : le x y) by (unfold compare_le; congruence).
    constructor; [exact Hle|]. eapply Forall_impl; [exact Hy|].
    intros z Hz. eapply cmp_trans; eassumption.
  - constructor; [constructor; assumption|].
    assert (Hle : le x y) by (unfold compare_le; congruence).
    constructor; [exact Hle|]. eapply Forall_impl; [exact Hy|].
    intros z Hz. eapply cmp_trans; eassumption.
  - constructor; [exact IH|].
    rewrite sort_insert_Permutation. constructor; [|exact Hy].
    apply cmp_total, Hxy.
Qed.

Lemma Array_sort_sorted l : StronglySorted le (Array_sort cmp l).
Proof.
  induction l as [|x l IH]; simpl; [constructor|]. apply sort_insert_sorted, IH.
Qed.

Lemma Array_sort_id l : StronglySorted le l -> Array_sort cmp l = l.
Proof.
  induction 1 as [|x l Hl IH Hx]; simpl; [reflexivity|].
  rewrite IH. apply sort_insert_head, Hx.
Qed.

Lemma filter_sort_insert (P : A -> Prop) `{!forall x, Decision (P x)} x l :
  StronglySorted le l ->
  filter P (sort_insert cmp x l) =
  if decide (P x) then sort_insert cmp x (filter P l) else filter P l.
Proof.
  induction 1 as [|y l Hl IH Hy]; simpl.
  - rewrite filter_cons, filter_nil. destruct (decide (P x)); reflexivity.
  - destruct (cmp x y) eqn:Hxy.
    1,2: rewrite filter_cons; destruct (decide (P x)) as [HPx|HPx]; [|reflexivity];
      rewrite sort_insert_head; [reflexivity|];
      apply Forall_forall; intros z [_ Hz]%list_elem_of_filter;
      assert (Hle : le x y) by (unfold compare_le; congruence);
      apply elem_of_cons in Hz as [->|Hz]; [exact Hle|];
      rewrite Forall_forall in Hy; eapply cmp_trans; [exact Hle|apply Hy, Hz].
    rewrite !(filter_cons _ y). destruct (decide (P y)) as [HPy|HPy].
    + rewrite IH. destruct (decide (P x)); [|reflexivity].
      simpl. rewrite Hxy. reflexivity.
    + exact IH.
Qed.

(** The sort is stable: it commutes with taking a sub-list by a predicate. *)
Lemma filter_Array_sort (P : A -> Prop) `{!forall x, Decision (P x)} l :
  filter P (Array_sort cmp l) = Array_sort cmp (filter P l).
Proof.
  induction l as [|x l IH]; simpl; [reflexivity|].
  rewrite filter_sort_insert by apply Array_sort_sorted.
  rewrite filter_cons. destruct (decide (P x)); simpl; rewrite IH; reflexivity.
Qed.

Lemma Array_sort_idempotent l : Array_sort cmp (Array_sort cmp l) = Array_sort cmp l.
Proof. apply Array_sort_id, Array_sort_sorted. Qed.

End SortFacts.

(** *** Own properties in order *)

Section ObjectFacts.
Import Js JsOrdered.
Context {V : Type}.
Implicit Types obj E IP SP : list (string * V).

#[local] Abbreviation indexed := (fun e : string * V => is_index (fst e) = true).
#[local] Abbreviation named := (fun e : string * V => is_named (fst e) = true).

Lemma array_index_inj k1 k2 i :
  array_index k1 = Some i -> array_index k2 = Some i -> k1 = k2.
Proof.
  unfold array_index. intros H1 H2.
  destruct (NilEmpty.uint_of_string k1) as [d1|]; [|discriminate].
  destruct (NilEmpty.uint_of_string k2) as [d2|]; [|discriminate].
  destruct (bool_decide (N_to_string (N.of_uint d1) = k1)) eqn:E1; [|discriminate].
  destruct (bool_decide (N_to_string (N.of_uint d2) = k2)) eqn:E2; [|discriminate].
  apply bool_decide_eq_true in E1, E2. simpl in H1, H2.
  destruct (N.of_uint d1 <? 2 ^ 32 - 1)%N; [|discriminate].
  destruct (N.of_uint d2 <? 2 ^ 32 - 1)%N; [|discriminate].
  congruence.
Qed.

Lemma is_index_proto : is_index "__proto__" = false.
Proof. reflexivity. Qed.

Lemma is_named_spec k :
  is_named k = true <-> is_index k = false /\ k <> "__proto__".
Proof.
  unfold is_named. rewrite andb_true_iff, !negb_true_iff, bool_decide_eq_false.
  reflexivity.
Qed.

Lemma indexed_not_named k : is_index k = true -> is_named k = false.
Proof. unfold is_named. intros ->. reflexivity. Qed.

Lemma Map_get_None obj k : k ∉ keys obj -> Map_get obj k = None.
Proof.
  induction obj as [|[k' v] obj IH]; [reflexivity|]. simpl.
  intros [Hne Hk]%not_elem_of_cons. destruct (decide (k' = k)); [congruence|auto].
Qed.

Lemma Map_has_false obj k : k ∉ keys obj -> Map_has obj k = false.
Proof. intros Hk. unfold Map_has. rewrite Map_get_None by exact Hk. reflexivity. Qed.

Lemma Map_get_Some obj k v :
  NoDup (keys obj) -> (k, v) ∈ obj -> Map_get obj k = Some v.
Proof.
  induction obj as [|[k' v'] obj IH]; intros Hnd Hin.
  - apply elem_of_nil in Hin. done.
  - simpl in Hnd. apply NoDup_cons in Hnd as [Hk' Hnd]. simpl.
    apply elem_of_cons in Hin as [Heq|Hin].
    + injection Heq as -> ->. destruct (decide (k' = k')); [reflexivity|congruence].
    + destruct (decide (k' = k)) as [->|Hne]; [|auto].
      exfalso. apply Hk'. apply list_elem_of_fmap. exists (k, v). split; [reflexivity|exact Hin].
Qed.

Lemma insert_index_Permutation i k v obj : insert_index i k v obj ≡ₚ (k, v) :: obj.
Proof.
  induction obj as [|[k' w] obj IH]; simpl; [reflexivity|].
  destruct (array_index k'); [|reflexivity].
  destruct (i <? _)%N; [reflexivity|]. rewrite IH. apply Permutation_swap.
Qed.

Lemma insert_index_app i k v IP SP :
  Forall indexed IP -> Forall (fun e => is_index (fst e) = false) SP ->
  insert_index i k v (IP ++ SP) = insert_index i k v IP ++ SP.
Proof.
  intros HIP HSP. induction HIP as [|[k' w] IP Hk' _ IH]; simpl.
  - destruct HSP as [|[k' w] SP Hk' _]; [reflexivity|]. simpl.
    unfold is_index in Hk'. simpl in Hk'. destruct (array_index k'); [discriminate|reflexivity].
  - unfold is_index in Hk'. simpl in Hk'. destruct (array_index k'); [|discriminate].
    destruct (i <? _)%N; [reflexivity|]. rewrite IH. reflexivity.
Qed.

Lemma insert_index_sorted i k v IP :
  array_index k = Some i ->
  Forall (fun e => exists j, array_index (fst e) = Some j /\ j <> i) IP ->
  StronglySorted index_lt IP ->
  StronglySorted index_lt (insert_index i k v IP).
Proof.
  intros Hk Hall Hs. induction Hs as [|[k' w] IP Hs IH Hlt]; simpl.
  - repeat constructor.
  - apply Forall_cons in Hall as [(j & Hj & Hne) Hall]. simpl in Hj. rewrite Hj.
    destruct (i <? j)%N eqn:Hij.
    + apply N.ltb_lt in Hij. constructor; [constructor; assumption|].
      constructor.
      * exists i, j. simpl. auto.
      * eapply Forall_impl; [exact Hlt|]. intros e (j1 & j2 & Hj1 & Hj2 & Hlt12).
        simpl in Hj1. exists i, j2. split_and!; [exact Hk|exact Hj2|].
        assert (j1 = j) by congruence. lia.
    + apply N.ltb_ge in Hij. constructor; [apply IH, Hall|].
      rewrite insert_index_Permutation. constructor; [|exact Hlt].
      exists j, i. simpl. split_and!; [exact Hj|exact Hk|lia].
Qed.

(** What an assignment of a new key does to an object whose array indices
    come first. *)
Lemma Object_assign_new IP SP k v :
  k ∉ keys (IP ++ SP) ->
  Forall indexed IP -> Forall (fun e => is_index (fst e) = false) SP ->
  Object_assign (IP ++ SP) k v =
  if bool_decide (k = "__proto__") then IP ++ SP
  else match array_index k with
       | Some i => insert_index i k v IP ++ SP
       | None => IP ++ (SP ++ [(k, v)])
       end.
Proof.
  intros Hk HIP HSP. unfold Object_assign.
  destruct (bool_decide (k = "__proto__")); [reflexivity|].
  rewrite Map_has_false by exact Hk.
  destruct (array_index k); [apply insert_index_app; assumption|].
  rewrite app_assoc. reflexivity.
Qed.

Lemma Object_assign_index obj k v i :
  k ∉ keys obj -> array_index k = Some i ->
  Object_assign obj k v = insert_index i k v obj.
Proof.
  intros Hk Hi. unfold Object_assign.
  destruct (bool_decide (k = "__proto__")) eqn:Hp.
  { apply bool_decide_eq_true in Hp. subst k. discriminate Hi. }
  rewrite Map_has_false by exact Hk. rewrite Hi. reflexivity.
Qed.

Lemma Object_assign_new_keys obj k v :
  k ∉ keys obj ->
  Object_assign obj k v ≡ₚ (if bool_decide (k = "__proto__") then obj else (k, v) :: obj).
Proof.
  intros Hk. unfold Object_assign.
  destruct (bool_decide (k = "__proto__")); [reflexivity|].
  rewrite Map_has_false by exact Hk.
  destruct (array_index k); [apply insert_index_Permutation|].
  rewrite Permutation_app_comm. reflexivity.
Qed.

Lemma build_Permutation E : forall obj,
  NoDup (keys E) -> (forall k, k ∈ keys E -> k ∉ keys obj) ->
  build E obj ≡ₚ obj ++ creating E.
Proof.
  induction E as [|[k v] E IH]; intros obj Hnd Hdisj.
  - simpl. rewrite app_nil_r. reflexivity.
  - simpl in Hnd. apply NoDup_cons in Hnd as [Hk Hnd].
    assert (Hkobj : k ∉ keys obj) by (apply Hdisj; simpl; apply list_elem_of_here).
    pose proof (Object_assign_new_keys obj k v Hkobj) as Hperm.
    unfold build in *. simpl. rewrite IH; [|exact Hnd|].
    + unfold creating. rewrite filter_cons. simpl.
      destruct (bool_decide (k = "__proto__")) eqn:Hp.
      * apply bool_decide_eq_true in Hp. destruct (decide (k <> "__proto__")); [done|].
        rewrite Hperm. reflexivity.
      * apply bool_decide_eq_false in Hp. destruct (decide (k <> "__proto__")); [|done].
        rewrite Hperm. rewrite <- Permutation_middle. reflexivity.
    + intros k' Hk' Hin. unfold keys in Hin. rewrite Hperm in Hin.
      destruct (bool_decide (k = "__proto__")).
      * apply (Hdisj k'); [simpl; apply list_elem_of_further, Hk'|exact Hin].
      * simpl in Hin. apply elem_of_cons in Hin as [->|Hin]; [done|].
        apply (Hdisj k'); [simpl; apply list_elem_of_further, Hk'|exact Hin].
Qed.

Lemma keys_Permutation obj obj' : obj ≡ₚ obj' -> keys obj ≡ₚ keys obj'.
Proof. intros Hp. unfold keys. rewrite Hp. reflexivity. Qed.

(** The object a loop of assignments builds: the array indices first, then
    the other keys in the order of the loop. *)
Lemma build_shape E : forall IP SP,
  NoDup (keys E) -> (forall k, k ∈ keys E -> k ∉ keys (IP ++ SP)) ->
  Forall indexed IP -> Forall (fun e => is_index (fst e) = false) SP ->
  build E (IP ++ SP) = build (filter indexed E) IP ++ (SP ++ named_part E).
Proof.
  induction E as [|[k v] E IH]; intros IP SP Hnd Hdisj HIP HSP.
  - unfold named_part. simpl. rewrite app_nil_r. reflexivity.
  - simpl in Hnd. apply NoDup_cons in Hnd as [Hk Hnd].
    assert (Hkobj : k ∉ keys (IP ++ SP)) by (apply Hdisj; simpl; apply list_elem_of_here).
    assert (Hrest : forall obj', obj' ≡ₚ (k, v) :: (IP ++ SP) ->
              forall k', k' ∈ keys E -> k' ∉ keys obj').
    { intros obj' Hp k' Hk' Hin. rewrite (keys_Permutation _ _ Hp) in Hin. simpl in Hin.
      apply elem_of_cons in Hin as [->|Hin]; [done|].
      apply (Hdisj k'); [simpl; apply list_elem_of_further, Hk'|exact Hin]. }
    unfold build at 1. simpl. fold (build E (Object_assign (IP ++ SP) k v)).
    rewrite Object_assign_new by assumption.
    unfold named_part. rewrite !filter_cons. simpl.
    destruct (bool_decide (k = "__proto__")) eqn:Hp.
    + apply bool_decide_eq_true in Hp. subst k.
      destruct (decide (is_index "__proto__" = true)) as [Hi|_]; [discriminate Hi|].
      destruct (decide (is_named "__proto__" = true)) as [Hn|_]; [discriminate Hn|].
      apply IH; try assumption.
      intros k' Hk'. apply Hdisj. simpl. apply list_elem_of_further, Hk'.
    + apply bool_decide_eq_false in Hp.
      destruct (array_index k) as [i|] eqn:Hi.
      * assert (His : is_index k = true) by (unfold is_index; rewrite Hi; reflexivity).
        destruct (decide (is_index k = true)); [|done].
        rewrite (indexed_not_named k His).
        destruct (decide (false = true)); [discriminate|].
        assert (HkIP : k ∉ keys IP).
        { intros Hin. apply Hkobj. unfold keys. rewrite fmap_app. apply elem_of_app. auto. }
        rewrite (IH (insert_index i k v IP) SP); try assumption.
        -- unfold build at 2. simpl. fold (build (filter indexed E) (Object_assign IP k v)).
           rewrite (Object_assign_index IP k v i HkIP Hi). reflexivity.
        -- apply Hrest. rewrite insert_index_Permutation. reflexivity.
        -- rewrite insert_index_Permutation. constructor; [exact His|exact HIP].
      * assert (His : is_index k = false) by (unfold is_index; rewrite Hi; reflexivity).
        destruct (decide (is_index k = true)); [congruence|].
        assert (Hn : is_named k = true) by (apply is_named_spec; auto).
        destruct (decide (is_named k = true)); [|done].
        rewrite (IH IP (SP ++ [(k, v)])); try assumption.
        -- rewrite <- !app_assoc. reflexivity.
        -- apply Hrest. rewrite app_assoc, Permutation_app_comm. reflexivity.
        -- apply Forall_app. split; [exact HSP|]. apply Forall_singleton. exact His.
Qed.

Lemma build_index_sorted E : forall IP,
  NoDup (keys E) -> (forall k, k ∈ keys E -> k ∉ keys IP) ->
  Forall indexed E -> Forall indexed IP ->
  NoDup (keys IP) -> StronglySorted index_lt IP ->
  StronglySorted index_lt (build E IP).
Proof.
  induction E as [|[k v] E IH]; intros IP Hnd Hdisj HE HIP HndIP Hs; [exact Hs|].
  simpl in Hnd. apply NoDup_cons in Hnd as [Hk Hnd].
  apply Forall_cons in HE as [His HE]. simpl in His.
  assert (HkIP : k ∉ keys IP) by (apply Hdisj; simpl; apply list_elem_of_here).
  unfold build. simpl. fold (build E (Object_assign IP k v)).
  unfold is_index in His. destruct (array_index k) as [i|] eqn:Hi; [|discriminate].
  rewrite (Object_assign_index IP k v i HkIP Hi).
  apply IH; try assumption.
  - intros k' Hk' Hin. rewrite (keys_Permutation _ _ (insert_index_Permutation i k v IP)) in Hin.
    simpl in Hin. apply elem_of_cons in Hin as [->|Hin]; [done|].
    apply (Hdisj k'); [simpl; apply list_elem_of_further, Hk'|exact Hin].
  - rewrite insert_index_Permutation. constructor; [|exact HIP].
    simpl. unfold is_index. rewrite Hi. reflexivity.
  - rewrite (keys_Permutation _ _ (insert_index_Permutation i k v IP)). simpl.
    apply NoDup_cons. split; assumption.
  - apply insert_index_sorted; [exact Hi| |exact Hs].
    rewrite Forall_forall in HIP. apply Forall_forall. intros [k' w] Hin.
    specialize (HIP _ Hin). simpl in HIP. unfold is_index in HIP.
    destruct (array_index k') as [j|] eqn:Hj; [|discriminate].
    exists j. split; [exact Hj|]. intros ->.
    apply HkIP. rewrite (array_index_inj k k' i Hi Hj).
    apply list_elem_of_fmap. exists (k', w). split; [reflexivity|exact Hin].
Qed.

End ObjectFacts.

(** *** The object the sorter builds *)

Section RebuildFacts.
Import Js JsOrdered.
Context {V : Type} (cmp : string -> string -> comparison).
Implicit Types obj E values : list (string * V).

#[local] Abbreviation indexed := (fun e : string * V => is_index (fst e) = true).
#[local] Abbreviation named := (fun e : string * V => is_named (fst e) = true).
#[local] Abbreviation sortE := (Array_sort (compare_entries (V:=V) cmp)).

Lemma filter_all {A} (P : A -> Prop) `{!forall x, Decision (P x)} (l : list A) :
  Forall P l -> filter P l = l.
Proof.
  induction 1 as [|x l Hx _ IH]; [reflexivity|].
  rewrite filter_cons. destruct (decide (P x)); [|done]. rewrite IH. reflexivity.
Qed.

Lemma filter_none {A} (P : A -> Prop) `{!forall x, Decision (P x)} (l : list A) :
  Forall (fun x => ~ P x) l -> filter P l = [].
Proof.
  induction 1 as [|x l Hx _ IH]; [reflexivity|].
  rewrite filter_cons. destruct (decide (P x)); [done|exact IH].
Qed.

Lemma NoDup_keys_sublist obj obj' :
  obj' `sublist_of` obj -> NoDup (keys obj) -> NoDup (keys obj').
Proof.
  intros Hsub Hnd. eapply sublist_NoDup; [exact Hnd|].
  unfold keys. apply fmap_sublist, Hsub.
Qed.

Lemma NoDup_keys_filter (P : string * V -> Prop) `{!forall x, Decision (P x)} obj :
  NoDup (keys obj) -> NoDup (keys (filter P obj)).
Proof. apply NoDup_keys_sublist, sublist_filter. Qed.

Lemma NoDup_keys_Permutation obj obj' :
  obj ≡ₚ obj' -> NoDup (keys obj) -> NoDup (keys obj').
Proof. intros Hp. rewrite (keys_Permutation _ _ Hp). trivial. Qed.

Lemma creating_indexed E : Forall indexed E -> creating E = E.
Proof.
  intros HE. apply filter_all. eapply Forall_impl; [exact HE|].
  intros [k v] Hk Heq. simpl in *. subst k. discriminate Hk.
Qed.

Lemma index_part_Permutation E :
  NoDup (keys E) -> index_part E ≡ₚ filter indexed E.
Proof.
  intros Hnd. unfold index_part.
  rewrite build_Permutation.
  - simpl. rewrite creating_indexed; [reflexivity|].
    apply Forall_forall. intros e [He _]%list_elem_of_filter. exact He.
  - apply NoDup_keys_filter, Hnd.
  - intros k _ Hin. apply elem_of_nil in Hin. exact Hin.
Qed.

Lemma index_part_indexed E : NoDup (keys E) -> Forall indexed (index_part E).
Proof.
  intros Hnd. rewrite (index_part_Permutation E Hnd).
  apply Forall_forall. intros e [He _]%list_elem_of_filter. exact He.
Qed.

Lemma index_part_sorted E :
  NoDup (keys E) -> StronglySorted index_lt (index_part E).
Proof.
  intros Hnd. unfold index_part. apply build_index_sorted.
  - apply NoDup_keys_filter, Hnd.
  - intros k _ Hin. apply elem_of_nil in Hin. exact Hin.
  - apply Forall_forall. intros e [He _]%list_elem_of_filter. exact He.
  - constructor.
  - apply NoDup_nil_2.
  - constructor.
Qed.

(** Two loops that create the same array indices list them the same way. *)
Lemma index_part_unique E E' :
  NoDup (keys E) -> NoDup (keys E') ->
  filter indexed E ≡ₚ filter indexed E' -> index_part E = index_part E'.
Proof.
  intros Hnd Hnd' Hp.
  apply (StronglySorted_unique_strong index_lt).
  - intros e1 e2 _ _ (i & j & Hi & Hj & Hlt) (j' & i' & Hj' & Hi' & Hlt').
    assert (i = i') by congruence. assert (j = j') by congruence. lia.
  - apply index_part_sorted, Hnd.
  - apply index_part_sorted, Hnd'.
  - rewrite !index_part_Permutation by assumption. exact Hp.
Qed.

Lemma build_from_empty E :
  NoDup (keys E) -> build E [] = index_part E ++ named_part E.
Proof.
  intros Hnd. apply (build_shape E [] []); [exact Hnd| |constructor|constructor].
  intros k _ Hin. apply elem_of_nil in Hin. exact Hin.
Qed.

Lemma NoDup_keys_sortE values : NoDup (keys values) -> NoDup (keys (sortE values)).
Proof. apply NoDup_keys_Permutation. symmetry. apply Array_sort_Permutation. Qed.

Lemma rebuild_shape values :
  NoDup (keys values) ->
  rebuild cmp values = index_part (sortE values) ++ named_part (sortE values).
Proof. intros Hnd. apply build_from_empty, NoDup_keys_sortE, Hnd. Qed.

Lemma rebuild_Permutation values :
  NoDup (keys values) -> rebuild cmp values ≡ₚ creating values.
Proof.
  intros Hnd. unfold rebuild. rewrite build_Permutation.
  - simpl. unfold creating. rewrite Array_sort_Permutation. reflexivity.
  - apply NoDup_keys_sortE, Hnd.
  - intros k _ Hin. apply elem_of_nil in Hin. exact Hin.
Qed.

Lemma rebuild_NoDup_keys values :
  NoDup (keys values) -> NoDup (keys (rebuild cmp values)).
Proof.
  intros Hnd. eapply NoDup_keys_Permutation.
  - symmetry. apply rebuild_Permutation, Hnd.
  - apply NoDup_keys_filter, Hnd.
Qed.

Lemma rebuild_subseteq values e :
  NoDup (keys values) -> e ∈ rebuild cmp values -> e ∈ values.
Proof.
  intros Hnd. rewrite (rebuild_Permutation values Hnd).
  intros [_ He]%list_elem_of_filter. exact He.
Qed.

Hypothesis cmp_total : forall a b, cmp a b = Gt -> cmp b a <> Gt.
Hypothesis cmp_trans : forall a b c,
  compare_le cmp a b -> compare_le cmp b c -> compare_le cmp a c.

Lemma compare_entries_total (e1 e2 : string * V) :
  compare_entries cmp e1 e2 = Gt -> compare_entries cmp e2 e1 <> Gt.
Proof. apply cmp_total. Qed.

Lemma compare_entries_trans (e1 e2 e3 : string * V) :
  compare_le (compare_entries cmp) e1 e2 -> compare_le (compare_entries cmp) e2 e3 ->
  compare_le (compare_entries cmp) e1 e3.
Proof. apply cmp_trans. Qed.

(** Building again from what was built gives the same object. *)
Lemma rebuild_idempotent values :
  NoDup (keys values) ->
  rebuild cmp (rebuild cmp values) = rebuild cmp values.
Proof.
  intros Hnd.
  pose proof (rebuild_NoDup_keys values Hnd) as Hnd1.
  pose proof (NoDup_keys_sortE values Hnd) as HndE.
  rewrite (rebuild_shape (rebuild cmp values) Hnd1).
  rewrite (rebuild_shape values Hnd) at 3.
  set (E1 := sortE values) in *.
  assert (Hidx : filter indexed (rebuild cmp values) = index_part E1).
  { rewrite (rebuild_shape values Hnd). fold E1. rewrite filter_app.
    rewrite (filter_all indexed) by apply index_part_indexed, HndE.
    rewrite (filter_none indexed); [apply app_nil_r|].
    apply Forall_forall. intros [k v] [Hn _]%list_elem_of_filter.
    apply is_named_spec in Hn as [Hn _]. simpl in *. congruence. }
  assert (Hnam : filter named (rebuild cmp values) = named_part E1).
  { rewrite (rebuild_shape values Hnd). fold E1. rewrite filter_app.
    rewrite (filter_none named).
    - simpl. unfold named_part. apply filter_all.
      apply Forall_forall. intros e [He _]%list_elem_of_filter. exact He.
    - eapply Forall_impl; [apply index_part_indexed, HndE|].
      intros [k v] Hk. simpl in *. rewrite (indexed_not_named k Hk). discriminate. }
  f_equal.
  - apply index_part_unique.
    + apply NoDup_keys_sortE, Hnd1.
    + exact HndE.
    + rewrite Array_sort_Permutation, Hidx. apply index_part_Permutation, HndE.
  - unfold named_part at 1.
    rewrite (filter_Array_sort (compare_entries cmp)
               compare_entries_total compare_entries_trans).
    rewrite Hnam. apply Array_sort_id.
    unfold named_part. apply StronglySorted_filter.
    apply Array_sort_sorted; [exact compare_entries_total|exact compare_entries_trans].
Qed.

End RebuildFacts.

(** *** [sortObjectKeys] *)

Section KeySorterFacts.
Import Js JsOrdered KeySorter.
Context {number : Type} (localeCompare : string -> string -> comparison).

#[local] Abbreviation sortKeys := (sortObjectKeys (number:=number) localeCompare).
#[local] Abbreviation sorted_values :=
  (map (fun e : string * json number => (fst e, sortKeys (snd e)))).

Lemma keys_sort_insert (e : string * json number) L :
  keys (sort_insert (compare_entries localeCompare) e L) =
  sort_insert localeCompare (fst e) (keys L).
Proof.
  induction L as [|e' L IH]; [reflexivity|]. simpl. unfold compare_entries at 1.
  destruct (localeCompare (fst e) (fst e')); try reflexivity.
  simpl. f_equal. exact IH.
Qed.

Lemma keys_Array_sort (L : list (string * json number)) :
  keys (Array_sort (compare_entries localeCompare) L) =
  Array_sort localeCompare (keys L).
Proof.
  induction L as [|e L IH]; [reflexivity|]. simpl.
  rewrite keys_sort_insert, IH. reflexivity.
Qed.

Lemma entries_for_keys (values L : list (string * json number)) :
  (forall e, e ∈ L -> Map_get values (fst e) = Some (snd e)) ->
  entries_for values (keys L) = L.
Proof.
  induction L as [|[k v] L IH]; intros Hall; [reflexivity|].
  unfold entries_for in *. simpl.
  pose proof (Hall (k, v) (list_elem_of_here _ _)) as Hk. simpl in Hk.
  rewrite Hk. simpl. f_equal.
  apply IH. intros e He. apply Hall, list_elem_of_further, He.
Qed.

Lemma fold_assign_sorted (values : list (string * json number)) ks :
  forall acc,
    fold_left (assign_sorted values) ks acc = build (entries_for values ks) acc.
Proof.
  induction ks as [|k ks IH]; intros acc; [reflexivity|].
  simpl. rewrite IH. unfold assign_sorted, entries_for. simpl.
  destruct (Map_get values k); reflexivity.
Qed.

Lemma sorted_loop (values : list (string * json number)) :
  NoDup (keys values) ->
  fold_left (assign_sorted values) (Array_sort localeCompare (keys values)) [] =
  rebuild localeCompare values.
Proof.
  intros Hnd. rewrite fold_assign_sorted, <- keys_Array_sort.
  rewrite entries_for_keys; [reflexivity|].
  intros [k v] He. apply Map_get_Some; [exact Hnd|].
  rewrite Array_sort_Permutation in He. exact He.
Qed.

Lemma keys_sorted_values es : keys (sorted_values es) = keys es.
Proof. unfold keys. rewrite map_map. reflexivity. Qed.

Lemma sortObjectKeys_JObject es :
  NoDup (keys es) ->
  sortKeys (JObject es) = JObject (rebuild localeCompare (sorted_values es)).
Proof.
  intros Hnd. simpl. f_equal.
  rewrite <- (keys_sorted_values es). apply sorted_loop.
  rewrite keys_sorted_values. exact Hnd.
Qed.

Lemma unique_keys_JObject es :
  unique_keys (JObject es) = true ->
  NoDup (keys es) /\ Forall (fun e : string * json number => unique_keys (snd e) = true) es.
Proof.
  simpl. intros [Hnd Hall]%andb_true_iff. split.
  - apply bool_decide_eq_true in Hnd. exact Hnd.
  - apply Forall_forall. intros e He.
    rewrite forallb_forall in Hall. apply Hall, list_elem_of_In, He.
Qed.

(** The copy differs from the document in the order of keys only, when no key
    is [__proto__]. *)
Lemma sortObjectKeys_same_up_to_key_order v :
  unique_keys v = true -> no_proto_key v = true ->
  same_up_to_key_order v (sortKeys v).
Proof.
  induction v as [|b|n|s|vs IH|es IH] using json_ind; intros Hu Hp;
    try constructor.
  - simpl in Hu, Hp. rewrite forallb_forall in Hu, Hp.
    rewrite Forall_forall in IH. apply Forall2_fmap_r, Forall_Forall2_diag.
    apply Forall_forall. intros x Hx.
    apply IH; [exact Hx|apply Hu|apply Hp]; apply list_elem_of_In, Hx.
  - destruct (unique_keys_JObject es Hu) as [Hnd Hvals].
    rewrite sortObjectKeys_JObject by exact Hnd.
    simpl in Hp. rewrite forallb_forall in Hp.
    apply (same_object es (sorted_values es)).
    + apply Forall2_fmap_r, Forall_Forall2_diag.
      rewrite Forall_forall in IH, Hvals. apply Forall_forall. intros e He.
      split; [reflexivity|]. simpl. apply IH; [exact He|apply Hvals, He|].
      specialize (Hp e (proj1 (list_elem_of_In _ _) He)).
      apply andb_true_iff in Hp as [_ Hp]. exact Hp.
    + rewrite rebuild_Permutation by (rewrite keys_sorted_values; exact Hnd).
      unfold creating. rewrite filter_all; [reflexivity|].
      apply Forall_forall. intros [k v] (e & Heq & He)%list_elem_of_fmap.
      injection Heq as -> _. simpl.
      specialize (Hp e (proj1 (list_elem_of_In _ _) He)).
      apply andb_true_iff in Hp as [Hp _].
      apply negb_true_iff, bool_decide_eq_false in Hp. exact Hp.
Qed.

Hypothesis localeCompare_total :
  forall a b, localeCompare a b = Gt -> localeCompare b a <> Gt.
Hypothesis localeCompare_trans : forall a b c,
  compare_le localeCompare a b -> compare_le localeCompare b c ->
  compare_le localeCompare a c.

(** Sorting a sorted copy changes nothing. *)
Lemma sortObjectKeys_idempotent v :
  unique_keys v = true -> sortKeys (sortKeys v) = sortKeys v.
Proof.
  induction v as [|b|n|s|vs IH|es IH] using json_ind; intros Hu; try reflexivity.
  - simpl in Hu. rewrite forallb_forall in Hu. simpl. f_equal.
    rewrite map_map. apply map_ext_in. intros x Hx.
    rewrite Forall_forall in IH. apply IH; [apply list_elem_of_In, Hx|apply Hu, Hx].
  - destruct (unique_keys_JObject es Hu) as [Hnd Hvals].
    assert (Hndv : NoDup (keys (sorted_values es)))
      by (rewrite keys_sorted_values; exact Hnd).
    rewrite sortObjectKeys_JObject by exact Hnd.
    rewrite sortObjectKeys_JObject by (apply rebuild_NoDup_keys, Hndv).
    f_equal.
    assert (Hfix : sorted_values (rebuild localeCompare (sorted_values es)) =
                   rebuild localeCompare (sorted_values es)).
    { rewrite <- (map_id (rebuild _ _)) at 2. apply map_ext_in.
      intros [k y] Hin%list_elem_of_In. simpl. f_equal.
      apply (rebuild_subseteq localeCompare _ _ Hndv) in Hin.
      apply list_elem_of_fmap in Hin as (e & Heq & He). injection Heq as -> ->.
      rewrite Forall_forall in IH, Hvals. apply IH; [exact He|apply Hvals, He]. }
    rewrite Hfix.
    apply rebuild_idempotent; assumption.
Qed.

End KeySorterFacts.

(** The stand-in collator is a consistent comparator. *)
Lemma caseless_compare_total a b :
  KeySorter.caseless_compare a b = Gt -> KeySorter.caseless_compare b a <> Gt.
Proof.
  unfold KeySorter.caseless_compare. intros Hab Hba.
  rewrite String.compare_antisym, Hba in Hab. discriminate Hab.
Qed.

Lemma caseless_compare_trans a b c :
  JsOrdered.compare_le KeySorter.caseless_compare a b ->
  JsOrdered.compare_le KeySorter.caseless_compare b c ->
  JsOrdered.compare_le KeySorter.caseless_compare a c.
Proof.
  unfold JsOrdered.compare_le, KeySorter.caseless_compare.
  set (x := Js.toLowerCase a). set (y := Js.toLowerCase b). set (z := Js.toLowerCase c).
  intros Hxy Hyz.
  assert (Hle : forall s t, (s ?= t)%string <> Gt <-> String.le s t).
  { intros s t. unfold String.le, String.leb. destruct (s ?= t)%string; simpl; split; try done. }
  apply Hle. apply Hle in Hxy, Hyz. etrans; eassumption.
Qed.

(** With the stand-in collator, on every document a parser can produce. *)
Corollary sortObjectKeys_idempotent_caseless {number} (v : json number) :
  unique_keys v = true ->
  KeySorter.sortObjectKeys KeySorter.caseless_compare
    (KeySorter.sortObjectKeys KeySorter.caseless_compare v) =
  KeySorter.sortObjectKeys KeySorter.caseless_compare v.
Proof.
  apply sortObjectKeys_idempotent.
  - exact caseless_compare_total.
  - exact caseless_compare_trans.
Qed.

Import Js JsOrdered KeySorter.

(** C5 at the document [{"__proto__": 1}]: whatever the collator, the sorted
    copy is the empty object.  The assignment [sorted["__proto__"] = 1]
    creates no property, so the key and its leaf are lost, and the copy is
    not the document up to the order of keys. *)
Theorem sortObjectKeys_drops_proto_key (localeCompare : string -> string -> comparison) :
  let v : json Z := JObject [("__proto__", JNumber 1%Z)] in
  unique_keys v = true /\
  sortObjectKeys localeCompare v = JObject [] /\
  ~ same_up_to_key_order v (sortObjectKeys localeCompare v).
Proof.
  intros v. split_and!; [reflexivity|reflexivity|].
  intros Hsame. inversion Hsame as [| | | | |es es' fs Hall Hperm]; subst.
  apply Permutation_nil_r in Hperm. subst es'. inversion Hall.
Qed.

Import Js SchemaInference JsonUtils JsonFormatter ErrorParser JsObject ExportFormats JsOrdered KeySorter.

(** ** Schema inference: invariants of the inferred tree *)

Section SchemaInvariants.
Import Js SchemaInference SchemaFormat.

Lemma mergeSchemaNodes_children target source :
  children (mergeSchemaNodes target source) =
  match children source with
  | Some sc =>
      Some (mergeChildren sc (match children target with Some tc => tc | None => [] end))
  | None => children target
  end.
Proof. destruct source as [ts [cs|] it occ inc]; reflexivity. Qed.

Lemma mergeSchemaNodes_items target source :
  items (mergeSchemaNodes target source) =
  match items source with
  | Some si =>
      match items target with
      | None => Some si
      | Some ti => Some (mergeSchemaNodes ti si)
      end
  | None => items target
  end.
Proof. destruct source as [ts cs [it|] occ inc]; reflexivity. Qed.

Lemma collectInconsistentPaths_unfold node currentPath paths :
  collectInconsistentPaths node currentPath paths =
  let paths1 :=
    if hasInconsistentTypes node then paths ++ [path_or_root currentPath] else paths in
  let paths2 :=
    match children node with
    | Some cs => collectChildren currentPath cs paths1
    | None => paths1
    end in
  match items node with
  | Some it => collectInconsistentPaths it (itemPathOf currentPath) paths2
  | None => paths2
  end.
Proof. destruct node as [ts [cs|] it occ inc]; reflexivity. Qed.

Lemma every_node_unfold P n :
  every_node P n <->
  P n /\
  match children n with
  | Some cs => Forall (fun e => every_node P (snd e)) cs
  | None => True
  end /\
  match items n with
  | Some it => every_node P it
  | None => True
  end.
Proof.
  destruct n as [ts cs it occ inc]. simpl.
  destruct cs as [cs|]; [|tauto].
  assert (Hall : (fix all (l : list (string * SchemaNode)) : Prop :=
                    match l with
                    | [] => True
                    | (_, c) :: l' => every_node P c /\ all l'
                    end) cs <-> Forall (fun e => every_node P (snd e)) cs).
  { induction cs as [|[k c] cs IH]; simpl.
    - rewrite Forall_nil. tauto.
    - rewrite Forall_cons. simpl. tauto. }
  rewrite Hall. tauto.
Qed.

Lemma every_node_top P n : every_node P n -> P n.
Proof. intros H. apply every_node_unfold in H. tauto. Qed.

Lemma Map_get_Forall {V} (Q : V -> Prop) (m : list (string * V)) key v :
  Forall (fun e => Q (snd e)) m -> Map_get m key = Some v -> Q v.
Proof.
  induction m as [|[k w] m IH]; simpl; [discriminate|].
  intros [Hw Hm]%Forall_cons. destruct (decide (k = key)).
  - intros [= <-]. exact Hw.
  - apply IH, Hm.
Qed.

Section Preservation.
Variable P : SchemaNode -> Prop.
Hypothesis P_merge : forall t s, P t -> P s -> P (mergeSchemaNodes t s).

(** A property that merging keeps at the top is kept at every node. *)
Lemma every_node_merge source :
  forall target,
    every_node P target -> every_node P source ->
    every_node P (mergeSchemaNodes target source).
Proof.
  induction source as [ts cs it occ inc IHcs IHit] using SchemaNode_ind.
  intros target Ht Hs.
  apply every_node_unfold in Ht as (HPt & Htc & Hti).
  pose proof (every_node_top _ _ Hs) as HPs.
  apply every_node_unfold in Hs as (_ & Hsc & Hsi). simpl in Hsc, Hsi.
  apply every_node_unfold. split_and!.
  - apply P_merge; assumption.
  - rewrite mergeSchemaNodes_children. simpl.
    destruct cs as [cs|]; [|exact Htc].
    assert (Htc' : Forall (fun e => every_node P (snd e))
                     (match children target with Some tc => tc | None => [] end)).
    { destruct (children target); [exact Htc|constructor]. }
    clear Htc HPs. revert Htc'.
    generalize (match children target with Some tc => tc | None => [] end).
    induction cs as [|[key child] cs IH]; intros tc Htc; [exact Htc|].
    apply Forall_cons in IHcs as [Hchild IHcs].
    apply Forall_cons in Hsc as [Hc Hsc]. simpl in Hchild, Hc. simpl.
    apply IH; [exact IHcs|exact Hsc|].
    destruct (Map_get tc key) as [t|] eqn:Hget.
    + apply Forall_Map_set; [exact Htc|].
      apply Hchild; [|exact Hc].
      apply (Map_get_Forall (every_node P) tc key t Htc Hget).
    + apply Forall_Map_set; assumption.
  - rewrite mergeSchemaNodes_items. simpl.
    destruct it as [it|]; [|exact Hti].
    destruct (items target) as [ti|]; [|exact Hsi].
    apply IHit; assumption.
Qed.

Hypothesis P_empty : P createEmptyNode.
Hypothesis P_inferred : forall number (v : json number), P (inferSchemaFromValue v).

Lemma every_node_fold_merge l : forall acc,
  every_node P acc -> Forall (every_node P) l ->
  every_node P (fold_left mergeSchemaNodes l acc).
Proof.
  induction l as [|n l IH]; intros acc Hacc Hl; [exact Hacc|].
  apply Forall_cons in Hl as [Hn Hl]. simpl.
  apply IH; [|exact Hl]. apply every_node_merge; assumption.
Qed.

Lemma inferSchemaFromValue_items {number} (v : json number) :
  items (inferSchemaFromValue v) =
  match v with
  | JArray (x :: arr) =>
      Some (fold_left mergeSchemaNodes (map inferSchemaFromValue (x :: arr))
              createEmptyNode)
  | _ => None
  end.
Proof. destruct v as [| | | |[|]|]; reflexivity. Qed.

Lemma every_node_inferSchemaFromValue {number} (v : json number) :
  every_node P (inferSchemaFromValue v).
Proof.
  induction v as [|b|n|s|vs IH|es IH] using json_ind;
    apply every_node_unfold;
    rewrite inferSchemaFromValue_children, inferSchemaFromValue_items;
    try (split_and!; [apply P_inferred|exact I|exact I]).
  - split_and!; [apply P_inferred|exact I|].
    destruct vs as [|x vs]; [exact I|].
    apply every_node_fold_merge.
    + apply every_node_unfold. simpl. auto.
    + apply Forall_fmap. exact IH.
  - split_and!; [apply P_inferred| |exact I].
    assert (Hgen : forall acc,
      Forall (fun e : string * SchemaNode => every_node P (snd e)) acc ->
      Forall (fun e : string * SchemaNode => every_node P (snd e))
        (fold_left (fun m kv => Map_set m (fst kv) (snd kv))
           (map (fun kv => (fst kv, inferSchemaFromValue (snd kv))) es) acc)).
    { induction es as [|[k x] es IHes]; intros acc Hacc; simpl; [done|].
      apply Forall_cons in IH as [Hx Hes].
      apply IHes; [done|]. apply Forall_Map_set; done. }
    apply Hgen. constructor.
Qed.

End Preservation.

End SchemaInvariants.

Section SchemaMore.
Import Js SchemaInference SchemaFormat.

Lemma flag_derived_merge t s : flag_derived (mergeSchemaNodes t s).
Proof. apply mergeSchemaNodes_hasInconsistentTypes. Qed.

Lemma flag_derived_inferred {number} (v : json number) :
  flag_derived (inferSchemaFromValue v).
Proof.
  unfold flag_derived.
  rewrite inferSchemaFromValue_consistent, inferSchemaFromValue_types.
  destruct (getJsonType v); reflexivity.
Qed.

Lemma shape_ok_merge t s :
  shape_ok t -> shape_ok s -> shape_ok (mergeSchemaNodes t s).
Proof.
  intros (Hnt & Hct & Hit) (Hns & Hcs & His). unfold shape_ok.
  rewrite mergeSchemaNodes_types, mergeSchemaNodes_children, mergeSchemaNodes_items.
  split_and!.
  - apply NoDup_fold_Set_add, Hnt.
  - rewrite elem_of_fold_Set_add, <- Hct, <- Hcs.
    destruct (children s) as [sc|].
    + split; [intros _; right; eexists; reflexivity|intros _; eexists; reflexivity].
    + split; [auto|]. intros [H|[x Hx]]; [exact H|discriminate Hx].
  - rewrite elem_of_fold_Set_add.
    destruct (items s) as [si|].
    + intros _. right. apply His. eexists. reflexivity.
    + intros H. left. apply Hit, H.
Qed.

Lemma shape_ok_inferred {number} (v : json number) :
  shape_ok (inferSchemaFromValue v).
Proof.
  unfold shape_ok.
  rewrite inferSchemaFromValue_types, inferSchemaFromValue_children,
    inferSchemaFromValue_items.
  split_and!.
  - apply NoDup_singleton.
  - rewrite list_elem_of_singleton.
    destruct v; simpl; split; try discriminate; try (intros [x Hx]; discriminate Hx);
      try (intros _; reflexivity); intros _; eexists; reflexivity.
  - rewrite list_elem_of_singleton.
    destruct v as [| | | |[|x vs]|]; simpl; try (intros [x' Hx]; discriminate Hx).
    intros _. reflexivity.
Qed.

Lemma shape_ok_empty : shape_ok createEmptyNode.
Proof.
  unfold shape_ok. simpl. split_and!.
  - apply NoDup_nil_2.
  - split; [intros [x Hx]; discriminate Hx|intros H%elem_of_nil; done].
  - intros [x Hx]. discriminate Hx.
Qed.

(** *** Occurrences *)

Lemma occurrences_fold_merge l : forall acc,
  occurrences (fold_left mergeSchemaNodes l acc) =
  occurrences acc + list_sum (map occurrences l).
Proof.
  induction l as [|n l IH]; intros acc; simpl; [lia|].
  rewrite IH, mergeSchemaNodes_occurrences. lia.
Qed.

Lemma occurrences_inferred {number} (v : json number) :
  occurrences (inferSchemaFromValue v) = 1.
Proof. destruct v as [| | | |[|]|]; reflexivity. Qed.

(** *** Display of the tags *)

Lemma merge_sort_Permutation_eq (l1 l2 : list string) :
  l1 ≡ₚ l2 -> merge_sort String.le l1 = merge_sort String.le l2.
Proof.
  intros Hp. apply (Sorted_unique String.le).
  - apply Sorted_merge_sort. apply _.
  - apply Sorted_merge_sort. apply _.
  - rewrite !merge_sort_Permutation. exact Hp.
Qed.

(** *** Reported paths *)

Lemma collectChildren_acc p cs :
  Forall (fun e => acc_free (snd e)) cs ->
  forall paths, collectChildren p cs paths = paths ++ collectChildren p cs [].
Proof.
  induction 1 as [|[k c] cs Hc _ IH]; intros paths; simpl.
  - rewrite app_nil_r. reflexivity.
  - simpl in Hc. rewrite IH, (IH (collectInconsistentPaths c _ [])), (Hc _ paths).
    rewrite app_assoc. reflexivity.
Qed.

Lemma collectInconsistentPaths_acc n : acc_free n.
Proof.
  induction n as [ts cs it occ inc IHcs IHit] using SchemaNode_ind.
  intros p paths. rewrite !collectInconsistentPaths_unfold. simpl.
  set (here := if inc then [path_or_root p] else []).
  assert (H1 : forall acc, (if inc then acc ++ [path_or_root p] else acc) = acc ++ here).
  { intros acc. subst here. destruct inc; [reflexivity|rewrite app_nil_r; reflexivity]. }
  rewrite !H1. simpl.
  set (below := match cs with Some cs => collectChildren p cs [] | None => [] end).
  assert (H2 : forall acc,
    match cs with Some cs => collectChildren p cs acc | None => acc end = acc ++ below).
  { intros acc. subst below. destruct cs as [cs|]; [|rewrite app_nil_r; reflexivity].
    apply collectChildren_acc, IHcs. }
  rewrite !H2. destruct it as [it|].
  - rewrite (IHit _ ((paths ++ here) ++ below)), (IHit _ (here ++ below)).
    rewrite !app_assoc. reflexivity.
  - rewrite !app_assoc. reflexivity.
Qed.

(** The paths a call reports: the node's own, those of its children, those of
    its item schema. *)
Lemma collectInconsistentPaths_parts n p :
  collectInconsistentPaths n p [] =
  (if hasInconsistentTypes n then [path_or_root p] else []) ++
  match children n with Some cs => collectChildren p cs [] | None => [] end ++
  match items n with
  | Some it => collectInconsistentPaths it (itemPathOf p) []
  | None => []
  end.
Proof.
  rewrite collectInconsistentPaths_unfold. cbv zeta.
  set (here := if hasInconsistentTypes n then [path_or_root p] else []).
  assert (H1 : (if hasInconsistentTypes n then [] ++ [path_or_root p] else []) = here).
  { subst here. destruct (hasInconsistentTypes n); reflexivity. }
  rewrite H1.
  assert (H2 : match children n with Some cs => collectChildren p cs here | None => here end =
               here ++ match children n with Some cs => collectChildren p cs [] | None => [] end).
  { destruct (children n) as [cs|]; [|rewrite app_nil_r; reflexivity].
    apply collectChildren_acc. apply Forall_forall. intros ? _. apply collectInconsistentPaths_acc. }
  rewrite H2. destruct (items n) as [it|].
  - rewrite collectInconsistentPaths_acc, app_assoc. reflexivity.
  - rewrite !app_nil_r. reflexivity.
Qed.

Lemma collectChildren_cons p k c cs :
  collectChildren p ((k, c) :: cs) [] =
  collectInconsistentPaths c (childPathOf p k) [] ++ collectChildren p cs [].
Proof.
  simpl. apply collectChildren_acc. apply Forall_forall. intros ? _.
  apply collectInconsistentPaths_acc.
Qed.

Lemma collectChildren_nil_iff p cs :
  collectChildren p cs [] = [] <->
  Forall (fun e => collectInconsistentPaths (snd e) (childPathOf p (fst e)) [] = []) cs.
Proof.
  induction cs as [|[k c] cs IH].
  - simpl. rewrite Forall_nil. tauto.
  - rewrite collectChildren_cons, Forall_cons, <- IH. simpl.
    split; [intros [H1 H2]%app_eq_nil; auto|intros [-> ->]; reflexivity].
Qed.

Lemma collectInconsistentPaths_nil_iff n :
  forall p, collectInconsistentPaths n p [] = [] <-> every_node unflagged n.
Proof.
  induction n as [ts cs it occ inc IHcs IHit] using SchemaNode_ind.
  intros p. rewrite collectInconsistentPaths_parts, every_node_unfold. simpl.
  unfold unflagged at 1. simpl.
  assert (Hc : match cs with Some cs => collectChildren p cs [] | None => [] end = [] <->
               match cs with
               | Some cs => Forall (fun e => every_node unflagged (snd e)) cs
               | None => True
               end).
  { destruct cs as [cs|]; [|tauto]. rewrite collectChildren_nil_iff.
    rewrite !Forall_forall. rewrite Forall_forall in IHcs.
    split; intros H e He.
    - apply (proj1 (IHcs e He (childPathOf p (fst e)))), H, He.
    - apply (proj2 (IHcs e He (childPathOf p (fst e)))), H, He. }
  assert (Hi : match it with
               | Some it => collectInconsistentPaths it (itemPathOf p) []
               | None => []
               end = [] <->
               match it with Some it => every_node unflagged it | None => True end).
  { destruct it as [it|]; [apply IHit|tauto]. }
  rewrite <- Hc, <- Hi. destruct inc; simpl.
  - split; [discriminate|intros [H _]; discriminate H].
  - split; [intros [H1 H2]%app_eq_nil; auto|intros (_ & -> & ->); reflexivity].
Qed.

(** Below a non-empty path, every reported path continues it. *)
Lemma collectInconsistentPaths_prefix n :
  forall p, p <> "" ->
    Forall (fun q => exists t, q = p +:+ t) (collectInconsistentPaths n p []).
Proof.
  induction n as [ts cs it occ inc IHcs IHit] using SchemaNode_ind.
  intros p Hp. rewrite collectInconsistentPaths_parts. simpl.
  rewrite !Forall_app. split_and!.
  - destruct inc; [|constructor]. apply Forall_singleton. exists "".
    rewrite app_nil_r_s. destruct p; [done|reflexivity].
  - destruct cs as [cs|]; [|constructor].
    induction cs as [|[k c] cs IH]; [constructor|].
    apply Forall_cons in IHcs as [Hc Hcs]. rewrite collectChildren_cons.
    apply Forall_app. split; [|apply IH, Hcs].
    simpl in Hc. eapply Forall_impl; [apply (Hc (childPathOf p k))|].
    + destruct p; [done|discriminate].
    + intros q [t ->]. exists ("." +:+ k +:+ t).
      destruct p; [done|]. unfold childPathOf. rewrite !app_assoc_s. reflexivity.
  - destruct it as [it|]; [|constructor].
    eapply Forall_impl; [apply (IHit (itemPathOf p))|].
    + destruct p; discriminate.
    + intros q [t ->]. exists ("[]" +:+ t).
      destruct p; [done|]. unfold itemPathOf. rewrite !app_assoc_s. reflexivity.
Qed.

(** What the item schema of a merged list has seen. *)
Lemma types_fold_merge l : forall acc t,
  t ∈ types (fold_left mergeSchemaNodes l acc) <->
  t ∈ types acc \/ exists n, n ∈ l /\ t ∈ types n.
Proof.
  induction l as [|n l IH]; intros acc t; simpl.
  - split; [auto|]. intros [H|(n & Hn & _)]; [exact H|]. apply elem_of_nil in Hn. done.
  - rewrite IH, mergeSchemaNodes_types, elem_of_fold_Set_add. split.
    + intros [[H|H]|(m & Hm & Ht)]; [auto| |].
      * right. exists n. split; [apply list_elem_of_here|exact H].
      * right. exists m. split; [apply list_elem_of_further, Hm|exact Ht].
    + intros [H|(m & Hm & Ht)]; [auto|].
      apply elem_of_cons in Hm as [->|Hm]; [auto|]. right. exists m. auto.
Qed.

Lemma NoDup_two {A} `{EqDecision A} (l : list A) :
  NoDup l -> (1 < length l <-> exists a b, a ∈ l /\ b ∈ l /\ a <> b).
Proof.
  intros Hnd. split.
  - destruct l as [|a [|b l]]; simpl; try lia. intros _.
    exists a, b. split_and!; [apply list_elem_of_here|apply list_elem_of_further, list_elem_of_here|].
    apply NoDup_cons in Hnd as [Ha _]. intros ->. apply Ha, list_elem_of_here.
  - intros (a & b & Ha & Hb & Hne).
    destruct l as [|x [|y l]]; simpl; [| |lia].
    + apply elem_of_nil in Ha. done.
    + apply list_elem_of_singleton in Ha, Hb. congruence.
Qed.

End SchemaMore.

Section SchemaDetection.
Import Js SchemaInference SchemaFormat.

Lemma every_node_impl (P Q : SchemaNode -> Prop) n :
  (forall m, P m -> Q m) -> every_node P n -> every_node Q n.
Proof.
  intros HPQ. induction n as [ts cs it occ inc IHcs IHit] using SchemaNode_ind.
  rewrite !every_node_unfold. simpl. intros (HP & Hcs & Hit). split_and!.
  - apply HPQ, HP.
  - destruct cs as [cs|]; [|exact I].
    rewrite Forall_forall in IHcs, Hcs. apply Forall_forall. intros e He.
    apply IHcs; [exact He|apply Hcs, He].
  - destruct it as [it|]; [apply IHit, Hit|exact I].
Qed.

Lemma items_node_of_array {number} (x : json number) arr :
  let it := fold_left mergeSchemaNodes (map inferSchemaFromValue (x :: arr)) createEmptyNode in
  inferSchemaFromValue (JArray (x :: arr)) = mkSchemaNode [TArray] None (Some it) 1 false /\
  flag_derived it /\ NoDup (types it) /\
  (forall t, t ∈ types it <-> exists v, v ∈ x :: arr /\ getJsonType v = t).
Proof.
  intros it. split_and!.
  - reflexivity.
  - apply every_node_top. subst it. apply every_node_fold_merge.
    + intros t s _ _. apply flag_derived_merge.
    + apply every_node_unfold. simpl. split_and!; [reflexivity|exact I|exact I].
    + apply Forall_fmap, Forall_forall. intros v _.
      apply every_node_inferSchemaFromValue.
      * intros t s _ _. apply flag_derived_merge.
      * reflexivity.
      * intros ? ?. apply flag_derived_inferred.
  - assert (Hs : shape_ok it); [|apply Hs].
    apply every_node_top. subst it. apply every_node_fold_merge.
    + apply shape_ok_merge.
    + apply every_node_unfold. simpl. split_and!; [apply shape_ok_empty|exact I|exact I].
    + apply Forall_fmap, Forall_forall. intros v _.
      apply every_node_inferSchemaFromValue.
      * apply shape_ok_merge.
      * apply shape_ok_empty.
      * intros ? ?. apply shape_ok_inferred.
  - intros t. subst it. rewrite types_fold_merge. split.
    + intros [H|(n & Hn & Ht)]; [apply elem_of_nil in H; done|].
      apply (list_elem_of_fmap inferSchemaFromValue) in Hn as (v & -> & Hv).
      rewrite inferSchemaFromValue_types in Ht. apply list_elem_of_singleton in Ht.
      exists v. auto.
    + intros (v & Hv & <-). right. exists (inferSchemaFromValue v). split.
      * apply (list_elem_of_fmap inferSchemaFromValue). exists v. auto.
      * rewrite inferSchemaFromValue_types. apply list_elem_of_here.
Qed.

Lemma collect_below_strict n p :
  p <> "" ->
  Forall (fun q => q <> p)
    (match children n with Some cs => collectChildren p cs [] | None => [] end ++
     match items n with
     | Some it => collectInconsistentPaths it (itemPathOf p) []
     | None => []
     end).
Proof.
  intros Hp. apply Forall_app. split.
  - destruct (children n) as [cs|]; [|constructor].
    induction cs as [|[k c] cs IH]; [constructor|].
    rewrite collectChildren_cons. apply Forall_app. split; [|exact IH].
    eapply Forall_impl; [apply (collectInconsistentPaths_prefix c (childPathOf p k))|].
    + destruct p; [done|discriminate].
    + intros q [t ->] Heq. destruct p as [|a p]; [done|].
      unfold childPathOf in Heq. rewrite !app_assoc_s in Heq.
      apply app_eq_self in Heq. discriminate Heq.
  - destruct (items n) as [it|]; [|constructor].
    eapply Forall_impl; [apply (collectInconsistentPaths_prefix it (itemPathOf p))|].
    + destruct p; discriminate.
    + intros q [t ->] Heq. destruct p as [|a p]; [done|].
      unfold itemPathOf in Heq. rewrite !app_assoc_s in Heq.
      apply app_eq_self in Heq. discriminate Heq.
Qed.

End SchemaDetection.

Import Js SchemaInference SchemaFormat.

(** X1.  In the schema inferred for any document, every node is flagged
    exactly when it holds more than one tag other than [null]. *)
Theorem inferSchema_flags_derived {number} (data : json number) :
  every_node flag_derived (root (inferSchema data)).
Proof.
  apply every_node_inferSchemaFromValue.
  - intros t s _ _. apply flag_derived_merge.
  - reflexivity.
  - intros ? ?. apply flag_derived_inferred.
Qed.

(** X2.  In the schema inferred for any document, every node lists each tag
    once, has a map of children exactly when [object] is among its tags, and
    has an item schema only when [array] is among them. *)
Theorem inferSchema_shape {number} (data : json number) :
  every_node shape_ok (root (inferSchema data)).
Proof.
  apply every_node_inferSchemaFromValue.
  - apply shape_ok_merge.
  - apply shape_ok_empty.
  - intros ? ?. apply shape_ok_inferred.
Qed.

(** X3.  The root counts one occurrence, and the item schema of an array
    counts one occurrence per element; an empty array has no item schema. *)
Theorem inferSchema_occurrences {number} (arr : list (json number)) (data : json number) :
  occurrences (root (inferSchema data)) = 1 /\
  occurrences <$> items (root (inferSchema (JArray arr))) =
  match arr with
  | [] => None
  | _ :: _ => Some (length arr)
  end.
Proof.
  split; [apply occurrences_inferred|].
  destruct arr as [|x arr]; [reflexivity|].
  unfold inferSchema. cbn [root]. rewrite inferSchemaFromValue_items.
  cbn [fmap option_fmap option_map]. f_equal.
  rewrite occurrences_fold_merge. simpl.
  rewrite occurrences_inferred. f_equal.
  induction arr as [|y arr IH]; [reflexivity|].
  simpl. rewrite occurrences_inferred, IH. reflexivity.
Qed.

(** X4.  The display string of a set of tags does not depend on the order in
    which the tags were seen. *)
Theorem formatTypes_Permutation (types1 types2 : list JsonType) :
  types1 ≡ₚ types2 -> formatTypes types1 = formatTypes types2.
Proof.
  intros Hp. unfold formatTypes. f_equal.
  apply merge_sort_Permutation_eq. rewrite Hp. reflexivity.
Qed.

Lemma formatTypes_Permutation_witness :
  [TString; TNull; TNumber] ≡ₚ [TNumber; TString; TNull] /\
  formatTypes [TString; TNull; TNumber] = formatTypes [TNumber; TString; TNull] /\
  formatTypes [TString; TNull; TNumber] = "null | number | string".
Proof.
  assert (Hp : [TString; TNull; TNumber] ≡ₚ [TNumber; TString; TNull]).
  { change ([TString; TNull] ++ [TNumber] ≡ₚ [TNumber] ++ [TString; TNull]).
    apply Permutation_app_comm. }
  split; [exact Hp|]. split; [|reflexivity].
  apply (formatTypes_Permutation _ _ Hp).
Defined.

(** No path is reported exactly when no node of the inferred schema holds
    more than one tag other than [null]. *)
Lemma inconsistentPaths_nil_iff {number} (data : json number) :
  inconsistentPaths (inferSchema data) = [] <->
  every_node (fun n => length (filter (fun t => t <> TNull) (types n)) <= 1)
    (root (inferSchema data)).
Proof.
  unfold inferSchema. cbn [inconsistentPaths root].
  rewrite collectInconsistentPaths_nil_iff.
  pose proof (inferSchema_flags_derived data) as Hflags.
  unfold inferSchema in Hflags. cbn [root] in Hflags.
  revert Hflags. generalize (inferSchemaFromValue data). clear data.
  intros n. induction n as [ts cs it occ inc IHcs IHit] using SchemaNode_ind.
  rewrite !every_node_unfold. simpl. intros (Hf & Hcs & Hit).
  unfold flag_derived in Hf. simpl in Hf. unfold unflagged at 1. simpl.
  assert (Hc : match cs with
               | Some cs => Forall (fun e => every_node unflagged (snd e)) cs
               | None => True
               end <->
               match cs with
               | Some cs =>
                   Forall (fun e => every_node
                     (fun n => length (filter (fun t => t <> TNull) (types n)) <= 1)
                     (snd e)) cs
               | None => True
               end).
  { destruct cs as [cs|]; [|tauto].
    rewrite !Forall_forall. rewrite Forall_forall in IHcs, Hcs.
    split; intros H e He; apply (IHcs e He (Hcs e He)), H, He. }
  assert (Hi : match it with Some it => every_node unflagged it | None => True end <->
               match it with
               | Some it => every_node
                   (fun n => length (filter (fun t => t <> TNull) (types n)) <= 1) it
               | None => True
               end).
  { destruct it as [it|]; [apply IHit, Hit|tauto]. }
  rewrite Hc, Hi, Hf.
  assert (Hb : bool_decide (1 < length (filter (fun t => t <> TNull) ts)) = false <->
               length (filter (fun t => t <> TNull) ts) <= 1).
  { rewrite bool_decide_eq_false. lia. }
  rewrite Hb. tauto.
Qed.

Lemma elem_of_collectChildren p cs x :
  x ∈ collectChildren p cs [] <->
  exists key child, (key, child) ∈ cs /\
    x ∈ collectInconsistentPaths child (childPathOf p key) [].
Proof.
  induction cs as [|[k c] cs IH].
  - simpl. split; [intros Hx; inversion Hx|intros (? & ? & Hin & _); inversion Hin].
  - rewrite collectChildren_cons, elem_of_app, IH. split.
    + intros [Hx|(key & child & Hin & Hx)].
      * exists k, c. split; [left|exact Hx].
      * exists key, child. split; [right; exact Hin|exact Hx].
    + intros (key & child & Hin & Hx). apply elem_of_cons in Hin as [Heq|Hin].
      * injection Heq as Hk Hc. subst key child. left. exact Hx.
      * right. eauto.
Qed.

(** The reported paths are the paths of the flagged nodes of the tree. *)
Lemma elem_of_collectInconsistentPaths n : forall p x,
  x ∈ collectInconsistentPaths n p [] <->
  exists m q, node_at n p m q /\ hasInconsistentTypes m = true /\ x = path_or_root q.
Proof.
  induction n as [ts cs it occ inc IHcs IHit] using SchemaNode_ind.
  intros p x. rewrite collectInconsistentPaths_parts. cbn [hasInconsistentTypes children items].
  rewrite !elem_of_app. split.
  - intros [Hx|[Hx|Hx]].
    + destruct inc; [|inversion Hx]. apply list_elem_of_singleton in Hx.
      eexists _, p. split; [apply node_here|]. split; [reflexivity|exact Hx].
    + destruct cs as [cs|]; [|inversion Hx].
      apply elem_of_collectChildren in Hx as (key & child & Hin & Hx).
      rewrite Forall_forall in IHcs.
      apply (IHcs (key, child) Hin) in Hx as (m & q & Hat & Hm & Hq).
      exists m, q. split; [|auto].
      eapply node_child; [reflexivity|exact Hin|exact Hat].
    + destruct it as [it|]; [|inversion Hx].
      apply IHit in Hx as (m & q & Hat & Hm & Hq).
      exists m, q. split; [|auto]. eapply node_item; [reflexivity|exact Hat].
  - intros (m & q & Hat & Hm & Hq).
    inversion Hat as [n0 p0|n0 p0 cs0 key child m0 q0 Hcs Hin Hbelow|n0 p0 it0 m0 q0 Hit Hbelow];
      simplify_eq/=.
    + left. apply list_elem_of_singleton. reflexivity.
    + right. left.
      apply elem_of_collectChildren. exists key, child. split; [exact Hin|].
      rewrite Forall_forall in IHcs. apply (IHcs (key, child) Hin). eauto.
    + right. right. apply IHit. eauto.
Qed.

Lemma every_node_at P n p m q : node_at n p m q -> every_node P n -> P m.
Proof.
  induction 1 as [n p|n p cs key child m q Hcs Hin _ IH|n p it m q Hit _ IH];
    rewrite every_node_unfold; intros (Hn & Hchildren & Hitems).
  - exact Hn.
  - rewrite Hcs in Hchildren. rewrite Forall_forall in Hchildren.
    apply IH, (Hchildren (key, child) Hin).
  - rewrite Hit in Hitems. apply IH, Hitems.
Qed.

(** X5.  The reported paths are exactly the paths of the nodes of the
    inferred schema, at any depth, that hold more than one tag other than
    [null] ([(root)] standing for the empty path): every such node is
    reported and nothing else is.  So no path is reported exactly when no
    node holds more than one such tag. *)
Theorem inconsistentPaths_reported {number} (data : json number) (path : string) :
  (path ∈ inconsistentPaths (inferSchema data) <->
   exists m q, node_at (root (inferSchema data)) "" m q /\
               1 < length (filter (fun t => t <> TNull) (types m)) /\
               path = path_or_root q) /\
  (inconsistentPaths (inferSchema data) = [] <->
   every_node (fun n => length (filter (fun t => t <> TNull) (types n)) <= 1)
     (root (inferSchema data))).
Proof.
  split; [|apply inconsistentPaths_nil_iff].
  pose proof (inferSchema_flags_derived data) as Hflags.
  unfold inferSchema in *. cbn [inconsistentPaths root] in *.
  rewrite elem_of_collectInconsistentPaths.
  split; intros (m & q & Hat & Hm & Hq); exists m, q; (split; [exact Hat|]);
    (split; [|exact Hq]);
    pose proof (every_node_at _ _ _ _ _ Hat Hflags) as Hd; unfold flag_derived in Hd.
  - rewrite Hm in Hd. symmetry in Hd. apply bool_decide_eq_true in Hd. exact Hd.
  - rewrite Hd. apply bool_decide_eq_true. exact Hm.
Qed.

(** X6.  For an array document, the path [[]] is reported exactly when two
    of the elements have different types, neither of them [null]. *)
Theorem array_items_inconsistency {number} (arr : list (json number)) :
  "[]" ∈ inconsistentPaths (inferSchema (JArray arr)) <->
  exists x y, x ∈ arr /\ y ∈ arr /\
    getJsonType x <> TNull /\ getJsonType y <> TNull /\
    getJsonType x <> getJsonType y.
Proof.
  destruct arr as [|x0 arr].
  { split; [intros H; apply elem_of_nil in H; done|].
    intros (x & _ & Hx & _). apply elem_of_nil in Hx. done. }
  destruct (items_node_of_array x0 arr) as (Hroot & Hflag & Hnd & Htypes).
  set (it := fold_left mergeSchemaNodes (map inferSchemaFromValue (x0 :: arr))
               createEmptyNode) in *.
  unfold inferSchema. cbn [inconsistentPaths]. rewrite Hroot.
  rewrite collectInconsistentPaths_parts. cbn [hasInconsistentTypes children items].
  change (itemPathOf "") with "[]". rewrite !app_nil_l.
  rewrite collectInconsistentPaths_parts. change (path_or_root "[]") with "[]".
  pose proof (collect_below_strict it "[]") as Hbelow.
  rewrite elem_of_app.
  assert (Hhere : "[]" ∈ (if hasInconsistentTypes it then ["[]"] else []) <->
                  hasInconsistentTypes it = true).
  { destruct (hasInconsistentTypes it); split; try done.
    - intros _. apply list_elem_of_here.
    - intros H. apply elem_of_nil in H. done. }
  assert (Hrest : ~ "[]" ∈
            (match children it with Some cs => collectChildren "[]" cs [] | None => [] end ++
             match items it with
             | Some it' => collectInconsistentPaths it' (itemPathOf "[]") []
             | None => []
             end)).
  { intros Hin. rewrite Forall_forall in Hbelow. apply (Hbelow ltac:(discriminate) _ Hin).
    reflexivity. }
  rewrite Hhere, Hflag, bool_decide_eq_true.
  rewrite (NoDup_two _ (NoDup_filter _ _ Hnd)).
  split.
  - intros [(a & b & Ha & Hb & Hne)|Hin]; [|contradiction].
    apply list_elem_of_filter in Ha as [Han (x & Hx & <-)%Htypes].
    apply list_elem_of_filter in Hb as [Hbn (y & Hy & <-)%Htypes].
    exists x, y. auto.
  - intros (x & y & Hx & Hy & Hxn & Hyn & Hne). left.
    exists (getJsonType x), (getJsonType y). split_and!; [| |exact Hne].
    + apply list_elem_of_filter. split; [exact Hxn|]. apply Htypes. eauto.
    + apply list_elem_of_filter. split; [exact Hyn|]. apply Htypes. eauto.
Qed.

(** ** Search: the matches are the visited places whose text holds the query *)

Section SearchFilter.
Import Js JsonUtils SearchView.
Context {number : Type} `{NumberOps number}.

Section Filter.
Variable searchQuery : string.
Variable caseSensitive : bool.

#[local] Abbreviation holds :=
  (fun m : SearchMatch => includes (fold_case caseSensitive (text m)) searchQuery = true).

Lemma push_if_filter t m :
  fold_case caseSensitive (text m) = t ->
  push_if (includes t searchQuery) m [] = filter holds (push_if (includes t "") m []).
Proof.
  intros <-. rewrite includes_empty. simpl. rewrite filter_cons, filter_nil.
  destruct (decide _) as [Hd|Hd].
  - rewrite Hd. reflexivity.
  - apply not_true_is_false in Hd. rewrite Hd. reflexivity.
Qed.

Lemma search_filter (v : json number) p :
  search searchQuery caseSensitive v p [] =
  filter holds (search "" caseSensitive v p []).
Proof.
  revert p. induction v as [|b|n|s|vs IH|es IH] using json_ind; intros p.
  - apply (push_if_filter "null" (mkSearchMatch p Value "null")).
    destruct caseSensitive; reflexivity.
  - apply (push_if_filter _ (mkSearchMatch p Value (if b then "true" else "false"))).
    reflexivity.
  - apply (push_if_filter _ (mkSearchMatch p Value (numberToString n))). reflexivity.
  - apply (push_if_filter _ (mkSearchMatch p Value s)). reflexivity.
  - rewrite !search_JArray. generalize 0.
    induction IH as [|x vs Hx _ IHvs]; intros idx; [reflexivity|].
    rewrite !search_items_cons, filter_app, <- Hx, <- IHvs. reflexivity.
  - rewrite !search_JObject.
    induction IH as [|[k x] es Hx _ IHes]; [reflexivity|].
    rewrite !search_entries_cons, !filter_app. simpl in Hx.
    rewrite <- Hx, <- IHes. f_equal.
    apply (push_if_filter _ (mkSearchMatch (keyPathOf p k) Key k)). reflexivity.
Qed.

End Filter.

(** With the empty query the flag [caseSensitive] makes no difference. *)
Lemma search_empty_query_flag (v : json number) p :
  search "" true v p [] = search "" false v p [].
Proof.
  revert p. induction v as [|b|n|s|vs IH|es IH] using json_ind; intros p;
    try (cbn [search]; rewrite !includes_empty; reflexivity).
  - rewrite !search_JArray. generalize 0.
    induction IH as [|x vs Hx _ IHvs]; intros idx; [reflexivity|].
    rewrite !search_items_cons, Hx, IHvs. reflexivity.
  - rewrite !search_JObject.
    induction IH as [|[k x] es Hx _ IHes]; [reflexivity|].
    rewrite !search_entries_cons. simpl in Hx. rewrite Hx, IHes, !includes_empty.
    reflexivity.
Qed.

Lemma searchJson_as_filter (data : json number) query caseSensitive :
  searchJson data query caseSensitive =
  filter (text_matches query caseSensitive) (searchJson data "" true).
Proof.
  unfold searchJson. cbv zeta.
  change (if caseSensitive then query else toLowerCase query)
    with (fold_case caseSensitive query).
  rewrite search_filter. unfold text_matches.
  destruct caseSensitive; [reflexivity|].
  rewrite search_empty_query_flag. reflexivity.
Qed.

(** X7.  Search, case sensitive or not, returns exactly the places the traversal
    visits (those reported for the empty query: every leaf value and every
    object key, in document order) whose text contains the query, both
    lowered when the search is not case sensitive. *)
Theorem searchJson_filter (data : json number) (query : string) (caseSensitive : bool) :
  searchJson data query caseSensitive =
  filter (text_matches query caseSensitive) (searchJson data "" true).
Proof. apply searchJson_as_filter. Qed.

End SearchFilter.

(** ** The lookup of matches by path *)

Section MatchLookup.
Import Js JsonUtils SearchView.

Lemma Map_get_set_eq {V} (m : list (string * V)) k v : Map_get (Map_set m k v) k = Some v.
Proof.
  induction m as [|[k' v'] m IH]; simpl.
  - rewrite decide_True by reflexivity. reflexivity.
  - destruct (decide (k' = k)) as [->|Hne]; simpl.
    + rewrite decide_True by reflexivity. reflexivity.
    + rewrite decide_False by exact Hne. exact IH.
Qed.

Lemma Map_get_set_ne {V} (m : list (string * V)) k k' v :
  k <> k' -> Map_get (Map_set m k v) k' = Map_get m k'.
Proof.
  intros Hne. induction m as [|[k0 v0] m IH]; simpl.
  - rewrite decide_False by exact Hne. reflexivity.
  - destruct (decide (k0 = k)) as [->|Hne0]; simpl.
    + rewrite !decide_False by exact Hne. reflexivity.
    + destruct (decide (k0 = k')); [reflexivity|exact IH].
Qed.

#[local] Abbreviation flag_step path :=
  (fun (flags : bool * bool) (m : SearchMatch) =>
     if bool_decide (JsonUtils.path m = path)
     then (if bool_decide (type m = Key) then true else fst flags,
           if bool_decide (type m = Value) then true else snd flags)
     else flags).

#[local] Abbreviation set_step :=
  (fun (set : list (string * (bool * bool))) (m : SearchMatch) =>
     let existing :=
       match Map_get set (JsonUtils.path m) with
       | Some e => e
       | None => (false, false)
       end in
     let existing1 :=
       (if bool_decide (type m = Key) then true else fst existing,
        if bool_decide (type m = Value) then true else snd existing) in
     Map_set set (JsonUtils.path m) existing1).

Lemma matchSet_loop p matches : forall set flags,
  nodeMatch set p = flags ->
  nodeMatch (fold_left set_step matches set) p = fold_left (flag_step p) matches flags.
Proof.
  induction matches as [|m matches IH]; intros set flags Hinv; [exact Hinv|].
  simpl. apply IH. unfold nodeMatch in *.
  destruct (bool_decide_reflect (path m = p)) as [Heq|Hne].
  - rewrite <- Heq in *. rewrite Map_get_set_eq, <- Hinv. reflexivity.
  - rewrite Map_get_set_ne by exact Hne. exact Hinv.
Qed.

Lemma isPathMatched_loop p kind matches : forall flags,
  (if kind is Key then fst else snd) (fold_left (flag_step p) matches flags) = true <->
  (if kind is Key then fst else snd) flags = true \/
  exists m, m ∈ matches /\ path m = p /\ type m = kind.
Proof.
  induction matches as [|m matches IH]; intros flags.
  - simpl. split; [auto|]. intros [Hf|(m & Hm & _)]; [exact Hf|]. inversion Hm.
  - cbn [fold_left]. rewrite IH. split.
    + intros [Hf|(m' & Hm' & Hp & Ht)].
      * destruct (bool_decide_reflect (path m = p)) as [Heq|Hne]; [|auto].
        destruct kind; simpl in Hf.
        -- destruct (bool_decide_reflect (type m = Key)) as [Hk|Hk]; [|auto].
           right. exists m. split; [left|auto].
        -- destruct (bool_decide_reflect (type m = Value)) as [Hk|Hk]; [|auto].
           right. exists m. split; [left|auto].
      * right. exists m'. split; [right; exact Hm'|auto].
    + intros [Hf|(m' & Hm' & Hp & Ht)].
      * left. destruct (bool_decide (path m = p)); [|exact Hf].
        destruct kind; simpl; rewrite Hf; destruct (bool_decide _); reflexivity.
      * apply elem_of_cons in Hm' as [->|Hm']; [|right; eauto].
        left. rewrite bool_decide_eq_true_2 by exact Hp.
        destruct kind; simpl; rewrite bool_decide_eq_true_2 by exact Ht; reflexivity.
Qed.

(** X9.  The table [matchSet] that the output view builds once from the matches
    answers, for every path, what [isPathMatched] computes by scanning the
    matches: the key flag is set exactly when some match has that path and
    the kind key, the value flag exactly when some match has that path and the
    kind value. *)
Theorem matchSet_isPathMatched (matches : list SearchMatch) (p : string) :
  nodeMatch (matchSet matches) p = isPathMatched p matches /\
  (fst (isPathMatched p matches) = true <->
     exists m, m ∈ matches /\ path m = p /\ type m = Key) /\
  (snd (isPathMatched p matches) = true <->
     exists m, m ∈ matches /\ path m = p /\ type m = Value).
Proof.
  split; [apply matchSet_loop; reflexivity|].
  unfold isPathMatched. split.
  - rewrite (isPathMatched_loop p Key). simpl. split; [intros [?|?]; [discriminate|assumption]|auto].
  - rewrite (isPathMatched_loop p Value). simpl. split; [intros [?|?]; [discriminate|assumption]|auto].
Qed.

End MatchLookup.

(** ** Replacement of characters: the escaping functions *)

Section EscapeFacts.
Import Js Escapes.

Lemma replace_char_map c r s :
  replace_char c r s = map_chars (fun a => if bool_decide (a = c) then r else str a) s.
Proof. induction s as [|a s IH]; simpl; [reflexivity|]. rewrite IH. reflexivity. Qed.

Lemma map_chars_app f a b : map_chars f (a +:+ b) = map_chars f a +:+ map_chars f b.
Proof.
  induction a as [|c a IH]; [reflexivity|].
  rewrite app_cons_s. simpl. rewrite IH, app_assoc_s. reflexivity.
Qed.

Lemma map_chars_compose f g s :
  map_chars f (map_chars g s) = map_chars (fun a => map_chars f (g a)) s.
Proof.
  induction s as [|c s IH]; [reflexivity|].
  simpl. rewrite map_chars_app, IH. reflexivity.
Qed.

Lemma map_chars_ext f g s : (forall a, f a = g a) -> map_chars f s = map_chars g s.
Proof. intros Hfg. induction s as [|c s IH]; simpl; [reflexivity|]. rewrite Hfg, IH. reflexivity. Qed.

Lemma map_chars_str f a : map_chars f (str a) = f a.
Proof. simpl. apply app_nil_r_s. Qed.

(** A replacement whose images are not empty and of which none starts
    another can be undone: it is injective. *)
Lemma map_chars_inj f :
  (forall a, f a <> "") ->
  (forall a b r1 r2, f a +:+ r1 = f b +:+ r2 -> a = b /\ r1 = r2) ->
  forall s1 s2, map_chars f s1 = map_chars f s2 -> s1 = s2.
Proof.
  intros Hne Hpf s1. induction s1 as [|a s1 IH]; intros [|b s2] Heq; simpl in Heq.
  - reflexivity.
  - exfalso. apply (Hne b). destruct (f b); [reflexivity|discriminate].
  - exfalso. apply (Hne a). destruct (f a); [reflexivity|discriminate].
  - apply Hpf in Heq as [-> Heq]. f_equal. apply IH, Heq.
Qed.

Lemma all_chars_app P a b : all_chars P (a +:+ b) = all_chars P a && all_chars P b.
Proof.
  induction a as [|c a IH]; [reflexivity|].
  rewrite app_cons_s. simpl. rewrite IH, andb_assoc. reflexivity.
Qed.

Lemma all_chars_map_chars P f s :
  (forall a, all_chars P (f a) = true) -> all_chars P (map_chars f s) = true.
Proof.
  intros Hf. induction s as [|c s IH]; [reflexivity|].
  simpl. rewrite all_chars_app, Hf, IH. reflexivity.
Qed.

Lemma app_inv_tail_s a b c : a +:+ c = b +:+ c -> a = b.
Proof.
  revert b. induction a as [|x a IH]; intros [|y b] Heq.
  - reflexivity.
  - apply (f_equal String.length) in Heq. rewrite app_nil_l_s, app_cons_s in Heq.
    simpl in Heq. rewrite length_app_s in Heq. lia.
  - apply (f_equal String.length) in Heq. rewrite app_nil_l_s, app_cons_s in Heq.
    simpl in Heq. rewrite length_app_s in Heq. lia.
  - rewrite !app_cons_s in Heq. injection Heq as -> Heq. f_equal. apply IH, Heq.
Qed.

Ltac chars_cases :=
  repeat (case_bool_decide; subst);
  unfold str, DQUOTE, LF in *; rewrite ?app_cons_s, ?app_nil_l_s.

(** *** [escapeString] *)

Lemma escapeString_map s : SearchView.escapeString s = map_chars escapeString_char s.
Proof.
  unfold SearchView.escapeString.
  rewrite !replace_char_map, !map_chars_compose. apply map_chars_ext. intros a.
  unfold escapeString_char.
  destruct (bool_decide_reflect (a = "\"%char)) as [->|H1]; [reflexivity|].
  rewrite !map_chars_str.
  destruct (bool_decide_reflect (a = DQUOTE)) as [->|H2]; [reflexivity|].
  rewrite !map_chars_str.
  destruct (bool_decide_reflect (a = LF)) as [->|H3]; [reflexivity|].
  rewrite !map_chars_str.
  destruct (bool_decide_reflect (a = "013"%char)) as [->|H4]; [reflexivity|].
  rewrite !map_chars_str.
  reflexivity.
Qed.

Lemma escapeString_char_nonempty a : escapeString_char a <> "".
Proof. unfold escapeString_char. chars_cases; discriminate. Qed.

Lemma escapeString_char_prefix_free a b r1 r2 :
  escapeString_char a +:+ r1 = escapeString_char b +:+ r2 -> a = b /\ r1 = r2.
Proof.
  unfold escapeString_char. chars_cases; intros Heq; simplify_eq; done.
Qed.

(** *** [escapeXml] *)

Lemma escapeXml_map s : escapeXml s = map_chars escapeXml_char s.
Proof.
  unfold escapeXml.
  rewrite !replace_char_map, !map_chars_compose. apply map_chars_ext. intros a.
  unfold escapeXml_char.
  destruct (bool_decide_reflect (a = "&"%char)) as [->|H1]; [reflexivity|].
  rewrite !map_chars_str.
  destruct (bool_decide_reflect (a = "<"%char)) as [->|H2]; [reflexivity|].
  rewrite !map_chars_str.
  destruct (bool_decide_reflect (a = ">"%char)) as [->|H3]; [reflexivity|].
  rewrite !map_chars_str.
  destruct (bool_decide_reflect (a = DQUOTE)) as [->|H4]; [reflexivity|].
  rewrite !map_chars_str.
  reflexivity.
Qed.

Lemma escapeXml_char_nonempty a : escapeXml_char a <> "".
Proof. unfold escapeXml_char. chars_cases; discriminate. Qed.

Lemma escapeXml_char_prefix_free a b r1 r2 :
  escapeXml_char a +:+ r1 = escapeXml_char b +:+ r2 -> a = b /\ r1 = r2.
Proof.
  unfold escapeXml_char. chars_cases; intros Heq; simplify_eq; done.
Qed.

(** *** The doubling of quotes of [escapeCsvValue] *)

Lemma doubled_quote_char_nonempty a : doubled_quote_char a <> "".
Proof. unfold doubled_quote_char. chars_cases; discriminate. Qed.

Lemma doubled_quote_char_prefix_free a b r1 r2 :
  doubled_quote_char a +:+ r1 = doubled_quote_char b +:+ r2 -> a = b /\ r1 = r2.
Proof.
  unfold doubled_quote_char. chars_cases; intros Heq; simplify_eq; done.
Qed.

End EscapeFacts.

(** ** The statements on the escaping functions *)

Section EscapeTheorems.
Import Js Escapes SearchView.

Lemma includes_char_all_chars s c :
  includes_char s c = negb (all_chars (fun a => negb (bool_decide (a = c))) s).
Proof.
  induction s as [|a s IH]; [reflexivity|].
  simpl. rewrite IH. destruct (bool_decide (a = c)); reflexivity.
Qed.

(** X11.  [escapeString] of the output view loses nothing: two different strings
    have different escaped texts; and the escaped text holds no line feed,
    carriage return or tab. *)
Theorem escapeString_faithful (s1 s2 : string) :
  (escapeString s1 = escapeString s2 -> s1 = s2) /\
  includes_char (escapeString s1) LF = false /\
  includes_char (escapeString s1) "013" = false /\
  includes_char (escapeString s1) "009" = false.
Proof.
  split.
  - rewrite !escapeString_map.
    apply map_chars_inj; [apply escapeString_char_nonempty|apply escapeString_char_prefix_free].
  - rewrite !includes_char_all_chars, escapeString_map.
    repeat split; apply negb_false_iff, all_chars_map_chars; intros a;
      unfold escapeString_char; repeat case_bool_decide; subst; try reflexivity;
      simpl; rewrite bool_decide_eq_false_2 by assumption; reflexivity.
Qed.

(** X12.  [escapeXml] loses nothing: two different texts have different escaped
    texts; and the escaped text holds none of the characters [<], [>], the
    double quote and the apostrophe. *)
Theorem escapeXml_faithful (s1 s2 : string) :
  (escapeXml s1 = escapeXml s2 -> s1 = s2) /\
  includes_char (escapeXml s1) "<" = false /\
  includes_char (escapeXml s1) ">" = false /\
  includes_char (escapeXml s1) DQUOTE = false /\
  includes_char (escapeXml s1) "'" = false.
Proof.
  split.
  - rewrite !escapeXml_map.
    apply map_chars_inj; [apply escapeXml_char_nonempty|apply escapeXml_char_prefix_free].
  - rewrite !includes_char_all_chars, escapeXml_map.
    repeat split; apply negb_false_iff, all_chars_map_chars; intros a;
      unfold escapeXml_char; repeat case_bool_decide; subst; try reflexivity;
      simpl; rewrite bool_decide_eq_false_2 by assumption; reflexivity.
Qed.

Lemma includes_char_head c s : includes_char (String c s) c = true.
Proof. simpl. rewrite bool_decide_eq_true_2 by reflexivity. reflexivity. Qed.

Lemma escapeCsvValue_quoted val :
  (includes_char val "," || includes_char val DQUOTE || includes_char val LF) = true ->
  escapeCsvValue val =
  String DQUOTE (map_chars doubled_quote_char val +:+ str DQUOTE).
Proof.
  intros Hq. unfold escapeCsvValue. rewrite Hq, replace_char_map. reflexivity.
Qed.

Lemma escapeCsvValue_plain val :
  (includes_char val "," || includes_char val DQUOTE || includes_char val LF) = false ->
  escapeCsvValue val = val /\ includes_char val DQUOTE = false.
Proof.
  intros Hq. unfold escapeCsvValue. rewrite Hq. split; [reflexivity|].
  apply orb_false_iff in Hq as [Hq _]. apply orb_false_iff in Hq as [_ Hq]. exact Hq.
Qed.

(** X13.  [escapeCsvValue] loses nothing: two different cell values give two
    different fields; and a field that is not wrapped in double quotes holds
    no comma, double quote or line feed. *)
Theorem escapeCsvValue_faithful (v1 v2 : string) :
  (escapeCsvValue v1 = escapeCsvValue v2 -> v1 = v2) /\
  (escapeCsvValue v1 = v1 /\
   includes_char v1 "," = false /\ includes_char v1 DQUOTE = false /\
   includes_char v1 LF = false
   \/
   exists body, escapeCsvValue v1 = str DQUOTE +:+ body +:+ str DQUOTE /\
                body = replace_char DQUOTE (str DQUOTE +:+ str DQUOTE) v1).
Proof.
  split.
  - destruct (includes_char v1 "," || includes_char v1 DQUOTE || includes_char v1 LF) eqn:H1;
    destruct (includes_char v2 "," || includes_char v2 DQUOTE || includes_char v2 LF) eqn:H2.
    + rewrite !escapeCsvValue_quoted by assumption. intros Heq. injection Heq as Heq.
      apply app_inv_tail_s in Heq. revert Heq.
      apply map_chars_inj;
        [apply doubled_quote_char_nonempty|apply doubled_quote_char_prefix_free].
    + rewrite escapeCsvValue_quoted by assumption.
      destruct (escapeCsvValue_plain v2 H2) as [-> Hno]. intros <-.
      rewrite includes_char_head in Hno. discriminate.
    + rewrite (escapeCsvValue_quoted v2) by assumption.
      destruct (escapeCsvValue_plain v1 H1) as [-> Hno]. intros ->.
      rewrite includes_char_head in Hno. discriminate.
    + destruct (escapeCsvValue_plain v1 H1) as [-> _].
      destruct (escapeCsvValue_plain v2 H2) as [-> _]. trivial.
  - unfold escapeCsvValue.
    destruct (includes_char v1 ",") eqn:Hc; [right; eexists; split; reflexivity|].
    destruct (includes_char v1 DQUOTE) eqn:Hd; [right; eexists; split; reflexivity|].
    destruct (includes_char v1 LF) eqn:Hl; [right; eexists; split; reflexivity|].
    left. simpl. auto.
Qed.

End EscapeTheorems.

(** ** Highlighting of the query in a text *)

Section Highlight.
Import Js SearchView.

Lemma substring0_drop_chars n s : substring0 n s +:+ drop_chars n s = s.
Proof.
  revert s. induction n as [|n IH]; intros [|c s]; try reflexivity.
  simpl. rewrite app_cons_s, IH. reflexivity.
Qed.

Lemma drop_chars_add i n s : drop_chars (i + n) s = drop_chars n (drop_chars i s).
Proof.
  revert s. induction i as [|i IH]; intros s; [reflexivity|].
  destruct s as [|c s]; simpl; [destruct n; reflexivity|apply IH].
Qed.

Lemma indexOf_includes s q : is_Some (indexOf s q) <-> includes s q = true.
Proof.
  induction s as [|c s IH].
  - cbn [indexOf includes]. destruct (String.prefix q ""); simpl.
    + split; [reflexivity|eauto].
    + split; [intros [? [=]]|discriminate].
  - cbn [indexOf includes]. destruct (String.prefix q (String c s)); simpl.
    + split; [reflexivity|eauto].
    + rewrite <- IH. destruct (indexOf s q); simpl.
      * split; eauto.
      * split; intros [? [=]].
Qed.

(** X10.  [highlightText] never changes the text shown: the pieces it returns
    spell the text.  A marked piece is never longer than the query, and a
    piece is marked exactly when highlighting is asked for, the query is not
    empty and the lowered text contains the lowered query, the test the
    source makes. *)
Theorem highlightText_segments (text query : string) (shouldHighlight : bool) :
  segments_text (highlightText text query shouldHighlight) = text /\
  (forall m, Mark m ∈ highlightText text query shouldHighlight ->
     String.length m <= String.length query) /\
  ((exists m, Mark m ∈ highlightText text query shouldHighlight) <->
   shouldHighlight = true /\ query <> "" /\
   includes (toLowerCase text) (toLowerCase query) = true).
Proof.
  unfold highlightText.
  destruct shouldHighlight; simpl.
  2:{ split; [apply app_nil_r_s|]. split.
      - intros m Hm. apply list_elem_of_singleton in Hm. discriminate.
      - split; [intros [m Hm]; apply list_elem_of_singleton in Hm; discriminate|].
        intros [? _]. discriminate. }
  destruct (bool_decide_reflect (query = "")) as [Hq|Hq].
  { split; [apply app_nil_r_s|]. split.
    - intros m Hm. apply list_elem_of_singleton in Hm. discriminate.
    - split; [intros [m Hm]; apply list_elem_of_singleton in Hm; discriminate|].
      intros (_ & Hne & _). contradiction. }
  destruct (indexOf (toLowerCase text) (toLowerCase query)) as [i|] eqn:Hi.
  - split; [|split].
    + simpl. rewrite app_nil_r_s, drop_chars_add, substring0_drop_chars.
      apply substring0_drop_chars.
    + intros m Hm.
      apply elem_of_cons in Hm as [Hm|Hm]; [discriminate|].
      apply elem_of_cons in Hm as [Hm|Hm];
        [|apply list_elem_of_singleton in Hm; discriminate].
      injection Hm as ->. rewrite length_substring0. lia.
    + split.
      * intros _. split; [reflexivity|]. split; [exact Hq|].
        apply indexOf_includes. rewrite Hi. eauto.
      * intros _. eexists. apply elem_of_cons. right. apply elem_of_cons. left. reflexivity.
  - split; [apply app_nil_r_s|]. split.
    + intros m Hm. apply list_elem_of_singleton in Hm. discriminate.
    + split; [intros [m Hm]; apply list_elem_of_singleton in Hm; discriminate|].
      intros (_ & _ & Hinc). apply indexOf_includes in Hinc. rewrite Hi in Hinc.
      destruct Hinc as [? [=]].
Qed.

End Highlight.

(** ** The position read from a diagnostic *)

Section PositionFacts.
Import Js ErrorParser ErrorContext.

Lemma parseInt_loop d : forall acc,
  fold_left (fun acc c => 10 * acc + digit_value c)
    (list_ascii_of_string (NilEmpty.string_of_uint d)) acc =
  Nat.of_uint_acc d acc.
Proof.
  induction d; intros acc; simpl; [reflexivity|..];
    rewrite IHd, Nat.tail_mul_spec; f_equal; unfold digit_value; simpl; lia.
Qed.

Lemma parseInt_nat_to_string n : parseInt (nat_to_string n) = n.
Proof.
  unfold parseInt, nat_to_string. rewrite parseInt_loop.
  apply DecimalNat.Unsigned.of_to.
Qed.

Lemma string_of_uint_nonempty d : d <> Decimal.Nil -> NilEmpty.string_of_uint d <> "".
Proof. destruct d; simpl; congruence. Qed.

Lemma nat_to_string_nonempty n : nat_to_string n <> "".
Proof.
  unfold nat_to_string. apply string_of_uint_nonempty.
  intros Hnil. pose proof (f_equal Nat.of_uint Hnil) as Hn.
  rewrite DecimalNat.Unsigned.of_to in Hn. simpl in Hn. subst n. discriminate Hnil.
Qed.

Lemma span_all P a r :
  all_chars P a = true -> starts_outside P r -> span P (a +:+ r) = (a, r).
Proof.
  intros Ha Hr. induction a as [|c a IH].
  - rewrite app_nil_l_s. destruct r as [|d r]; [reflexivity|].
    simpl in *. rewrite Hr. reflexivity.
  - rewrite app_cons_s. simpl in *. apply andb_true_iff in Ha as [Hc Ha].
    rewrite Hc, (IH Ha). reflexivity.
Qed.

Lemma is_digit_not_space c : is_digit c = true -> is_space c = false.
Proof.
  unfold is_digit, is_space, in_range. intros Hd.
  apply andb_true_iff in Hd as [H1 H2].
  apply N.leb_le in H1, H2.
  repeat (apply orb_false_iff; split).
  - apply andb_false_iff. right. apply N.leb_gt. lia.
  - apply N.eqb_neq. lia.
  - apply N.eqb_neq. lia.
Qed.

(** The pattern matches where the word [position], one space and a number
    stand. *)
Lemma match_position_here_number n rest :
  starts_outside is_digit rest ->
  match_position_here ("position " +:+ nat_to_string n +:+ rest) =
  Some (nat_to_string n).
Proof.
  intros Hrest. unfold match_position_here.
  change (strip_literal_ci "position" ("position " +:+ nat_to_string n +:+ rest))
    with (Some (" " +:+ nat_to_string n +:+ rest)).
  cbv beta iota.
  pose proof (nat_to_string_nonempty n) as Hne.
  pose proof (nat_to_string_digits n) as Hd.
  rewrite (span_all is_space " " (nat_to_string n +:+ rest)).
  - rewrite (span_all is_digit _ rest Hd Hrest).
    destruct (nat_to_string n); [done|reflexivity].
  - reflexivity.
  - destruct (nat_to_string n) as [|c s]; [done|].
    rewrite app_cons_s. simpl in *. apply is_digit_not_space.
    apply andb_true_iff in Hd as [Hc _]. exact Hc.
Qed.

(** A text in front in which the word [position] does not occur (case
    ignored) gives no earlier match: no occurrence of the word starts in
    it. *)
Lemma strip_literal_ci_straddle c pre r :
  strip_literal_ci "position" (String c pre) = None ->
  strip_literal_ci "position" (String c pre +:+ "position" +:+ r) = None.
Proof.
  intros Hpre.
  destruct pre as [|c2 [|c3 [|c4 [|c5 [|c6 [|c7 [|c8 t]]]]]]];
    rewrite ?app_cons_s, ?app_nil_l_s; cbn [strip_literal_ci] in *;
    repeat case_bool_decide; try reflexivity; try discriminate Hpre;
    exfalso;
    match goal with
    | H : toLowerCase_char ?x = _ |- _ => vm_compute in H; discriminate H
    end.
Qed.

Lemma match_position_skip pre r :
  occurs_ci "position" pre = false ->
  match_position (pre +:+ "position" +:+ r) = match_position ("position" +:+ r).
Proof.
  induction pre as [|c pre IH]; intros Hinc; [reflexivity|].
  cbn [occurs_ci] in Hinc.
  destruct (strip_literal_ci "position" (String c pre)) eqn:Hp; [discriminate|].
  rewrite app_cons_s. cbn [match_position]. rewrite <- app_cons_s.
  unfold match_position_here at 1.
  rewrite (strip_literal_ci_straddle c pre r Hp). apply IH, Hinc.
Qed.

Lemma extractPosition_number input pre n rest :
  occurs_ci "position" pre = false ->
  starts_outside is_digit rest ->
  extractPosition input (pre +:+ "position " +:+ nat_to_string n +:+ rest) = Some n.
Proof.
  intros Hpre Hrest. unfold extractPosition.
  change ("position " +:+ nat_to_string n +:+ rest)
    with ("position" +:+ " " +:+ nat_to_string n +:+ rest).
  rewrite (match_position_skip pre _ Hpre).
  change ("position" +:+ " " +:+ nat_to_string n +:+ rest)
    with ("position " +:+ nat_to_string n +:+ rest).
  assert (Hm : match_position ("position " +:+ nat_to_string n +:+ rest) =
               Some (nat_to_string n)).
  { change ("position " +:+ nat_to_string n +:+ rest)
      with (String "p" ("osition " +:+ nat_to_string n +:+ rest)).
    cbn [match_position].
    change (String "p" ("osition " +:+ nat_to_string n +:+ rest))
      with ("position " +:+ nat_to_string n +:+ rest).
    rewrite (match_position_here_number n rest Hrest). reflexivity. }
  rewrite Hm, parseInt_nat_to_string. reflexivity.
Qed.

(** X14.  A diagnostic that ends, as the engine's do, with the word [position], a
    space and the decimal writing of a number [n] below 2^53 gives the
    position [n]: when the word does not occur earlier in the diagnostic
    (case ignored) and no digit follows the number, [extractPosition] returns
    [n], and the error that [parseJsonError] returns carries it.  The bound
    is where the number read, a double in the program, is the number
    written: [parseInt] is exact here, and the program's is up to 2^53. *)
Theorem extractPosition_round_trip describe (input pre rest : string) (n : nat) :
  (N.of_nat n < 2 ^ 53)%N ->
  occurs_ci "position" pre = false ->
  starts_outside is_digit rest ->
  let errorMessage := pre +:+ "position " +:+ nat_to_string n +:+ rest in
  extractPosition input errorMessage = Some n /\
  position (parseJsonError describe input errorMessage) = Some n.
Proof.
  intros _ Hpre Hrest errorMessage. subst errorMessage.
  pose proof (extractPosition_number input pre n rest Hpre Hrest) as He.
  split; [exact He|].
  unfold parseJsonError. rewrite He.
  destruct (describe input _ (Some n)). reflexivity.
Qed.

Lemma extractPosition_round_trip_witness :
  let describe := fun (_ _ : string) (_ : option nat) => ("Invalid JSON syntax", "") in
  let input := "{" +:+ str DQUOTE +:+ "a" +:+ str DQUOTE +:+ ": 1,}" in
  let errorMessage := "Unexpected token } in JSON at position 42" in
  ((N.of_nat 42 < 2 ^ 53)%N /\
   occurs_ci "position" "Unexpected token } in JSON at " = false) /\
  extractPosition input errorMessage = Some 42 /\
  position (parseJsonError describe input errorMessage) = Some 42.
Proof.
  intros describe input errorMessage.
  split; [split; reflexivity|].
  apply (extractPosition_round_trip describe input "Unexpected token } in JSON at " "" 42).
  - reflexivity.
  - reflexivity.
  - simpl. exact I.
Defined.

End PositionFacts.

(** ** Line and column *)

Section LineColumnFacts.
Import Js ErrorParser SearchView.

Lemma count_char_app c a b : count_char c (a +:+ b) = count_char c a + count_char c b.
Proof.
  induction a as [|x a IH]; [reflexivity|].
  rewrite app_cons_s. simpl. rewrite IH. lia.
Qed.

Lemma substring0_split p q s :
  p <= q -> substring0 q s = substring0 p s +:+ substring0 (q - p) (drop_chars p s).
Proof.
  revert q s. induction p as [|p IH]; intros q s Hle.
  - rewrite Nat.sub_0_r. destruct s; reflexivity.
  - destruct q as [|q]; [lia|].
    destruct s as [|c s]; [simpl; destruct (q - p); reflexivity|].
    simpl. rewrite app_cons_s. f_equal. apply IH. lia.
Qed.

Lemma lastIndexOf_from_app c a b : forall i acc,
  lastIndexOf_from c (a +:+ b) i acc =
  lastIndexOf_from c b (i + Z.of_nat (String.length a))%Z (lastIndexOf_from c a i acc).
Proof.
  induction a as [|x a IH]; intros i acc.
  - rewrite app_nil_l_s. simpl. f_equal. lia.
  - rewrite app_cons_s. cbn [lastIndexOf_from String.length]. rewrite IH. f_equal. lia.
Qed.

Lemma lastIndexOf_from_absent c s : forall i acc,
  count_char c s = 0 -> lastIndexOf_from c s i acc = acc.
Proof.
  induction s as [|x s IH]; intros i acc Hc; [reflexivity|].
  simpl in *. destruct (bool_decide (x = c)); [discriminate|]. apply IH, Hc.
Qed.

Lemma calculateLineAndColumn_le input p q :
  p <= q -> q <= String.length input ->
  calculateLineAndColumn input p = calculateLineAndColumn input q -> p = q.
Proof.
  intros Hpq Hq Heq.
  destruct (calculateLineAndColumn_spec input p) as [Hlp Hcp].
  destruct (calculateLineAndColumn_spec input q) as [Hlq Hcq].
  cbv zeta in *. rewrite Heq in Hlp, Hcp. rewrite Hlp in Hlq. rewrite Hcp in Hcq.
  clear Hlp Hcp Heq.
  rewrite (substring0_split p q input Hpq) in Hlq, Hcq.
  rewrite count_char_app in Hlq.
  assert (Hmid : count_char LF (substring0 (q - p) (drop_chars p input)) = 0) by lia.
  unfold lastIndexOf in Hcq.
  rewrite lastIndexOf_from_app, (lastIndexOf_from_absent _ _ _ _ Hmid) in Hcq.
  lia.
Qed.

(** X15.  Two positions within the input that get the same line and the same
    column are the same position: the pair (line, column) locates the
    error. *)
Theorem calculateLineAndColumn_injective (input : string) (p q : nat) :
  p <= String.length input -> q <= String.length input ->
  calculateLineAndColumn input p = calculateLineAndColumn input q -> p = q.
Proof.
  intros Hp Hq Heq. destruct (Nat.le_ge_cases p q) as [Hle|Hle].
  - apply (calculateLineAndColumn_le input p q Hle Hq Heq).
  - symmetry. apply (calculateLineAndColumn_le input q p Hle Hp). symmetry. exact Heq.
Qed.

Lemma calculateLineAndColumn_injective_witness :
  let input := "[1," +:+ str LF +:+ "2,]" in
  calculateLineAndColumn input 6 = (2, 3) /\
  (calculateLineAndColumn input 6 = calculateLineAndColumn input (2 + 4) -> 6 = 2 + 4).
Proof.
  intros input. split; [reflexivity|].
  apply (calculateLineAndColumn_injective input 6 (2 + 4)); vm_compute; lia.
Defined.

End LineColumnFacts.

(** ** The context of a position *)

Section ContextFacts.
Import Js ErrorParser SearchView ErrorContext.

Lemma length_drop_chars n s : String.length (drop_chars n s) = String.length s - n.
Proof.
  revert s. induction n as [|n IH]; intros [|c s]; simpl; try reflexivity. apply IH.
Qed.

Lemma substring0_all n s : String.length s <= n -> substring0 n s = s.
Proof.
  revert s. induction n as [|n IH]; intros [|c s] Hle; simpl in *; try reflexivity.
  - lia.
  - f_equal. apply IH. lia.
Qed.

Lemma drop_chars_all n s : String.length s <= n -> drop_chars n s = "".
Proof.
  revert s. induction n as [|n IH]; intros [|c s] Hle; simpl in *; try reflexivity.
  - lia.
  - apply IH. lia.
Qed.

Lemma substring_ordered s a b :
  a <= b -> substring s a b = substring0 (b - a) (drop_chars a s).
Proof.
  intros Hab. unfold substring.
  rewrite Nat.max_r, Nat.min_l by exact Hab. reflexivity.
Qed.

Lemma substring0_substring0 m n s : substring0 m (substring0 n s) = substring0 (Nat.min m n) s.
Proof.
  revert n s. induction m as [|m IH]; intros [|n] [|c s]; simpl; try reflexivity.
  f_equal. apply IH.
Qed.

(** X16.  The context that [analyzeContext] cuts around a position is a window of
    the input: the input is what precedes the window, then [before], then
    [after], then what follows; each of the two parts holds at most 30
    characters, and [char] is the first character of [after] (empty at the
    end of the input).  This holds for every position, also beyond the
    input. *)
Theorem analyzeContext_window (input : string) (position : nat) :
  let c := analyzeContext input position in
  substring0 (position - 30) input +:+ before c +:+ after c +:+
    drop_chars (position + 30) input = input /\
  String.length (before c) <= 30 /\
  String.length (after c) <= 30 /\
  char c = substring0 1 (after c).
Proof.
  unfold analyzeContext. cbv zeta. cbn [before after char].
  rewrite Nat.max_r by lia.
  rewrite (substring_ordered input (position - 30) position) by lia.
  destruct (Nat.le_gt_cases position (String.length input)) as [Hin|Hout].
  - rewrite (substring_ordered input position) by lia.
    split_and!.
    + assert (HB : substring0 (Nat.min (String.length input) (position + 30) - position)
                     (drop_chars position input) +:+ drop_chars (position + 30) input =
                   drop_chars position input).
      { destruct (Nat.le_gt_cases (String.length input) (position + 30)) as [Hs|Hl].
        - rewrite Nat.min_l by exact Hs.
          rewrite (drop_chars_all (position + 30)) by exact Hs.
          rewrite app_nil_r_s. apply substring0_all.
          rewrite length_drop_chars. lia.
        - rewrite Nat.min_r by lia. rewrite drop_chars_add.
          replace (position + 30 - position) with 30 by lia.
          apply substring0_drop_chars. }
      rewrite HB, <- app_assoc_s.
      rewrite <- (substring0_split (position - 30) position input) by lia.
      apply substring0_drop_chars.
    + rewrite length_substring0. lia.
    + rewrite length_substring0. lia.
    + rewrite substring0_substring0.
      destruct (Nat.eq_dec position (String.length input)) as [->|Hne].
      * rewrite (drop_chars_all (String.length input)) by lia. destruct (Nat.min _ _); reflexivity.
      * rewrite Nat.min_l by lia. reflexivity.
  - rewrite Nat.min_l by lia.
    unfold substring. rewrite Nat.max_l, Nat.min_r by lia.
    rewrite (drop_chars_all (String.length input)) by lia.
    rewrite (drop_chars_all (position + 30)) by lia.
    rewrite (drop_chars_all position) by lia.
    split_and!.
    + replace (substring0 (position - String.length input) "") with ""
        by (destruct (position - String.length input); reflexivity).
      rewrite !app_nil_r_s.
      rewrite <- (substring0_split (position - 30) position input) by lia.
      apply substring0_all. lia.
    + rewrite length_substring0. lia.
    + rewrite length_substring0. simpl. lia.
    + destruct (position - String.length input); reflexivity.
Qed.

End ContextFacts.

(** ** The order of the keys of a sorted copy *)

Section KeyOrderFacts.
Import Js JsOrdered KeySorter KeyOrder.
Context {number : Type} (localeCompare : string -> string -> comparison).

Lemma every_object_JArray (P : list (string * json number) -> Prop) vs :
  every_object P (JArray vs) <-> Forall (every_object P) vs.
Proof.
  simpl. induction vs as [|x vs IH]; [split; [constructor|trivial]|].
  rewrite Forall_cons, IH. reflexivity.
Qed.

Lemma every_object_JObject (P : list (string * json number) -> Prop) es :
  every_object P (JObject es) <-> P es /\ Forall (fun e => every_object P (snd e)) es.
Proof.
  simpl. apply and_iff_compat_l.
  induction es as [|[k x] es IH]; [split; [constructor|trivial]|].
  rewrite Forall_cons, IH. reflexivity.
Qed.

Hypothesis localeCompare_total :
  forall a b, localeCompare a b = Gt -> localeCompare b a <> Gt.
Hypothesis localeCompare_trans : forall a b c,
  compare_le localeCompare a b -> compare_le localeCompare b c ->
  compare_le localeCompare a c.

Lemma rebuild_ordered (values : list (string * json number)) :
  NoDup (keys values) -> ordered_object localeCompare (rebuild localeCompare values).
Proof.
  intros Hnd. rewrite rebuild_shape by exact Hnd.
  pose proof (NoDup_keys_sortE localeCompare values Hnd) as HndS.
  eexists _, _. split_and!; [reflexivity|..].
  - apply index_part_indexed, HndS.
  - apply index_part_sorted, HndS.
  - unfold named_part. apply Forall_forall. intros e [He _]%list_elem_of_filter. exact He.
  - unfold named_part. apply StronglySorted_filter.
    apply (Array_sort_sorted (compare_entries localeCompare)).
    + apply compare_entries_total, localeCompare_total.
    + apply compare_entries_trans, localeCompare_trans.
Qed.

Lemma sortObjectKeys_every_object_ordered (v : json number) :
  unique_keys v = true ->
  every_object (ordered_object localeCompare) (sortObjectKeys localeCompare v).
Proof.
  induction v as [|b|n|s|vs IH|es IH] using json_ind; intros Hu; try exact I.
  - change (sortObjectKeys localeCompare (JArray vs))
      with (JArray (map (sortObjectKeys localeCompare) vs)).
    apply every_object_JArray, Forall_fmap, Forall_forall. intros x Hx. simpl.
    simpl in Hu. rewrite forallb_forall in Hu. rewrite Forall_forall in IH.
    apply IH; [exact Hx|]. apply Hu, list_elem_of_In, Hx.
  - destruct (unique_keys_JObject es Hu) as [Hnd Hvals].
    rewrite sortObjectKeys_JObject by exact Hnd.
    assert (Hndv : NoDup (keys (map (fun e : string * json number =>
                     (fst e, sortObjectKeys localeCompare (snd e))) es)))
      by (rewrite keys_sorted_values; exact Hnd).
    apply every_object_JObject. split; [apply rebuild_ordered, Hndv|].
    apply Forall_forall. intros e He.
    apply (rebuild_subseteq localeCompare _ _ Hndv) in He.
    apply list_elem_of_fmap in He as (e0 & -> & He0). simpl.
    rewrite Forall_forall in IH, Hvals. apply IH; [exact He0|apply Hvals, He0].
Qed.

End KeyOrderFacts.

Import KeyOrder.

(** X17.  When no object of the document has the key [__proto__], the sorted copy
    is the document up to the order of the keys of its objects: the same
    leaves, the same array elements in the same order, the same properties.
    This holds for every comparator. *)
Theorem sortObjectKeys_content {number} (localeCompare : string -> string -> comparison)
    (v : json number) :
  unique_keys v = true -> no_proto_key v = true ->
  same_up_to_key_order v (sortObjectKeys localeCompare v).
Proof. apply sortObjectKeys_same_up_to_key_order. Qed.

Lemma sortObjectKeys_content_witness :
  let v : json Z :=
    JObject [("b", JNumber 1%Z);
             ("a", JArray [JObject [("d", JNull); ("c", JBool true)]])] in
  (unique_keys v = true /\ no_proto_key v = true) /\
  same_up_to_key_order v (sortObjectKeys caseless_compare v).
Proof.
  intros v. split; [split; reflexivity|].
  apply (sortObjectKeys_content caseless_compare v); reflexivity.
Defined.

(** X18.  Sorting a sorted copy changes nothing, on every document, when the
    comparator is a total preorder (no two keys each placed after the other,
    and transitivity of not being placed after). *)
Theorem sortObjectKeys_twice {number} (localeCompare : string -> string -> comparison)
    (v : json number) :
  (forall a b, localeCompare a b = Gt -> localeCompare b a <> Gt) ->
  (forall a b c, compare_le localeCompare a b -> compare_le localeCompare b c ->
                 compare_le localeCompare a c) ->
  unique_keys v = true ->
  sortObjectKeys localeCompare (sortObjectKeys localeCompare v) =
  sortObjectKeys localeCompare v.
Proof. intros Htotal Htrans. apply sortObjectKeys_idempotent; assumption. Qed.

Lemma sortObjectKeys_twice_witness :
  let v : json Z :=
    JObject [("b", JNumber 1%Z); ("10", JNull); ("__proto__", JNull);
             ("A", JObject [("z", JNull); ("9", JNull)]); ("9", JBool false)] in
  unique_keys v = true /\
  sortObjectKeys caseless_compare v =
    JObject [("9", JBool false); ("10", JNull);
             ("A", JObject [("9", JNull); ("z", JNull)]); ("b", JNumber 1%Z)] /\
  sortObjectKeys caseless_compare (sortObjectKeys caseless_compare v) =
  sortObjectKeys caseless_compare v.
Proof.
  intros v. split; [reflexivity|]. split; [vm_compute; reflexivity|].
  apply (sortObjectKeys_twice caseless_compare v).
  - exact caseless_compare_total.
  - exact caseless_compare_trans.
  - reflexivity.
Defined.

(** X19.  In the sorted copy every object lists its keys in this order: first the
    keys that are array indices, in ascending numeric order, whatever the
    comparator says of them; then the other keys, none placed after a key
    that the comparator puts behind it.  No key [__proto__] is left. *)
Theorem sortObjectKeys_ordered {number} (localeCompare : string -> string -> comparison)
    (v : json number) :
  (forall a b, localeCompare a b = Gt -> localeCompare b a <> Gt) ->
  (forall a b c, compare_le localeCompare a b -> compare_le localeCompare b c ->
                 compare_le localeCompare a c) ->
  unique_keys v = true ->
  every_object (ordered_object localeCompare) (sortObjectKeys localeCompare v).
Proof. intros Htotal Htrans. apply sortObjectKeys_every_object_ordered; assumption. Qed.

Lemma sortObjectKeys_ordered_witness :
  let v : json Z := JObject [("b", JNull); ("10", JNull); ("a", JNull); ("9", JNull)] in
  unique_keys v = true /\
  sortObjectKeys caseless_compare v =
    JObject [("9", JNull); ("10", JNull); ("a", JNull); ("b", JNull)] /\
  every_object (ordered_object caseless_compare) (sortObjectKeys caseless_compare v).
Proof.
  intros v. split; [reflexivity|]. split; [vm_compute; reflexivity|].
  apply (sortObjectKeys_ordered caseless_compare v).
  - exact caseless_compare_total.
  - exact caseless_compare_trans.
  - reflexivity.
Defined.

(** ** CSV: when the export returns *)

Section CsvReturns.
Import Js JsObject ExportFormats PlainKeys.
Context {number : Type} `{NumberOps number}.

(** The column names seen so far are not names of [Object.prototype]. *)
#[local] Abbreviation safe := (fun K : gset string => forall h, h ∈ K -> plain_name h = true).

Lemma plain_name_dotted h : includes_char h "." = true -> plain_name h = true.
Proof.
  intros Hdot. unfold plain_name. apply negb_true_iff, bool_decide_eq_false.
  intros Hin. unfold Object_prototype_names in Hin.
  repeat (apply elem_of_cons in Hin as [->|Hin]; [discriminate Hdot|]).
  inversion Hin.
Qed.

Lemma plain_name_digits h : h <> "" -> all_chars is_digit h = true -> plain_name h = true.
Proof.
  intros Hne Hd. unfold plain_name. apply negb_true_iff, bool_decide_eq_false.
  intros Hin. unfold Object_prototype_names in Hin.
  repeat (apply elem_of_cons in Hin as [->|Hin]; [discriminate Hd|]).
  inversion Hin.
Qed.

Lemma plain_name_fullKeyOf prefix key :
  plain_name key = true -> plain_name (fullKeyOf prefix key) = true.
Proof.
  intros Hk. destruct prefix as [|c prefix]; [exact Hk|].
  apply plain_name_dotted. unfold fullKeyOf.
  rewrite !includes_char_app. simpl. rewrite orb_true_r. reflexivity.
Qed.

Lemma safe_record_cell fullKey v (st : flat_state) :
  plain_name fullKey = true -> safe (snd st) -> safe (snd (record_cell fullKey v st)).
Proof.
  intros Hk Hst h. simpl. rewrite elem_of_union, elem_of_singleton.
  intros [Hh| ->]; [apply Hst, Hh|exact Hk].
Qed.

Lemma safe_flattenProperty (value : json number) : forall fullKey st,
  all_keys plain_name value = true -> plain_name fullKey = true ->
  safe (snd st) -> safe (snd (flattenProperty value fullKey st)).
Proof.
  induction value as [|b|n|s|vs IH|es IH] using json_ind; intros fullKey st Hall Hk Hst;
    try (apply safe_record_cell; assumption).
  simpl in Hall. rewrite forallb_forall in Hall.
  assert (Hes : Forall (fun e => plain_name (fst e) = true /\
                                 all_keys plain_name (snd e) = true) es).
  { apply Forall_forall. intros e He.
    apply andb_true_iff, Hall, list_elem_of_In, He. }
  clear Hall. simpl. revert st Hst.
  induction IH as [|[k x] es Hx _ IHes]; intros st Hst; [exact Hst|].
  apply Forall_cons in Hes as [[Hkx Hxall] Hes]. simpl in *.
  apply IHes; [exact Hes|].
  apply Hx; [exact Hxall|apply plain_name_fullKeyOf, Hkx|exact Hst].
Qed.

Lemma safe_flattenObject (obj : list (string * json number)) prefix : forall st,
  Forall (fun e => plain_name (fst e) = true /\ all_keys plain_name (snd e) = true) obj ->
  safe (snd st) -> safe (snd (flattenObject obj prefix st)).
Proof.
  induction obj as [|[k x] obj IH]; intros st Hobj Hst; [exact Hst|].
  apply Forall_cons in Hobj as [[Hk Hx] Hobj]. simpl in *.
  apply IH; [exact Hobj|].
  apply safe_flattenProperty; [exact Hx|apply plain_name_fullKeyOf, Hk|exact Hst].
Qed.

Lemma entries_of_array_plain (vs : list (json number)) :
  Forall (fun x => all_keys plain_name x = true) vs ->
  Forall (fun e => plain_name (fst e) = true /\ all_keys plain_name (snd e) = true)
    (entries_of_array vs).
Proof.
  intros Hvs. unfold entries_of_array. apply Forall_forall. intros e He.
  apply elem_of_lookup_imap in He as (i & x & -> & Hx). simpl. split.
  - apply plain_name_digits; [apply nat_to_string_nonempty|apply nat_to_string_digits].
  - rewrite Forall_forall in Hvs. apply Hvs. eapply list_elem_of_lookup_2, Hx.
Qed.

Lemma all_keys_JObject (es : list (string * json number)) :
  all_keys plain_name (JObject es) = true ->
  Forall (fun e => plain_name (fst e) = true /\ all_keys plain_name (snd e) = true) es.
Proof.
  simpl. rewrite forallb_forall. intros Hall. apply Forall_forall. intros e He.
  apply andb_true_iff, Hall, list_elem_of_In, He.
Qed.

Lemma all_keys_JArray (vs : list (json number)) :
  all_keys plain_name (JArray vs) = true ->
  Forall (fun x => all_keys plain_name x = true) vs.
Proof.
  simpl. rewrite forallb_forall. intros Hall. apply Forall_forall. intros x Hx.
  apply Hall, list_elem_of_In, Hx.
Qed.

Lemma safe_flatten_items (arr : list (json number)) : forall flatRows allKeys,
  Forall (fun x => all_keys plain_name x = true) arr ->
  safe allKeys -> safe (snd (flatten_items arr flatRows allKeys)).
Proof.
  induction arr as [|item arr IH]; intros flatRows allKeys Harr HK; [exact HK|].
  apply Forall_cons in Harr as [Hitem Harr].
  assert (Hvalue : safe (allKeys ∪ {[ "value" ]})).
  { intros h. rewrite elem_of_union, elem_of_singleton.
    intros [Hh| ->]; [apply HK, Hh|reflexivity]. }
  destruct item as [|b|n|s|vs|es]; cbn [flatten_items];
    try (apply IH; [exact Harr|exact Hvalue]).
  - pose proof (safe_flattenObject (entries_of_array vs) "" (∅, allKeys)
                  (entries_of_array_plain vs (all_keys_JArray vs Hitem)) HK) as Hs.
    destruct (flattenObject (entries_of_array vs) "" (∅, allKeys)) as [flatRow allKeys'].
    apply IH; [exact Harr|exact Hs].
  - pose proof (safe_flattenObject es "" (∅, allKeys) (all_keys_JObject es Hitem) HK) as Hs.
    destruct (flattenObject es "" (∅, allKeys)) as [flatRow allKeys'].
    apply IH; [exact Harr|exact Hs].
Qed.

Lemma cell_returns (row : dict) h : plain_name h = true -> exists c, cell row h = Returns c.
Proof.
  intros Hh. unfold cell, dict_read. destruct (row !! h); [eauto|].
  unfold plain_name in Hh. apply negb_true_iff in Hh. rewrite Hh. eauto.
Qed.

Lemma all_return_map {A B} (f : A -> outcome B) (l : list A) :
  (forall x, x ∈ l -> exists y, f x = Returns y) ->
  exists r, all_return (map f l) = Returns r.
Proof.
  induction l as [|x l IH]; intros Hall; [simpl; eauto|].
  destruct (Hall x (list_elem_of_here _ _)) as [y Hy].
  destruct IH as [r Hr]; [intros z Hz; apply Hall, list_elem_of_further, Hz|].
  simpl. rewrite Hy, Hr. eauto.
Qed.

Lemma jsonToCsv_rows (arr : list (json number)) (flatRows : list dict) (allKeys : gset string) :
  safe allKeys ->
  exists dataRows,
    all_return
      (map (fun row =>
              match all_return (map (cell row) (merge_sort String.le (elements allKeys))) with
              | Returns cells => Returns (join "," cells)
              | ThrowsTypeError => ThrowsTypeError
              end) flatRows) = Returns dataRows.
Proof.
  intros HK. apply all_return_map. intros row _.
  destruct (all_return_map (cell row) (merge_sort String.le (elements allKeys))) as [cells Hc].
  - intros h Hh. apply cell_returns, HK.
    rewrite merge_sort_Permutation in Hh. apply elem_of_elements, Hh.
  - rewrite Hc. eauto.
Qed.

(** X20.  The CSV export returns, and with a text for an array or an object, on
    every document none of whose keys is the name of a member of
    [Object.prototype] ([constructor], [toString], [__proto__], ...): the
    failure of [escapeCsvValue] on an inherited member cannot happen. *)
Theorem jsonToCsv_returns (data : json number) :
  all_keys plain_name data = true ->
  exists r, jsonToCsv data = Returns r /\
            (is_object_or_array data = true ->
             exists text, r = mkCsvResult true (Some text) None).
Proof.
  intros Hall. unfold jsonToCsv.
  destruct data as [|b|n|s|[|v vs]|es]; cbn [is_object_or_array];
    try (eexists; split; [reflexivity|discriminate]).
  - eexists. split; [reflexivity|]. intros _. eauto.
  - pose proof (safe_flatten_items (v :: vs) [] ∅ (all_keys_JArray _ Hall)) as Hs.
    destruct (flatten_items (v :: vs) [] ∅) as [flatRows allKeys].
    destruct (jsonToCsv_rows (v :: vs) flatRows allKeys) as [dataRows Hd].
    { apply Hs. intros h Hh. apply elem_of_empty in Hh. contradiction. }
    rewrite Hd. eexists. split; [reflexivity|]. intros _. eauto.
  - pose proof (safe_flatten_items [JObject es] [] ∅) as Hs.
    destruct (flatten_items [JObject es] [] ∅) as [flatRows allKeys].
    destruct (jsonToCsv_rows [JObject es] flatRows allKeys) as [dataRows Hd].
    { apply Hs; [constructor; [exact Hall|constructor]|].
      intros h Hh. apply elem_of_empty in Hh. contradiction. }
    rewrite Hd. eexists. split; [reflexivity|]. intros _. eauto.
Qed.

End CsvReturns.

Lemma jsonToCsv_returns_witness :
  let data : json Z :=
    JArray [JObject [("name", JString "a,b"); ("tags", JArray [JNumber 1%Z])];
            JArray [JNull]] in
  PlainKeys.all_keys PlainKeys.plain_name data = true /\
  exists r, jsonToCsv data = Returns r /\
            (is_object_or_array data = true ->
             exists text, r = mkCsvResult true (Some text) None).
Proof.
  intros data. split; [reflexivity|].
  apply (jsonToCsv_returns data). reflexivity.
Defined.

(** ** YAML: strings *)

Section YamlStrings.
Import Js JsObject ExportFormats.
Context {number : Type} `{NumberOps number}.

Lemma hex_digit_not_LF (n : N) : (n < 16)%N -> bool_decide (hex_digit n = LF) = false.
Proof.
  intros Hlt. rewrite <- (N2Nat.id n).
  assert (Hm : N.to_nat n < 16) by lia. revert Hm. generalize (N.to_nat n) as m.
  intros m Hm. do 16 (destruct m as [|m]; [vm_compute; reflexivity|]). lia.
Qed.

Lemma quote_char_no_LF c : includes_char (quote_char c) LF = false.
Proof.
  unfold quote_char.
  destruct (N_of_ascii c =? 8)%N; [reflexivity|].
  destruct (N_of_ascii c =? 9)%N; [reflexivity|].
  destruct (N_of_ascii c =? 10)%N eqn:H10; [reflexivity|].
  destruct (N_of_ascii c =? 12)%N; [reflexivity|].
  destruct (N_of_ascii c =? 13)%N; [reflexivity|].
  destruct (N_of_ascii c =? 34)%N; [reflexivity|].
  destruct (N_of_ascii c =? 92)%N; [reflexivity|].
  destruct (N_of_ascii c <? 32)%N eqn:H32.
  - apply N.ltb_lt in H32. rewrite !includes_char_app. simpl.
    rewrite !orb_false_r, !hex_digit_not_LF; [reflexivity|..].
    + apply N.mod_lt. discriminate.
    + apply N.Div0.div_lt_upper_bound. lia.
  - simpl. rewrite orb_false_r. apply bool_decide_eq_false. intros ->.
    discriminate H10.
Qed.

Lemma quote_chars_no_LF s : includes_char (quote_chars s) LF = false.
Proof.
  induction s as [|c s IH]; [reflexivity|].
  simpl. rewrite includes_char_app, IH, quote_char_no_LF. reflexivity.
Qed.

Lemma JSON_stringify_string_shape s :
  exists body, JSON_stringify_string s = String DQUOTE body /\
               includes_char (JSON_stringify_string s) LF = false.
Proof.
  unfold JSON_stringify_string. eexists. split; [reflexivity|].
  rewrite !includes_char_app, quote_chars_no_LF. reflexivity.
Qed.

(** X21.  A string is never written as a text that YAML would read as something
    else or that breaks the line structure: the YAML text of a string is on
    one line, is not empty, does not look like a number, and is not one of
    the words [true], [false], [null], [yes], [no], [on], [off] in any
    case; it is the string itself or its quoted form. *)
Theorem jsonToYaml_string_scalar (s : string) (indent : nat) :
  let y := jsonToYaml (JString s) indent in
  (y = s \/ y = JSON_stringify_string s) /\
  y <> "" /\
  includes_char y LF = false /\
  numeric_looking y = false /\
  toLowerCase y ∉ yaml_keywords.
Proof.
  cbn [jsonToYaml]. destruct (needs_quoting s) eqn:Hq.
  - destruct (JSON_stringify_string_shape s) as (body & Hbody & HLF).
    split; [right; reflexivity|]. rewrite Hbody in *.
    split_and!; [discriminate|exact HLF|reflexivity|].
    unfold yaml_keywords. cbn [toLowerCase].
    intros Hin. repeat (apply elem_of_cons in Hin as [Hin|Hin]; [discriminate Hin|]).
    inversion Hin.
  - split; [left; reflexivity|].
    unfold needs_quoting in Hq.
    repeat (apply orb_false_iff in Hq as [Hq ?]).
    split_and!.
    + apply bool_decide_eq_false in Hq. exact Hq.
    + assumption.
    + assumption.
    + match goal with Hk : bool_decide (_ ∈ yaml_keywords) = false |- _ =>
        apply bool_decide_eq_false in Hk; exact Hk end.
Qed.

End YamlStrings.

(** ** The theme *)

Section ThemeFacts.
Import Theme.

Lemma getStoredTheme_setTheme t localStorage :
  getStoredTheme (setTheme t localStorage) = t.
Proof.
  unfold getStoredTheme, setTheme, Storage in *. rewrite lookup_insert_eq. destruct t; reflexivity.
Qed.


(** X22.  Whatever the storage holds under the key [theme] (nothing, a theme, or
    any other text), toggling changes the theme that is read back, toggling
    twice gives the theme read at the start, a stored theme is read back as
    it was set, and no other key of the storage is touched. *)
Theorem toggleTheme_flips (localStorage : Storage) (t : Theme) (key : string) :
  getStoredTheme (toggleTheme localStorage) <> getStoredTheme localStorage /\
  getStoredTheme (toggleTheme (toggleTheme localStorage)) = getStoredTheme localStorage /\
  getStoredTheme (setTheme t localStorage) = t /\
  (key <> STORAGE_KEY -> toggleTheme localStorage !! key = localStorage !! key).
Proof.
  unfold toggleTheme. cbv zeta. rewrite !getStoredTheme_setTheme.
  split_and!.
  - destruct (getStoredTheme localStorage); discriminate.
  - destruct (getStoredTheme localStorage); reflexivity.
  - reflexivity.
  - intros Hne. unfold setTheme, Storage in *. apply lookup_insert_ne. congruence.
Qed.

End ThemeFacts.

(** ** The search hook: blank queries *)

Section SearchHook.
Import Js JsonUtils JsonFormatter.
Context {number : Type} `{NumberOps number}.

Lemma trimStart_spaces s : all_chars is_space (trimStart s) = all_chars is_space s.
Proof.
  induction s as [|c s IH]; [reflexivity|].
  simpl. destruct (is_space c) eqn:Hc; simpl; [exact IH|]. rewrite Hc. reflexivity.
Qed.

Lemma trimEnd_empty_iff s : trimEnd s = "" <-> all_chars is_space s = true.
Proof.
  induction s as [|c s IH]; [split; reflexivity|].
  simpl. destruct (trimEnd s) as [|d t].
  - destruct (is_space c); simpl.
    + rewrite <- IH. split; reflexivity.
    + split; discriminate.
  - split; [discriminate|]. intros [_ Hs]%andb_true_iff.
    apply IH in Hs. discriminate Hs.
Qed.

Lemma trim_empty_iff s : trim s = "" <-> all_chars is_space s = true.
Proof. unfold trim. rewrite trimEnd_empty_iff, trimStart_spaces. reflexivity. Qed.

(** X23.  The search hook runs no search for a query that is blank: the query
    trimmed is empty exactly when every character of the query is white
    space, and then the hook returns no match; for any other query it returns
    what [searchJson] finds for the trimmed query, case ignored. *)
Theorem searchMatches_blank (data : json number) (searchQuery : string) :
  (trim searchQuery = "" <-> all_chars is_space searchQuery = true) /\
  searchMatches (Some data) searchQuery =
    if all_chars is_space searchQuery then []
    else searchJson data (trim searchQuery) false.
Proof.
  split; [apply trim_empty_iff|].
  unfold searchMatches.
  destruct (all_chars is_space searchQuery) eqn:Hs.
  - apply trim_empty_iff in Hs. rewrite Hs. reflexivity.
  - destruct (trim searchQuery) eqn:Ht; [|reflexivity].
    apply trim_empty_iff in Ht. congruence.
Qed.

End SearchHook.
